(** * lord-renovate: the configuration editor and the configuration resolver

    A shallow embedding of [src/components/RenovateEditor.vue] (the form
    synchronizer: load, export, list edits, view switch) and of
    [src/components/UrlInput.vue] (the resolver: candidate URLs and the
    fetch loop), with the properties of the specification proved on it.

    Values.  A JavaScript value that occurs in a configuration is a tree:
    [undefined], [null], a boolean, a number, a string, an array or a plain
    object.  An object is the list of its own properties in the order
    [Object.keys] enumerates them.  Property reads look at own properties
    only; integer-like keys are kept in insertion order like the others.
    Finite numbers are integers here: the editor only copies numbers and
    tests them for zero.  A string is its sequence of code units, taken
    below 256. *)

From Stdlib Require Import ZArith Lia Ascii String.
From stdpp Require Import base option list strings pretty.

Open Scope string_scope.
Open Scope list_scope.

(** ** JavaScript values *)

Inductive number :=
| Finite (z : Z)
| NaN
| Infinity (negative : bool).

#[local] Unset Elimination Schemes.
Inductive value :=
| JUndef
| JNull
| JBool (b : bool)
| JNum (n : number)
| JStr (s : string)
| JArr (items : list value)
| JObj (props : list (string * value)).
#[local] Set Elimination Schemes.

(** A call either returns or throws: a [TypeError] for a property read on
    [undefined] or [null], for a call of something that is not a function
    and for a property write on a primitive (module code is strict); a
    [SyntaxError] from [JSON.parse].  [OutOfModel] marks the one thing a
    tree cannot hold: an array given a named property or a hole. *)
Inductive result (A : Type) :=
| Ok (a : A)
| TypeError
| SyntaxError
| OutOfModel.
Arguments Ok {A} a.
Arguments TypeError {A}.
Arguments SyntaxError {A}.
Arguments OutOfModel {A}.

#[global] Instance result_bind : MBind result := fun A B k r =>
  match r with
  | Ok a => k a
  | TypeError => TypeError
  | SyntaxError => SyntaxError
  | OutOfModel => OutOfModel
  end.

(** [Array.prototype.map] with a callback that may throw. *)
Fixpoint map_result {A B} (f : A -> result B) (l : list A) : result (list B) :=
  match l with
  | [] => Ok []
  | a :: l' => b ← f a; bs ← map_result f l'; Ok (b :: bs)
  end.

(** *** Truthiness, [||], property access *)

(** [ToBoolean]: [undefined], [null], [false], [0], [NaN] and [''] are
    falsy, everything else (every array and object) is truthy. *)
Definition truthy (v : value) : bool :=
  match v with
  | JUndef | JNull => false
  | JBool b => b
  | JNum (Finite z) => negb (Z.eqb z 0)
  | JNum NaN => false
  | JNum (Infinity _) => true
  | JStr s => negb (bool_decide (s = ""))
  | JArr _ | JObj _ => true
  end.

(** [a || b] *)
Definition js_or (a b : value) : value := if truthy a then a else b.

Definition is_array (v : value) : bool :=
  match v with JArr _ => true | _ => false end.

(** Own property of an object, first match. *)
Fixpoint lookup_prop {V} (k : string) (ps : list (string * V)) : option V :=
  match ps with
  | [] => None
  | (k', v) :: ps' => if bool_decide (k' = k) then Some v else lookup_prop k ps'
  end.

(** [o[k] = v] on an object: an existing key keeps its place, a new key
    goes last. *)
Fixpoint set_prop {V} (k : string) (v : V) (ps : list (string * V))
  : list (string * V) :=
  match ps with
  | [] => [(k, v)]
  | (k', v') :: ps' =>
      if bool_decide (k' = k) then (k, v) :: ps' else (k', v') :: set_prop k v ps'
  end.

(** [delete o[k]] *)
Fixpoint delete_prop {V} (k : string) (ps : list (string * V))
  : list (string * V) :=
  match ps with
  | [] => []
  | (k', v') :: ps' =>
      if bool_decide (k' = k) then ps' else (k', v') :: delete_prop k ps'
  end.

(** The canonical decimal spelling of an array index. *)
Definition index_key (i : nat) : string := pretty i.

Fixpoint chars (s : string) : list value :=
  match s with
  | EmptyString => []
  | String c s' => JStr (String c EmptyString) :: chars s'
  end.

(** The index an own key of an array or string denotes, found by
    comparing the key with the spelling of each index in range. *)
Fixpoint find_index (k : string) (n i : nat) : option nat :=
  match n with
  | O => None
  | S n' => if bool_decide (index_key i = k) then Some i else find_index k n' (S i)
  end.

Definition get_indexed (k : string) (items : list value) : value :=
  if bool_decide (k = "length") then JNum (Finite (Z.of_nat (length items)))
  else match find_index k (length items) 0 with
       | Some i => default JUndef (items !! i)
       | None => JUndef
       end.

(** [v[k]] (and [v.k]): a [TypeError] on [undefined] and [null]. *)
Definition get_prop (v : value) (k : string) : result value :=
  match v with
  | JUndef | JNull => TypeError
  | JBool _ | JNum _ => Ok JUndef
  | JStr s => Ok (get_indexed k (chars s))
  | JArr items => Ok (get_indexed k items)
  | JObj ps => Ok (default JUndef (lookup_prop k ps))
  end.

(** A read [o[k]] of an object is answered by [get_prop] from the
    object's own properties, and a new key is put after the keys the
    object has.  Three families of keys behave otherwise: the members
    that every object inherits from [Object.prototype], found when the
    object has no own property of that name (and [__proto__], an
    accessor there, takes the writes [o['__proto__'] = v] as well); the
    flags that the reactive proxy around [editableConfig] answers
    itself; and the keys spelled as a decimal numeral, which an object
    lists before its other keys whenever they were added.  A statement
    about an arbitrary key of the working document is made for the other
    keys, the [plain_key]s. *)
Definition Object_prototype_keys : list string :=
  ["constructor"; "__defineGetter__"; "__defineSetter__"; "hasOwnProperty";
   "__lookupGetter__"; "__lookupSetter__"; "isPrototypeOf";
   "propertyIsEnumerable"; "toString"; "valueOf"; "__proto__";
   "toLocaleString"].

Definition ReactiveFlags : list string :=
  ["__v_skip"; "__v_isReactive"; "__v_isReadonly"; "__v_isShallow"; "__v_raw"].

Definition is_digit (c : ascii) : bool :=
  (48 <=? nat_of_ascii c)%nat && (nat_of_ascii c <=? 57)%nat.

Fixpoint digits_only (s : string) : bool :=
  match s with
  | EmptyString => true
  | String c s' => is_digit c && digits_only s'
  end.

Definition numeral (key : string) : bool :=
  negb (bool_decide (key = "")) && digits_only key.

Definition plain_key (key : string) : bool :=
  bool_decide (key ∉ Object_prototype_keys ++ ReactiveFlags) &&
  negb (numeral key).

(** The keys that the template passes to the list edits: the arguments
    of [addToArray] and [removeFromArray], split at the dot, and of
    [addToPackageRuleArray] and [removeFromPackageRuleArray]. *)
Definition template_keys : list string :=
  ["extends"; "schedule"; "automergeSchedule"; "labels"; "assignees";
   "reviewers"; "baseBranchPatterns"; "ignoreDeps"; "ignorePaths";
   "lockFileMaintenance"; "managerFilePatterns";
   "matchManagers"; "matchDatasources"; "matchFileNames";
   "matchUpdateTypes"; "matchDepTypes"].

(** Own enumerable properties, as [Object.keys] and the spread [...v]
    see them. *)
Definition indexed (items : list value) : list (string * value) :=
  imap (fun i v => (index_key i, v)) items.

Definition own_props (v : value) : list (string * value) :=
  match v with
  | JObj ps => ps
  | JArr items => indexed items
  | JStr s => indexed (chars s)
  | _ => []
  end.

Definition object_keys (v : value) : list string := (own_props v).*1.

(** ** [JSON.parse(JSON.stringify(v))]

    The editor copies a document by serialising and parsing it again.  On
    a tree that is the structural copy below: [JSON.stringify] leaves out
    a property whose value is [undefined], writes [null] for [undefined]
    in an array and for a number that is not finite; [JSON.stringify
    (undefined)] is [undefined], which [JSON.parse] rejects. *)
Fixpoint clone (v : value) : value :=
  match v with
  | JUndef => JNull
  | JNull => JNull
  | JBool b => JBool b
  | JNum (Finite z) => JNum (Finite z)
  | JNum _ => JNull
  | JStr s => JStr s
  | JArr items => JArr (map clone items)
  | JObj props =>
      JObj ((fix clone_props (ps : list (string * value)) :=
               match ps with
               | [] => []
               | (k, JUndef) :: ps' => clone_props ps'
               | (k, w) :: ps' => (k, clone w) :: clone_props ps'
               end) props)
  end.

(** The properties of the copy of an object. *)
Definition clone_props (ps : list (string * value)) : list (string * value) :=
  match clone (JObj ps) with
  | JObj qs => qs
  | _ => []
  end.

Definition json_roundtrip (v : value) : result value :=
  match v with
  | JUndef => SyntaxError
  | _ => Ok (clone v)
  end.

(** [o[k] = v] as a statement. *)
Definition assign (o : value) (k : string) (v : value) : result value :=
  match o with
  | JObj ps => Ok (JObj (set_prop k v ps))
  | JArr items =>
      match find_index k (length items) 0 with
      | Some i => Ok (JArr (<[i := v]> items))
      | None => OutOfModel
      end
  | _ => TypeError
  end.

(** ** The editor: [RenovateEditor.vue] *)

Inductive view_mode := visual | json.

Record editor := Editor {
  editableConfig : value;
  viewMode : view_mode;
  jsonText : string
}.

Definition rule_fields : list string :=
  ["groupName"; "matchManagers"; "matchDatasources"; "matchFileNames";
   "matchUpdateTypes"; "matchDepTypes"; "matchCurrentVersion";
   "automerge"; "automergeType"].

(** The object spread [{ ...lit, ...rule }]: the literal's properties
    first, then each own property of [rule] assigned in turn. *)
Definition assign_all {V} (o ps : list (string * V)) : list (string * V) :=
  foldl (λ o kv, set_prop kv.1 kv.2 o) o ps.

Definition spread (lit : list (string * value)) (rule : value)
  : list (string * value) :=
  assign_all lit (own_props rule).

(** The callback of [packageRules.map] in the [watch] on [props.config]. *)
Definition normalize_rule (rule : value) : result value :=
  groupName ← get_prop rule "groupName";
  matchManagers ← get_prop rule "matchManagers";
  matchDatasources ← get_prop rule "matchDatasources";
  matchFileNames ← get_prop rule "matchFileNames";
  matchUpdateTypes ← get_prop rule "matchUpdateTypes";
  matchDepTypes ← get_prop rule "matchDepTypes";
  matchCurrentVersion ← get_prop rule "matchCurrentVersion";
  automerge ← get_prop rule "automerge";
  automergeType ← get_prop rule "automergeType";
  Ok (JObj (spread
    [("groupName", js_or groupName (JStr ""));
     ("matchManagers", js_or matchManagers (JArr []));
     ("matchDatasources", js_or matchDatasources (JArr []));
     ("matchFileNames", js_or matchFileNames (JArr []));
     ("matchUpdateTypes", js_or matchUpdateTypes (JArr []));
     ("matchDepTypes", js_or matchDepTypes (JArr []));
     ("matchCurrentVersion", js_or matchCurrentVersion (JStr ""));
     ("automerge", automerge);
     ("automergeType", js_or automergeType (JStr "branch"))]
    rule)).

(** [a.map(f)]: [a] must be an array ([.map] of anything else in a
    parsed document is not a function). *)
Definition js_map (f : value -> result value) (a : value) : result value :=
  match a with
  | JArr items => items' ← map_result f items; Ok (JArr items')
  | _ => TypeError
  end.

(** The document the [watch] callback leaves in [editableConfig]. *)
Definition normalize (newConfig : value) : result value :=
  config ← json_roundtrip newConfig;
  packageRules ← get_prop config "packageRules";
  if truthy packageRules then
    rules ← js_map normalize_rule packageRules;
    assign config "packageRules" rules
  else Ok config.

(** *** Export: [cleanConfig] *)

(** [arr.filter(v => v !== '' && v !== null && v !== undefined)] *)
Definition keep_item (v : value) : bool :=
  match v with
  | JStr s => negb (bool_decide (s = ""))
  | JNull | JUndef => false
  | _ => true
  end.

Definition cleanArray (arr : value) : result (list value) :=
  match arr with
  | JArr items => Ok (filter (fun v => Is_true (keep_item v)) items)
  | _ => TypeError
  end.

(** [if (c) o[k] = v] *)
Definition set_if {V} (c : bool) (k : string) (v : V)
  (o : list (string * V)) : list (string * V) :=
  if c then set_prop k v o else o.

Definition nonempty (l : list value) : bool :=
  match l with [] => false | _ => true end.

Definition is_undefined (v : value) : bool :=
  match v with JUndef => true | _ => false end.

Definition is_true (v : value) : bool :=
  match v with JBool true => true | _ => false end.

(** [o[k] = v] with a computed key on a plain object: the own property
    [k] is added or replaced, except for the key [__proto__], which
    reaches the accessor that every object inherits from
    [Object.prototype]; that one sets the prototype of [o] (or does
    nothing, for a primitive [v]) and adds no own property. *)
Definition assign_key {V} (k : string) (v : V) (o : list (string * V))
  : list (string * V) :=
  if bool_decide (k = "__proto__") then o else set_prop k v o.

(** [Object.keys(rule).forEach(key => { if (!fields.includes(key))
    cleanedRule[key] = rule[key] })] *)
Fixpoint copy_other_fields (rule : value) (keys : list string)
  (o : list (string * value)) : result (list (string * value)) :=
  match keys with
  | [] => Ok o
  | key :: keys' =>
      if bool_decide (key ∈ rule_fields) then copy_other_fields rule keys' o
      else v ← get_prop rule key; copy_other_fields rule keys' (assign_key key v o)
  end.

(** The callback of [cleaned.packageRules.map] in [cleanConfig]. *)
Definition clean_rule (rule : value) : result value :=
  let cleanedRule := [] in
  groupName ← get_prop rule "groupName";
  let cleanedRule := set_if (truthy groupName) "groupName" groupName cleanedRule in
  matchManagers ← get_prop rule "matchManagers";
  managers ← cleanArray (js_or matchManagers (JArr []));
  matchDatasources ← get_prop rule "matchDatasources";
  datasources ← cleanArray (js_or matchDatasources (JArr []));
  matchFileNames ← get_prop rule "matchFileNames";
  fileNames ← cleanArray (js_or matchFileNames (JArr []));
  matchUpdateTypes ← get_prop rule "matchUpdateTypes";
  updateTypes ← cleanArray (js_or matchUpdateTypes (JArr []));
  matchDepTypes ← get_prop rule "matchDepTypes";
  depTypes ← cleanArray (js_or matchDepTypes (JArr []));
  let cleanedRule := set_if (nonempty managers) "matchManagers" (JArr managers) cleanedRule in
  let cleanedRule := set_if (nonempty datasources) "matchDatasources" (JArr datasources) cleanedRule in
  let cleanedRule := set_if (nonempty fileNames) "matchFileNames" (JArr fileNames) cleanedRule in
  let cleanedRule := set_if (nonempty updateTypes) "matchUpdateTypes" (JArr updateTypes) cleanedRule in
  let cleanedRule := set_if (nonempty depTypes) "matchDepTypes" (JArr depTypes) cleanedRule in
  matchCurrentVersion ← get_prop rule "matchCurrentVersion";
  let cleanedRule :=
    set_if (truthy matchCurrentVersion) "matchCurrentVersion" matchCurrentVersion cleanedRule in
  automerge ← get_prop rule "automerge";
  let cleanedRule := set_if (negb (is_undefined automerge)) "automerge" automerge cleanedRule in
  automergeType ← get_prop rule "automergeType";
  let cleanedRule :=
    set_if (is_true automerge && truthy automergeType) "automergeType" automergeType cleanedRule in
  cleanedRule ← copy_other_fields rule (object_keys rule) cleanedRule;
  Ok (JObj cleanedRule).

Definition cleanConfig (config : value) : result value :=
  cleaned ← json_roundtrip config;
  packageRules ← get_prop cleaned "packageRules";
  if truthy packageRules then
    rules ← js_map clean_rule packageRules;
    assign cleaned "packageRules" rules
  else Ok cleaned.

(** What [clean_rule] computes on an object, read off its code: [get] is
    the property read, [emitted_fields] the assignments before the
    [forEach], [copy_fields] the [forEach]. *)
Definition get (m : list (string * value)) (k : string) : value :=
  default JUndef (lookup_prop k m).

Definition emitted_fields (m : list (string * value))
  (managers datasources fileNames updateTypes depTypes : list value)
  : list (string * value) :=
  let o := set_if (truthy (get m "groupName")) "groupName" (get m "groupName") [] in
  let o := set_if (nonempty managers) "matchManagers" (JArr managers) o in
  let o := set_if (nonempty datasources) "matchDatasources" (JArr datasources) o in
  let o := set_if (nonempty fileNames) "matchFileNames" (JArr fileNames) o in
  let o := set_if (nonempty updateTypes) "matchUpdateTypes" (JArr updateTypes) o in
  let o := set_if (nonempty depTypes) "matchDepTypes" (JArr depTypes) o in
  let o := set_if (truthy (get m "matchCurrentVersion")) "matchCurrentVersion"
             (get m "matchCurrentVersion") o in
  let o := set_if (negb (is_undefined (get m "automerge"))) "automerge"
             (get m "automerge") o in
  set_if (is_true (get m "automerge") && truthy (get m "automergeType"))
    "automergeType" (get m "automergeType") o.

Fixpoint copy_fields (m : list (string * value)) (keys : list string)
  (o : list (string * value)) : list (string * value) :=
  match keys with
  | [] => o
  | key :: keys' =>
      if bool_decide (key ∈ rule_fields) then copy_fields m keys' o
      else copy_fields m keys' (assign_key key (get m key) o)
  end.

(** The rules [cleanConfig] goes through without a [TypeError]: objects,
    with distinct keys as every object has, whose match fields are lists
    or falsy. *)
Definition match_fields : list string :=
  ["matchManagers"; "matchDatasources"; "matchFileNames"; "matchUpdateTypes";
   "matchDepTypes"].

Definition list_or_falsy (v : value) : bool := is_array v || negb (truthy v).

Definition exportable_rule (rule : value) : bool :=
  match rule with
  | JObj m =>
      bool_decide (NoDup m.*1) &&
      forallb (λ k, list_or_falsy (get m k)) match_fields
  | _ => false
  end.

(** What the export of a rule shows of [automerge] and [automergeType]:
    [rule] is the rule in the working document, [cleaned] its export. *)
Definition automerge_emitted (rule cleaned : value) : Prop :=
  ∃ m o, rule = JObj m ∧ cleaned = JObj o ∧
    lookup_prop "automerge" o
    = (if is_undefined (get m "automerge") then None
       else Some (clone (get m "automerge"))) ∧
    lookup_prop "automergeType" o
    = (if is_true (get m "automerge") && truthy (clone (get m "automergeType"))
       then Some (clone (get m "automergeType")) else None).

(** The same, case by case on what the rule has under [automerge]. *)
Definition automerge_cases (rule cleaned : value) : Prop :=
  ∀ m o, rule = JObj m → cleaned = JObj o →
    (∀ b, lookup_prop "automerge" m = Some (JBool b) →
          lookup_prop "automerge" o = Some (JBool b)) ∧
    (lookup_prop "automerge" m = None ∨
     lookup_prop "automerge" m = Some JUndef →
       lookup_prop "automerge" o = None) ∧
    (is_Some (lookup_prop "automergeType" o) →
       lookup_prop "automerge" m = Some (JBool true)) ∧
    (lookup_prop "automerge" m = None ∨
     lookup_prop "automerge" m = Some JUndef ∨
     lookup_prop "automerge" m = Some (JBool false) →
       lookup_prop "automergeType" o = None).

(** What [normalize_rule] computes on an object with distinct keys: the
    nine fields in the order of the literal, each with the rule's own
    value or else its default, then the rule's other properties. *)
Definition field_default (k : string) : value :=
  if bool_decide (k ∈ match_fields) then JArr []
  else if bool_decide (k = "automergeType") then JStr "branch"
  else if bool_decide (k = "automerge") then JUndef
  else JStr "".

Definition normalized_field (m : list (string * value)) (k : string) : value :=
  match lookup_prop k m with
  | Some v => v
  | None => field_default k
  end.

Definition other_fields (m : list (string * value)) : list (string * value) :=
  filter (λ kv, kv.1 ∉ rule_fields) m.

Definition normalized_props (m : list (string * value)) : list (string * value) :=
  map (λ k, (k, normalized_field m k)) rule_fields ++ other_fields m.

(** The properties that [copy_other_fields] copies. *)
Definition without_proto (m : list (string * value)) : list (string * value) :=
  filter (λ kv, kv.1 ≠ "__proto__") m.

Definition copied_fields (m : list (string * value)) : list (string * value) :=
  other_fields (without_proto m).

(** What Load leaves of a rule: the default of each field that
    [normalize_rule] fills in, and the relation between a rule that is
    an object with distinct keys and the rule Load makes of it. *)
Definition rule_defaults : list (string * value) :=
  [("groupName", JStr ""); ("matchManagers", JArr []);
   ("matchDatasources", JArr []); ("matchFileNames", JArr []);
   ("matchUpdateTypes", JArr []); ("matchDepTypes", JArr []);
   ("matchCurrentVersion", JStr ""); ("automergeType", JStr "branch")].

Definition normalized (rule rule' : value) : Prop :=
  ∀ m, rule = JObj m → NoDup m.*1 →
    ∃ m', rule' = JObj m' ∧
      (∀ k v, lookup_prop k m = Some v → get m' k = v) ∧
      (∀ k, k ∉ rule_fields → lookup_prop k m' = lookup_prop k m) ∧
      Forall (λ kd, lookup_prop kd.1 m = None → get m' kd.1 = kd.2)
        rule_defaults.

(** [if (c) o[k] = v] on an object that has no [k] yet adds this. *)
Definition emit (c : bool) (k : string) (v : value) : list (string * value) :=
  if c then [(k, v)] else [].

(** Export after Load on one rule: the [watch] callback normalises the
    copy of the rule, [cleanConfig] cleans the copy of the result. *)
Definition export_load_rule (rule : value) : result value :=
  normalized ← normalize_rule (clone rule);
  clean_rule (clone normalized).

(** Export after Load on a document. *)
Definition export_load (d : value) : result value :=
  config ← normalize d;
  cleanConfig config.

(** What [cleanArray(v || [])] returns when it returns. *)
Definition cleaned_list (v : value) : list value :=
  match js_or v (JArr []) with
  | JArr items => filter (λ w, Is_true (keep_item w)) items
  | _ => []
  end.

(** The field [k] of the copy of the normalised rule, and the export of
    a rule with distinct keys in closed form. *)
Definition working_field (m : list (string * value)) (k : string) : value :=
  get (clone_props (normalized_props m)) k.

Definition exported_props (m : list (string * value)) : list (string * value) :=
  let w := working_field m in
  emit (truthy (w "groupName")) "groupName" (w "groupName") ++
  emit (nonempty (cleaned_list (w "matchManagers"))) "matchManagers"
    (JArr (cleaned_list (w "matchManagers"))) ++
  emit (nonempty (cleaned_list (w "matchDatasources"))) "matchDatasources"
    (JArr (cleaned_list (w "matchDatasources"))) ++
  emit (nonempty (cleaned_list (w "matchFileNames"))) "matchFileNames"
    (JArr (cleaned_list (w "matchFileNames"))) ++
  emit (nonempty (cleaned_list (w "matchUpdateTypes"))) "matchUpdateTypes"
    (JArr (cleaned_list (w "matchUpdateTypes"))) ++
  emit (nonempty (cleaned_list (w "matchDepTypes"))) "matchDepTypes"
    (JArr (cleaned_list (w "matchDepTypes"))) ++
  emit (truthy (w "matchCurrentVersion")) "matchCurrentVersion"
    (w "matchCurrentVersion") ++
  emit (negb (is_undefined (w "automerge"))) "automerge" (w "automerge") ++
  emit (is_true (w "automerge") && truthy (w "automergeType")) "automergeType"
    (w "automergeType") ++
  clone_props (copied_fields m).

(** *** Typing, from [src/types]

    [PackageRule]: the optional fields with their declared types; other
    properties are free.  [RenovateConfig]: an object whose
    [packageRules], if present, is a list of such rules.  Objects have
    distinct keys. *)
Definition is_string (v : value) : bool :=
  match v with JStr _ => true | _ => false end.

Definition is_string_list (v : value) : bool :=
  match v with JArr items => forallb is_string items | _ => false end.

Definition is_boolean (v : value) : bool :=
  match v with JBool _ => true | _ => false end.

Definition is_automerge_type (v : value) : bool :=
  match v with
  | JStr s => bool_decide (s = "branch") || bool_decide (s = "pr")
  | _ => false
  end.

Definition absent_or (p : value → bool) (o : option value) : bool :=
  match o with None => true | Some v => p v end.

Definition typed_rule (rule : value) : bool :=
  match rule with
  | JObj m =>
      bool_decide (NoDup m.*1) &&
      absent_or is_string (lookup_prop "groupName" m) &&
      forallb (λ k, absent_or is_string_list (lookup_prop k m)) match_fields &&
      absent_or is_string (lookup_prop "matchCurrentVersion" m) &&
      absent_or is_boolean (lookup_prop "automerge" m) &&
      absent_or is_automerge_type (lookup_prop "automergeType" m)
  | _ => false
  end.

Definition typed_config (d : value) : bool :=
  match d with
  | JObj ps =>
      match lookup_prop "packageRules" ps with
      | None => true
      | Some (JArr rules) => forallb typed_rule rules
      | Some _ => false
      end
  | _ => false
  end.

(** What the second round needs of a rule [m] as the [watch] callback
    sees it: distinct keys, match fields that are lists or falsy, and a
    truthy [automergeType] in the working document when [automerge] is
    [true]. *)
Definition loadable_rule (m : list (string * value)) : Prop :=
  NoDup m.*1 ∧
  Forall (λ k, list_or_falsy (get m k) = true) match_fields ∧
  (is_true (working_field m "automerge") = true →
   truthy (working_field m "automergeType") = true).

(** *** List edits: [addToArray], [removeFromArray] *)

(** [key.split('.')] *)
Fixpoint split_dot (s : string) : list string :=
  match s with
  | EmptyString => [EmptyString]
  | String c s' =>
      if bool_decide (c = "."%char) then EmptyString :: split_dot s'
      else match split_dot s' with
           | [] => [String c EmptyString]
           | p :: ps => String c p :: ps
           end
  end.

(** [key.includes('.')] *)
Fixpoint includes_dot (s : string) : bool :=
  match s with
  | EmptyString => false
  | String c s' => bool_decide (c = "."%char) || includes_dot s'
  end.

(** [parts[i]] of a string array, [undefined] out of range; the code
    only tests it for truthiness and uses it as a key when truthy. *)
Definition part (parts : list string) (i : nat) : string :=
  default "" (parts !! i).

(** The item [addToArray] pushes. *)
Definition empty_item : value := JStr "".

(** [a.push(x)] *)
Definition js_push (a : value) (x : value) : result value :=
  match a with
  | JArr items => Ok (JArr (items ++ [x]))
  | _ => TypeError
  end.

(** [a.splice(index, 1)] on an array of length [len]: a negative index
    counts from the end, the start is clamped to [0 .. len], and one
    element is removed if there is one at the start. *)
Definition splice_start (len : nat) (index : Z) : nat :=
  if (index <? 0)%Z then Z.to_nat (Z.max (Z.of_nat len + index) 0)
  else Nat.min (Z.to_nat index) len.

Definition splice1 (items : list value) (index : Z) : list value :=
  delete (splice_start (length items) index) items.

(** In the code [parentVal] and the arrays are references into the
    document, so a [push] or [splice] on them is seen through
    [editableConfig]; on trees the changed part is stored back. *)
Definition addToArray (config : value) (key : string) : result value :=
  if includes_dot key then
    let parts := split_dot key in
    let parent := part parts 0 in
    let child := part parts 1 in
    if bool_decide (parent = "") || bool_decide (child = "") then Ok config
    else
      p ← get_prop config parent;
      config ← (if truthy p then Ok config else assign config parent (JObj []));
      parentVal ← get_prop config parent;
      c ← get_prop parentVal child;
      parentVal ← (if truthy c then Ok parentVal else assign parentVal child (JArr []));
      c ← get_prop parentVal child;
      c' ← js_push c (JStr "");
      parentVal ← assign parentVal child c';
      assign config parent parentVal
  else
    prop ← get_prop config key;
    config ← (if is_undefined prop then assign config key (JArr []) else Ok config);
    arrayProp ← get_prop config key;
    match arrayProp with
    | JArr items => assign config key (JArr (items ++ [JStr ""]))
    | _ => Ok config
    end.

Definition removeFromArray (config : value) (key : string) (index : Z)
  : result value :=
  if includes_dot key then
    let parts := split_dot key in
    let parent := part parts 0 in
    let child := part parts 1 in
    if bool_decide (parent = "") || bool_decide (child = "") then Ok config
    else
      parentVal ← get_prop config parent;
      if truthy parentVal then
        c ← get_prop parentVal child;
        match c with
        | JArr items =>
            parentVal ← assign parentVal child (JArr (splice1 items index));
            assign config parent parentVal
        | _ => Ok config
        end
      else Ok config
  else
    prop ← get_prop config key;
    match prop with
    | JArr items => assign config key (JArr (splice1 items index))
    | _ => Ok config
    end.

Section Editor.

(** [JSON.stringify(v, null, 2)] and [JSON.parse] as text functions are
    the platform's. *)
Variable JSON_stringify : value -> string.
Variable JSON_parse : string -> result value.

Definition updateJsonText (e : editor) : editor :=
  Editor (editableConfig e) (viewMode e) (JSON_stringify (editableConfig e)).

(** The [watch] callback: Load.  The copy is stored before the rules are
    normalised, so a throw in the normalisation leaves the copy in place
    and the text as it was; the second component is what the callback
    threw, if it did. *)
Definition load (e : editor) (newConfig : value) : editor * result () :=
  match json_roundtrip newConfig with
  | Ok config =>
      let e1 := Editor config (viewMode e) (jsonText e) in
      match normalize newConfig with
      | Ok config' => (updateJsonText (Editor config' (viewMode e) (jsonText e)), Ok ())
      | TypeError => (e1, TypeError)
      | SyntaxError => (e1, SyntaxError)
      | OutOfModel => (e1, OutOfModel)
      end
  | _ => (e, SyntaxError)
  end.

Definition switchToJsonMode (e : editor) : editor :=
  Editor (editableConfig e) json (JSON_stringify (editableConfig e)).

(** [switchToVisualMode] returns the editor and whether [alert] was called. *)
Definition switchToVisualMode (e : editor) : editor * bool :=
  match JSON_parse (jsonText e) with
  | Ok v => (Editor v visual (jsonText e), false)
  | _ => (e, true)
  end.

End Editor.

(** ** The resolver: [UrlInput.vue] *)

Fixpoint starts_with (p s : string) : bool :=
  match p, s with
  | EmptyString, _ => true
  | String a p', String b s' => bool_decide (a = b) && starts_with p' s'
  | String _ _, EmptyString => false
  end.

Fixpoint drop_chars (n : nat) (s : string) : string :=
  match n, s with
  | S n', String _ s' => drop_chars n' s'
  | _, _ => s
  end.

(** [s.includes(p)] *)
Fixpoint includes (p s : string) : bool :=
  starts_with p s ||
  match s with
  | EmptyString => false
  | String _ s' => includes p s'
  end.

(** [s.replace(p, r)] with a string pattern: the first occurrence only. *)
Fixpoint replace_first (p r s : string) : string :=
  if starts_with p s then r +:+ drop_chars (String.length p) s
  else match s with
       | EmptyString => EmptyString
       | String c s' => String c (replace_first p r s')
       end.

(** The longest prefix without a slash, [[^\/]*], and what follows it. *)
Fixpoint segment (s : string) : string * string :=
  match s with
  | EmptyString => (EmptyString, EmptyString)
  | String c s' =>
      if bool_decide (c = "/"%char) then (EmptyString, s)
      else let '(seg, rest) := segment s' in (String c seg, rest)
  end.

(** [[^\/]+\/[^\/]+] anchored at the start of [s]: the two groups and
    what follows the second.  Both groups are greedy and cannot give a
    character back, a slash being excluded from them. *)
Definition owner_repo_at (s : string) : option (string * string * string) :=
  let '(owner, rest) := segment s in
  if bool_decide (owner = "") then None
  else match rest with
       | String _ rest' =>
           let '(repo, rest'') := segment rest' in
           if bool_decide (repo = "") then None else Some (owner, repo, rest'')
       | EmptyString => None
       end.

(** [repoUrl.match(/github\.com\/([^\/]+)\/([^\/]+)/)]: the leftmost
    position where the pattern matches. *)
Fixpoint github_match (s : string) : option (string * string) :=
  let here :=
    if starts_with "github.com/" s
    then match owner_repo_at (drop_chars 11 s) with
         | Some (owner, repo, _) => Some (owner, repo)
         | None => None
         end
    else None in
  match here with
  | Some m => Some m
  | None => match s with
            | EmptyString => None
            | String _ s' => github_match s'
            end
  end.

(** [url.match(/github\.com\/[^\/]+\/[^\/]+\/blob\//)] as a test. *)
Fixpoint blob_match (s : string) : bool :=
  (starts_with "github.com/" s &&
   match owner_repo_at (drop_chars 11 s) with
   | Some (_, _, rest) => starts_with "/blob/" rest
   | None => false
   end) ||
  match s with
  | EmptyString => false
  | String _ s' => blob_match s'
  end.

(** [repo.replace(/\.git$/, '')] *)
Fixpoint strip_git (s : string) : string :=
  match s with
  | EmptyString => EmptyString
  | String c s' => if bool_decide (s = ".git") then EmptyString else String c (strip_git s')
  end.

Definition RENOVATE_CONFIG_PATHS : list string :=
  ["renovate.json"; ".github/renovate.json"; ".renovaterc.json"; ".renovaterc"].

Definition raw_url (owner cleanRepo branch path : string) : string :=
  "https://raw.githubusercontent.com/" +:+ owner +:+ "/" +:+ cleanRepo +:+ "/"
    +:+ branch +:+ "/" +:+ path.

Definition getGitHubRawUrls (repoUrl : string) : list string :=
  match github_match repoUrl with
  | None => []
  | Some (owner, repo) =>
      let cleanRepo := strip_git repo in
      let branches := ["main"; "master"] in
      branch ← branches;
      path ← RENOVATE_CONFIG_PATHS;
      [raw_url owner cleanRepo branch path]
  end.

(** A name without a slash, as an owner or a repository has it. *)
Definition slash_free (s : string) : Prop :=
  "/"%char ∉ list_ascii_of_string s.

(** The eight raw URLs of a repository, in the order they are tried. *)
Definition repository_urls (owner repo : string) : list string :=
  [raw_url owner repo "main" "renovate.json";
   raw_url owner repo "main" ".github/renovate.json";
   raw_url owner repo "main" ".renovaterc.json";
   raw_url owner repo "main" ".renovaterc";
   raw_url owner repo "master" "renovate.json";
   raw_url owner repo "master" ".github/renovate.json";
   raw_url owner repo "master" ".renovaterc.json";
   raw_url owner repo "master" ".renovaterc"].

(** The code units [trim] removes, below 256. *)
Definition is_space (c : ascii) : bool :=
  bool_decide (nat_of_ascii c ∈ [9; 10; 11; 12; 13; 32; 160]).

(** [!url.trim()] *)
Fixpoint blank (s : string) : bool :=
  match s with
  | EmptyString => true
  | String c s' => is_space c && blank s'
  end.

(** [urlsToTry] as [loadConfig] computes it. *)
Definition candidates (url : string) : list string :=
  if includes "github.com" url then
    if includes "raw.githubusercontent.com" url then [url]
    else if blob_match url then
      [replace_first "/blob/" "/"
         (replace_first "github.com" "raw.githubusercontent.com" url)]
    else getGitHubRawUrls url
  else [url].

(** What [fetch] does with a URL: it rejects with a message, or resolves
    to a response with [ok], [status] and a body. *)
Inductive fetch_outcome :=
| Rejects (message : string)
| Responds (ok : bool) (status : nat) (text : string).

(** The object [tryFetch] resolves to; an absent [data] is [undefined]. *)
Record try_result := TryResult {
  success : bool;
  data : value;
  error : option string
}.

Inductive event :=
| ConfigLoaded (config : value)
| Error (message : string)
| Loading (isLoading : bool).

Section Resolver.

Variable fetch : string -> fetch_outcome.
(** [JSON5.parse]: the parsed value, or the message of what it throws. *)
Variable JSON5_parse : string -> value + string.

Definition tryFetch (url : string) : try_result :=
  match fetch url with
  | Rejects message => TryResult false JUndef (Some message)
  | Responds false status _ =>
      TryResult false JUndef (Some ("HTTP " +:+ pretty status))
  | Responds true _ textContent =>
      match JSON5_parse textContent with
      | inl config => TryResult true config None
      | inr message => TryResult false JUndef (Some message)
      end
  end.

(** [result.error || 'Unknown error'] *)
Definition error_or_unknown (e : option string) : string :=
  match e with
  | Some m => if bool_decide (m = "") then "Unknown error" else m
  | None => "Unknown error"
  end.

(** The [for] loop of [loadConfig]: the URLs fetched, in order, the
    [config] it ends with ([None] for [null]) and [lastError]. *)
Fixpoint try_urls (urlsToTry : list string) (lastError : string)
  : list string * option value * string :=
  match urlsToTry with
  | [] => ([], None, lastError)
  | tryUrl :: rest =>
      let result := tryFetch tryUrl in
      if success result && truthy (data result)
      then ([tryUrl], Some (data result), lastError)
      else
        let '(fetched, config, lastError') :=
          try_urls rest (error_or_unknown (error result)) in
        (tryUrl :: fetched, config, lastError')
  end.

(** The test of the loop on a URL: [result.success && result.data]. *)
Definition accepted (url : string) : bool :=
  success (tryFetch url) && truthy (data (tryFetch url)).

(** [lastError] after the loop went through [urls] without a match. *)
Definition last_error (urls : list string) (lastError : string) : string :=
  foldl (λ _ u, error_or_unknown (error (tryFetch u))) lastError urls.

(** [RENOVATE_CONFIG_PATHS.join(', ')] *)
Definition join_paths : string := String.concat ", " RENOVATE_CONFIG_PATHS.

(** [loadConfig]: the URLs it fetches and the events it emits, in order. *)
Definition loadConfig (url : string) : list string * list event :=
  if blank url then ([], [Error "Please enter a URL"])
  else
    let urlsToTry := candidates url in
    let '(fetched, config, lastError) := try_urls urlsToTry "" in
    let outcome :=
      match config with
      | Some c => ConfigLoaded c
      | None =>
          Error ("Error loading config: " +:+
                 (if bool_decide (1 < length urlsToTry)
                  then "Could not find renovate config in repository. Tried: "
                         +:+ join_paths
                  else "Failed to load config: " +:+ lastError))
      end in
    (fetched, [Loading true; Error ""; outcome; Loading false]).

End Resolver.

(** ** The page: [HomeView.vue]

    The page holds the loaded document ([null] before a load), the
    loading flag and the error message, and listens to the events of the
    URL input. *)
Module HomeView.

Record state := State {
  renovateConfig : option value;
  isLoading : bool;
  error : option string
}.

Definition handleConfigLoaded (config : value) (s : state) : state :=
  State (Some config) (isLoading s) None.

Definition handleError (errorMessage : string) (s : state) : state :=
  State None (isLoading s) (Some errorMessage).

Definition handleLoading (loading : bool) (s : state) : state :=
  State (renovateConfig s) loading (error s).

(** [@config-loaded], [@error] and [@loading] on [UrlInput]. *)
Definition on_event (s : state) (ev : event) : state :=
  match ev with
  | ConfigLoaded config => handleConfigLoaded config s
  | Error message => handleError message s
  | Loading loading => handleLoading loading s
  end.

(** [v-if="renovateConfig && !isLoading"] on the editor. *)
Definition shows_editor (s : state) : bool :=
  match renovateConfig s with
  | Some config => truthy config && negb (isLoading s)
  | None => false
  end.

(** [v-if="error"] on the error banner. *)
Definition shows_error (s : state) : bool :=
  match error s with
  | Some message => negb (bool_decide (message = ""))
  | None => false
  end.

End HomeView.

(** ** The same code on a store

    The functions above take a document as a tree.  In the browser a
    document is a graph of objects and arrays, and [push], [splice] and
    property assignment change them in place.  Here values are primitives
    or references into a store of cells, allocation appends a cell, and
    each function is the statement sequence of its source in a monad that
    threads the store and may throw. *)
Module Store.

Abbreviation loc := nat.

Inductive rvalue :=
| RUndef
| RNull
| RBool (b : bool)
| RNum (n : number)
| RStr (s : string)
| RRef (l : loc).

Inductive cell :=
| CArr (items : list rvalue)
| CObj (props : list (string * rvalue)).

Abbreviation heap := (list cell).

(** A computation runs on a store and leaves one, also when it throws. *)
Definition M (A : Type) : Type := heap → result A * heap.

#[global] Instance M_ret : MRet M := λ A a h, (Ok a, h).

#[global] Instance M_bind : MBind M := λ A B k m h,
  match m h with
  | (Ok a, h') => k a h'
  | (TypeError, h') => (TypeError, h')
  | (SyntaxError, h') => (SyntaxError, h')
  | (OutOfModel, h') => (OutOfModel, h')
  end.

Definition throw {A} (e : result A) : M A := λ h, (e, h).

Definition skip : M () := mret ().

(** [new] *)
Definition alloc (c : cell) : M rvalue :=
  λ h, (Ok (RRef (length h)), h ++ [c]).

Definition read (l : loc) : M cell :=
  λ h, match h !! l with
       | Some c => (Ok c, h)
       | None => (OutOfModel, h)
       end.

Definition write (l : loc) (c : cell) : M () :=
  λ h, (Ok (), <[l := c]> h).

Definition truthy (v : rvalue) : bool :=
  match v with
  | RUndef | RNull => false
  | RBool b => b
  | RNum (Finite z) => negb (Z.eqb z 0)
  | RNum NaN => false
  | RNum (Infinity _) => true
  | RStr s => negb (bool_decide (s = ""))
  | RRef _ => true
  end.

Definition is_undefined (v : rvalue) : bool :=
  match v with RUndef => true | _ => false end.

Definition is_true (v : rvalue) : bool :=
  match v with RBool true => true | _ => false end.

(** [a || b], with [b] evaluated only when [a] is falsy. *)
Definition or_else (a : rvalue) (b : M rvalue) : M rvalue :=
  if truthy a then mret a else b.

Definition chars (s : string) : list rvalue :=
  (fix go (s : string) : list rvalue :=
     match s with
     | EmptyString => []
     | String c s' => RStr (String c EmptyString) :: go s'
     end) s.

Definition get_indexed (k : string) (items : list rvalue) : rvalue :=
  if bool_decide (k = "length") then RNum (Finite (Z.of_nat (length items)))
  else match find_index k (length items) 0 with
       | Some i => default RUndef (items !! i)
       | None => RUndef
       end.

(** [v[k]] *)
Definition get_prop (v : rvalue) (k : string) : M rvalue :=
  match v with
  | RUndef | RNull => throw TypeError
  | RBool _ | RNum _ => mret RUndef
  | RStr s => mret (get_indexed k (chars s))
  | RRef l =>
      c ← read l;
      match c with
      | CArr items => mret (get_indexed k items)
      | CObj ps => mret (default RUndef (lookup_prop k ps))
      end
  end.

(** [o[k] = v] *)
Definition assign (o : rvalue) (k : string) (v : rvalue) : M () :=
  match o with
  | RRef l =>
      c ← read l;
      match c with
      | CObj ps => write l (CObj (set_prop k v ps))
      | CArr items =>
          match find_index k (length items) 0 with
          | Some i => write l (CArr (<[i := v]> items))
          | None => throw OutOfModel
          end
      end
  | _ => throw TypeError
  end.

(** [delete o[k]] *)
Definition delete_field (o : rvalue) (k : string) : M () :=
  match o with
  | RRef l =>
      c ← read l;
      match c with
      | CObj ps => write l (CObj (delete_prop k ps))
      | CArr _ => throw OutOfModel
      end
  | RUndef | RNull => throw TypeError
  | _ => skip
  end.

Definition indexed (items : list rvalue) : list (string * rvalue) :=
  imap (λ i v, (index_key i, v)) items.

(** Own enumerable properties, for [Object.keys] and the spread. *)
Definition own_props (v : rvalue) : M (list (string * rvalue)) :=
  match v with
  | RRef l =>
      c ← read l;
      match c with
      | CObj ps => mret ps
      | CArr items => mret (indexed items)
      end
  | RStr s => mret (indexed (chars s))
  | _ => mret []
  end.

(** [Array.isArray(v)] *)
Definition is_array (v : rvalue) : M bool :=
  match v with
  | RRef l => c ← read l; mret (match c with CArr _ => true | CObj _ => false end)
  | _ => mret false
  end.

(** [if (Array.isArray(v)) m] *)
Definition if_array (v : rvalue) (m : M ()) : M () :=
  is_array v ≫= λ isArray : bool, if isArray then m else skip.

(** The items of [a] when [a] is an array; calling an array method on
    anything else throws. *)
Definition array_items (a : rvalue) : M (list rvalue) :=
  match a with
  | RRef l =>
      c ← read l;
      match c with
      | CArr items => mret items
      | CObj _ => throw TypeError
      end
  | _ => throw TypeError
  end.

Fixpoint mapM {A B} (f : A → M B) (l : list A) : M (list B) :=
  match l with
  | [] => mret []
  | a :: l' => b ← f a; bs ← mapM f l'; mret (b :: bs)
  end.

(** [a.map(f)]: a new array. *)
Definition js_map (f : rvalue → M rvalue) (a : rvalue) : M rvalue :=
  items ← array_items a;
  items' ← mapM f items;
  alloc (CArr items').

(** [a.push(x)] *)
Definition js_push (a : rvalue) (x : rvalue) : M () :=
  match a with
  | RRef l =>
      c ← read l;
      match c with
      | CArr items => write l (CArr (items ++ [x]))
      | CObj _ => throw TypeError
      end
  | _ => throw TypeError
  end.

(** [a.splice(index, 1)] *)
Definition js_splice1 (a : rvalue) (index : Z) : M () :=
  match a with
  | RRef l =>
      c ← read l;
      match c with
      | CArr items =>
          write l (CArr (delete (splice_start (length items) index) items))
      | CObj _ => throw TypeError
      end
  | _ => throw TypeError
  end.

(** *** [JSON.stringify] and [JSON.parse] on the store

    [JSON.stringify] walks the graph from a value and [JSON.parse] builds
    new objects.  [read_tree] is the walk, giving the tree it sees;
    [fuel] bounds the depth, and a walk that runs out of it (a cycle, in
    the browser a [TypeError]) gives no tree.  [alloc_tree] is the
    construction. *)
Fixpoint read_tree (fuel : nat) (h : heap) (v : rvalue) : result value :=
  match v with
  | RUndef => Ok JUndef
  | RNull => Ok JNull
  | RBool b => Ok (JBool b)
  | RNum n => Ok (JNum n)
  | RStr s => Ok (JStr s)
  | RRef l =>
      match fuel with
      | O => OutOfModel
      | S fuel' =>
          match h !! l with
          | Some (CArr items) =>
              ts ← map_result (read_tree fuel' h) items; Ok (JArr ts)
          | Some (CObj ps) =>
              ts ← map_result
                     (λ kv, t ← read_tree fuel' h kv.2; Ok (kv.1, t)) ps;
              Ok (JObj ts)
          | None => OutOfModel
          end
      end
  end.

Fixpoint alloc_tree (t : value) : M rvalue :=
  match t with
  | JUndef => mret RUndef
  | JNull => mret RNull
  | JBool b => mret (RBool b)
  | JNum n => mret (RNum n)
  | JStr s => mret (RStr s)
  | JArr items =>
      vs ← (fix go (ts : list value) : M (list rvalue) :=
              match ts with
              | [] => mret []
              | t :: ts' => v ← alloc_tree t; vs ← go ts'; mret (v :: vs)
              end) items;
      alloc (CArr vs)
  | JObj props =>
      ps ← (fix go (ts : list (string * value)) : M (list (string * rvalue)) :=
              match ts with
              | [] => mret []
              | (k, t) :: ts' => v ← alloc_tree t; ps ← go ts'; mret ((k, v) :: ps)
              end) props;
      alloc (CObj ps)
  end.

(** [JSON.parse(JSON.stringify(v))] *)
Definition deep_copy (fuel : nat) (v : rvalue) : M rvalue :=
  t ← (λ h, (read_tree fuel h v, h));
  t' ← throw (json_roundtrip t);
  alloc_tree t'.

(** *** Load *)

Record editor := Editor {
  editableConfig : rvalue;
  viewMode : view_mode;
  jsonText : string
}.

(** The callback of [packageRules.map] in the [watch]: an object literal
    whose defaults are new arrays, then the spread of the rule. *)
Definition normalize_rule (rule : rvalue) : M rvalue :=
  groupName ← get_prop rule "groupName";
  matchManagers ← get_prop rule "matchManagers";
  matchManagers ← or_else matchManagers (alloc (CArr []));
  matchDatasources ← get_prop rule "matchDatasources";
  matchDatasources ← or_else matchDatasources (alloc (CArr []));
  matchFileNames ← get_prop rule "matchFileNames";
  matchFileNames ← or_else matchFileNames (alloc (CArr []));
  matchUpdateTypes ← get_prop rule "matchUpdateTypes";
  matchUpdateTypes ← or_else matchUpdateTypes (alloc (CArr []));
  matchDepTypes ← get_prop rule "matchDepTypes";
  matchDepTypes ← or_else matchDepTypes (alloc (CArr []));
  matchCurrentVersion ← get_prop rule "matchCurrentVersion";
  automerge ← get_prop rule "automerge";
  automergeType ← get_prop rule "automergeType";
  props ← own_props rule;
  alloc (CObj (assign_all
    [("groupName", if truthy groupName then groupName else RStr "");
     ("matchManagers", matchManagers);
     ("matchDatasources", matchDatasources);
     ("matchFileNames", matchFileNames);
     ("matchUpdateTypes", matchUpdateTypes);
     ("matchDepTypes", matchDepTypes);
     ("matchCurrentVersion",
      if truthy matchCurrentVersion then matchCurrentVersion else RStr "");
     ("automerge", automerge);
     ("automergeType", if truthy automergeType then automergeType else RStr "branch")]
    props)).

Section Editor.

Variable JSON_stringify : value → string.

(** [updateJsonText]: the text of the document as the store has it. *)
Definition updateJsonText (fuel : nat) (e : editor) : M editor :=
  t ← (λ h, (read_tree fuel h (editableConfig e), h));
  mret (Editor (editableConfig e) (viewMode e) (JSON_stringify t)).

(** The [watch] callback: Load. *)
Definition load (fuel : nat) (e : editor) (newConfig : rvalue) : M editor :=
  config ← deep_copy fuel newConfig;
  packageRules ← get_prop config "packageRules";
  (if truthy packageRules then
     rules ← js_map normalize_rule packageRules;
     assign config "packageRules" rules
   else skip);;
  updateJsonText fuel (Editor config (viewMode e) (jsonText e)).

End Editor.

(** *** Export *)

Definition keep_item (v : rvalue) : bool :=
  match v with
  | RStr s => negb (bool_decide (s = ""))
  | RNull | RUndef => false
  | _ => true
  end.

(** [cleanArray]: [filter] gives a new array; its items are returned
    with it for the test of [length]. *)
Definition cleanArray (arr : rvalue) : M (rvalue * list rvalue) :=
  items ← array_items arr;
  let kept := filter (λ v, Is_true (keep_item v)) items in
  a ← alloc (CArr kept);
  mret (a, kept).

(** [if (c) o[k] = v] *)
Definition assign_if (c : bool) (o : rvalue) (k : string) (v : rvalue) : M () :=
  if c then assign o k v else skip.

Definition nonempty (l : list rvalue) : bool :=
  match l with [] => false | _ => true end.

(** The [forEach] over [Object.keys(rule)]; the assignment to the key
    [__proto__] adds no own property to [cleanedRule], see [assign_key]. *)
Fixpoint copy_other_fields (rule cleanedRule : rvalue) (keys : list string)
  : M () :=
  match keys with
  | [] => skip
  | key :: keys' =>
      (if bool_decide (key ∈ rule_fields) then skip
       else v ← get_prop rule key;
            if bool_decide (key = "__proto__") then skip
            else assign cleanedRule key v);;
      copy_other_fields rule cleanedRule keys'
  end.

(** The callback of [cleaned.packageRules.map] in [cleanConfig]. *)
Definition clean_rule (rule : rvalue) : M rvalue :=
  cleanedRule ← alloc (CObj []);
  groupName ← get_prop rule "groupName";
  assign_if (truthy groupName) cleanedRule "groupName" groupName;;
  matchManagers ← get_prop rule "matchManagers";
  matchManagers ← or_else matchManagers (alloc (CArr []));
  managers ← cleanArray matchManagers;
  matchDatasources ← get_prop rule "matchDatasources";
  matchDatasources ← or_else matchDatasources (alloc (CArr []));
  datasources ← cleanArray matchDatasources;
  matchFileNames ← get_prop rule "matchFileNames";
  matchFileNames ← or_else matchFileNames (alloc (CArr []));
  fileNames ← cleanArray matchFileNames;
  matchUpdateTypes ← get_prop rule "matchUpdateTypes";
  matchUpdateTypes ← or_else matchUpdateTypes (alloc (CArr []));
  updateTypes ← cleanArray matchUpdateTypes;
  matchDepTypes ← get_prop rule "matchDepTypes";
  matchDepTypes ← or_else matchDepTypes (alloc (CArr []));
  depTypes ← cleanArray matchDepTypes;
  assign_if (nonempty managers.2) cleanedRule "matchManagers" managers.1;;
  assign_if (nonempty datasources.2) cleanedRule "matchDatasources" datasources.1;;
  assign_if (nonempty fileNames.2) cleanedRule "matchFileNames" fileNames.1;;
  assign_if (nonempty updateTypes.2) cleanedRule "matchUpdateTypes" updateTypes.1;;
  assign_if (nonempty depTypes.2) cleanedRule "matchDepTypes" depTypes.1;;
  matchCurrentVersion ← get_prop rule "matchCurrentVersion";
  assign_if (truthy matchCurrentVersion) cleanedRule "matchCurrentVersion"
    matchCurrentVersion;;
  automerge ← get_prop rule "automerge";
  assign_if (negb (is_undefined automerge)) cleanedRule "automerge" automerge;;
  automergeType ← get_prop rule "automergeType";
  assign_if (is_true automerge && truthy automergeType) cleanedRule
    "automergeType" automergeType;;
  props ← own_props rule;
  copy_other_fields rule cleanedRule props.*1;;
  mret cleanedRule.

Definition cleanConfig (fuel : nat) (config : rvalue) : M rvalue :=
  cleaned ← deep_copy fuel config;
  packageRules ← get_prop cleaned "packageRules";
  (if truthy packageRules then
     rules ← js_map clean_rule packageRules;
     assign cleaned "packageRules" rules
   else skip);;
  mret cleaned.

(** *** Edits

    Each takes [editableConfig.value], the root of the working document. *)
Definition addToArray (config : rvalue) (key : string) : M () :=
  if includes_dot key then
    let parts := split_dot key in
    let parent := part parts 0 in
    let child := part parts 1 in
    if bool_decide (parent = "") || bool_decide (child = "") then skip
    else
      p ← get_prop config parent;
      (if truthy p then skip
       else o ← alloc (CObj []); assign config parent o);;
      parentVal ← get_prop config parent;
      c ← get_prop parentVal child;
      (if truthy c then skip
       else a ← alloc (CArr []); assign parentVal child a);;
      c ← get_prop parentVal child;
      js_push c (RStr "")
  else
    prop ← get_prop config key;
    (if is_undefined prop then a ← alloc (CArr []); assign config key a
     else skip);;
    arrayProp ← get_prop config key;
    if_array arrayProp (js_push arrayProp (RStr "")).

Definition removeFromArray (config : rvalue) (key : string) (index : Z) : M () :=
  if includes_dot key then
    let parts := split_dot key in
    let parent := part parts 0 in
    let child := part parts 1 in
    if bool_decide (parent = "") || bool_decide (child = "") then skip
    else
      parentVal ← get_prop config parent;
      if truthy parentVal then
        c ← get_prop parentVal child;
        if_array c (js_splice1 c index)
      else skip
  else
    prop ← get_prop config key;
    if_array prop (js_splice1 prop index).

Definition addPackageRule (config : rvalue) : M () :=
  packageRules ← get_prop config "packageRules";
  (if truthy packageRules then skip
   else a ← alloc (CArr []); assign config "packageRules" a);;
  packageRules ← get_prop config "packageRules";
  matchManagers ← alloc (CArr []);
  matchDatasources ← alloc (CArr []);
  matchFileNames ← alloc (CArr []);
  matchUpdateTypes ← alloc (CArr []);
  matchDepTypes ← alloc (CArr []);
  rule ← alloc (CObj
    [("groupName", RStr "");
     ("matchManagers", matchManagers);
     ("matchDatasources", matchDatasources);
     ("matchFileNames", matchFileNames);
     ("matchUpdateTypes", matchUpdateTypes);
     ("matchDepTypes", matchDepTypes);
     ("matchCurrentVersion", RStr "");
     ("automergeType", RStr "branch")]);
  js_push packageRules rule.

(** [packageRules?.splice(index, 1)] *)
Definition removePackageRule (config : rvalue) (index : Z) : M () :=
  packageRules ← get_prop config "packageRules";
  match packageRules with
  | RUndef | RNull => skip
  | _ => js_splice1 packageRules index
  end.

(** The rule at [ruleIndex], a position in the list, when
    [packageRules && packageRules[ruleIndex]] is truthy. *)
Definition rule_at (config : rvalue) (ruleIndex : nat) : M (option rvalue) :=
  packageRules ← get_prop config "packageRules";
  if truthy packageRules then
    rule ← get_prop packageRules (index_key ruleIndex);
    if truthy rule then
      rule ← get_prop packageRules (index_key ruleIndex);
      mret (Some rule)
    else mret None
  else mret None.

Definition addToPackageRuleArray (config : rvalue) (ruleIndex : nat)
  (key : string) : M () :=
  r ← rule_at config ruleIndex;
  match r with
  | Some rule =>
      v ← get_prop rule key;
      (if truthy v then skip else a ← alloc (CArr []); assign rule key a);;
      arrayProp ← get_prop rule key;
      if_array arrayProp (js_push arrayProp (RStr ""))
  | None => skip
  end.

Definition removeFromPackageRuleArray (config : rvalue) (ruleIndex : nat)
  (key : string) (itemIndex : Z) : M () :=
  r ← rule_at config ruleIndex;
  match r with
  | Some rule =>
      arrayProp ← get_prop rule key;
      if_array arrayProp (js_splice1 arrayProp itemIndex)
  | None => skip
  end.

Definition addManagerConfiguration (config : rvalue) (newManager : string)
  : M () :=
  if bool_decide (newManager = "") then skip
  else
    existing ← get_prop config newManager;
    if truthy existing then skip
    else
      managerFilePatterns ← alloc (CArr []);
      o ← alloc (CObj [("managerFilePatterns", managerFilePatterns)]);
      assign config newManager o.

(** [delete editableConfig[manager]] *)
Definition removeManager (config : rvalue) (manager : string) : M () :=
  delete_field config manager.

(** A [v-model] binding stores what the user typed or chose, a
    primitive, under [key] of the object that [path] leads to. *)
Inductive primitive :=
| PUndef
| PBool (b : bool)
| PNum (z : Z)
| PStr (s : string).

Definition of_primitive (p : primitive) : rvalue :=
  match p with
  | PUndef => RUndef
  | PBool b => RBool b
  | PNum z => RNum (Finite z)
  | PStr s => RStr s
  end.

Fixpoint follow (v : rvalue) (path : list string) : M rvalue :=
  match path with
  | [] => mret v
  | k :: path' => w ← get_prop v k; follow w path'
  end.

Definition setField (config : rvalue) (path : list string) (key : string)
  (p : primitive) : M () :=
  o ← follow config path;
  assign o key (of_primitive p).

(** [switchToVisualMode] when the text parses: the parsed value is the
    new document. *)
Definition applyText (parsed : value) : M rvalue := alloc_tree parsed.

Inductive edit :=
| AddListItem (key : string)
| RemoveListItem (key : string) (index : Z)
| AddPackageRule
| RemovePackageRule (index : Z)
| AddRuleListItem (ruleIndex : nat) (key : string)
| RemoveRuleListItem (ruleIndex : nat) (key : string) (itemIndex : Z)
| AddManager (name : string)
| RemoveManager (name : string)
| SetField (path : list string) (key : string) (p : primitive)
| ApplyText (parsed : value).

(** One edit on the document at [config]; the result is the document
    the editor holds afterwards. *)
Definition run_edit (e : edit) (config : rvalue) : M rvalue :=
  match e with
  | AddListItem key => addToArray config key;; mret config
  | RemoveListItem key index => removeFromArray config key index;; mret config
  | AddPackageRule => addPackageRule config;; mret config
  | RemovePackageRule index => removePackageRule config index;; mret config
  | AddRuleListItem i key => addToPackageRuleArray config i key;; mret config
  | RemoveRuleListItem i key j =>
      removeFromPackageRuleArray config i key j;; mret config
  | AddManager name => addManagerConfiguration config name;; mret config
  | RemoveManager name => removeManager config name;; mret config
  | SetField path key p => setField config path key p;; mret config
  | ApplyText parsed => applyText parsed
  end.

(** A session: the edits one after the other; an edit that throws
    leaves the store as it is at the throw and the document where it was. *)
Fixpoint run_edits (es : list edit) (config : rvalue) (h : heap) : rvalue * heap :=
  match es with
  | [] => (config, h)
  | e :: es' =>
      match run_edit e config h with
      | (Ok config', h') => run_edits es' config' h'
      | (_, h') => run_edits es' config h'
      end
  end.

(** *** What a computation may touch

    [n] marks a point of the store: the cells below [n] were there
    before, the cells from [n] on belong to the working document.
    [safe n m Q]: from a store whose cells from [n] on only refer to
    cells from [n] on, [m] changes no cell below [n], leaves such a store,
    and returns a value satisfying [Q], however it ends. *)
Definition above (n : nat) (v : rvalue) : Prop :=
  match v with RRef l => (n ≤ l)%nat | _ => True end.

Definition cell_above (n : nat) (c : cell) : Prop :=
  match c with
  | CArr items => Forall (above n) items
  | CObj props => Forall (λ kv, above n kv.2) props
  end.

Definition closed (n : nat) (h : heap) : Prop :=
  ∀ l c, (n ≤ l)%nat → h !! l = Some c → cell_above n c.

Definition sep (n : nat) (h : heap) : Prop := (n ≤ length h)%nat ∧ closed n h.

Definition frame (n : nat) (h h' : heap) : Prop :=
  ∀ l, (l < n)%nat → h' !! l = h !! l.

Definition safe {A} (n : nat) (m : M A) (Q : A → Prop) : Prop :=
  ∀ h, sep n h →
    frame n h (m h).2 ∧ sep n (m h).2 ∧ ∀ a, (m h).1 = Ok a → Q a.

(** *** Documents in the store

    [rep P h v t]: in the store [h] the value [v] is the document [t],
    and every cell that holds part of it satisfies [P]. *)
#[local] Unset Elimination Schemes.
Inductive rep (P : loc → Prop) (h : heap) : rvalue → value → Prop :=
| rep_undef : rep P h RUndef JUndef
| rep_null : rep P h RNull JNull
| rep_bool b : rep P h (RBool b) (JBool b)
| rep_num n : rep P h (RNum n) (JNum n)
| rep_str s : rep P h (RStr s) (JStr s)
| rep_arr l items ts :
    P l → h !! l = Some (CArr items) →
    Forall2 (rep P h) items ts →
    rep P h (RRef l) (JArr ts)
| rep_obj l ps ts :
    P l → h !! l = Some (CObj ps) →
    Forall2 (λ p q, p.1 = q.1 ∧ rep P h p.2 q.2) ps ts →
    rep P h (RRef l) (JObj ts).
#[local] Set Elimination Schemes.

(** Related property lists: the same keys, related values. *)
Definition rep_props (P : loc → Prop) (h : heap)
  (ps : list (string * rvalue)) (ts : list (string * value)) : Prop :=
  Forall2 (λ p q, p.1 = q.1 ∧ rep P h p.2 q.2) ps ts.

(** The depth of a document, for the fuel of [read_tree]. *)
Fixpoint depth (t : value) : nat :=
  match t with
  | JArr items => S (foldr (λ t d, Nat.max (depth t) d) 0 items)
  | JObj props => S (foldr (λ kt d, Nat.max (depth kt.2) d) 0 props)
  | _ => 0
  end.

(** The locations from [a] up to [b]. *)
Definition between (a b : nat) : loc → Prop := λ l, a ≤ l < b.

(** *** The store against the tree

    The functions on the store are compared with the functions on
    trees: the same kind of failure, or results related by [R]. *)
Definition res_rel {A B} (R : A → B → Prop) (r : result A) (r' : result B)
  : Prop :=
  match r, r' with
  | Ok a, Ok b => R a b
  | TypeError, TypeError | SyntaxError, SyntaxError
  | OutOfModel, OutOfModel => True
  | _, _ => False
  end.

(** Every location not yet in use is in [Q]. *)
Definition fresh (Q : loc → Prop) (h : heap) : Prop :=
  ∀ l, (length h ≤ l)%nat → Q l.

(** [h'] has every cell of [h] at a location in [Q] as it is. *)
Definition preserved (Q : loc → Prop) (h h' : heap) : Prop :=
  (length h ≤ length h')%nat ∧
  ∀ l, Q l → (l < length h)%nat → h' !! l = h !! l.

Definition stable (Q : loc → Prop) (Pre : heap → Prop) : Prop :=
  ∀ h h', Pre h → preserved Q h h' → Pre h'.

(** [m] reads and allocates only, and its outcome is that of [r]. *)
Definition op (Q : loc → Prop) {A B} (Pre : heap → Prop) (m : M A)
  (r : result B) (R : A → B → heap → Prop) : Prop :=
  ∀ h, Pre h → fresh Q h →
    ∃ k, (m h).2 = h ++ k ∧ res_rel (λ a b, R a b (h ++ k)) (m h).1 r.

(** [m] writes to the object at [cr] only, which holds [o] when [m]
    starts, and its outcome is that of [r]. *)
Definition body (Q : loc → Prop) (cr : loc) {A B} (Pre : heap → Prop)
  (o : list (string * value)) (m : M A) (r : result B)
  (Post : A → B → heap → Prop) : Prop :=
  ∀ h cps, Pre h → fresh Q h →
    h !! cr = Some (CObj cps) → rep_props Q h cps o →
    frame cr h (m h).2 ∧ preserved Q h (m h).2 ∧
    res_rel (λ a b, Post a b (m h).2) (m h).1 r.

(** The cells [addPackageRule] allocates on a store of [n] cells: five
    empty lists and the rule that holds them. *)
Definition new_rule_cells (n : nat) : list cell :=
  [CArr []; CArr []; CArr []; CArr []; CArr [];
   CObj [("groupName", RStr "");
         ("matchManagers", RRef n);
         ("matchDatasources", RRef (n + 1));
         ("matchFileNames", RRef (n + 2));
         ("matchUpdateTypes", RRef (n + 3));
         ("matchDepTypes", RRef (n + 4));
         ("matchCurrentVersion", RStr "");
         ("automergeType", RStr "branch")]].

End Store.

(** * Examples and statement forms

    Documents, stores and networks that the properties below are
    applied to, and the forms some of them are stated in. *)

(** What [splice(index, 1)] leaves of a list, by the position of [index]. *)
Definition splice_cases (items : list value) (index : Z) (r : list value → Prop)
  : Prop :=
  ((0 ≤ index < Z.of_nat (length items))%Z → r (delete (Z.to_nat index) items)) ∧
  ((Z.of_nat (length items) ≤ index)%Z → r items) ∧
  ((index < 0)%Z →
     r (delete (Z.to_nat (Z.max (Z.of_nat (length items) + index) 0)) items)).

Definition two_labels : value :=
  JObj [("labels", JArr [JStr "a"; JStr "b"])].

Definition widgets_urls : list string :=
  ["https://raw.githubusercontent.com/acme/widgets/main/renovate.json";
   "https://raw.githubusercontent.com/acme/widgets/main/.github/renovate.json";
   "https://raw.githubusercontent.com/acme/widgets/main/.renovaterc.json";
   "https://raw.githubusercontent.com/acme/widgets/main/.renovaterc";
   "https://raw.githubusercontent.com/acme/widgets/master/renovate.json";
   "https://raw.githubusercontent.com/acme/widgets/master/.github/renovate.json";
   "https://raw.githubusercontent.com/acme/widgets/master/.renovaterc.json";
   "https://raw.githubusercontent.com/acme/widgets/master/.renovaterc"].

(** A repository whose only configuration file is
    [.github/renovate.json] on [master]. *)
Definition only_master_github (url : string) : fetch_outcome :=
  if bool_decide (url = "https://raw.githubusercontent.com/acme/widgets/master/.github/renovate.json")
  then Responds true 200 "{}" else Responds false 404 "".

(** A repository whose [renovate.json] on [main] holds the text [null]. *)
Definition null_on_main (url : string) : fetch_outcome :=
  if bool_decide (url = "https://raw.githubusercontent.com/acme/widgets/main/renovate.json")
  then Responds true 200 "null" else Responds true 200 "{}".

(** A parser for the two texts of the examples. *)
Definition parse_examples (text : string) : value + string :=
  if bool_decide (text = "{}") then inl (JObj [])
  else if bool_decide (text = "null") then inl JNull
  else inr "JSON5: invalid end of input".

(** No network. *)
Definition offline (url : string) : fetch_outcome := Rejects "Failed to fetch".

Definition events_of_failure (message : string) : list event :=
  [Loading true; Error ""; Error ("Error loading config: " +:+ message);
   Loading false].

Definition automerge_rules : list value :=
  [JObj [("automerge", JBool false); ("automergeType", JStr "pr")];
   JObj [("groupName", JStr "all"); ("automergeType", JStr "pr")];
   JObj [("automerge", JBool true); ("automergeType", JStr "pr")]].

(** The copy of a value read from an object. *)
Definition copied (v : value) : value := if is_undefined v then JUndef else clone v.

Definition sample_config : value :=
  JObj [("extends", JArr [JStr "config:recommended"]);
        ("packageRules", JArr
           [JObj [("matchManagers", JArr [JStr "npm"; JStr ""]);
                  ("automerge", JBool true);
                  ("rangeStrategy", JStr "pin")];
            JObj [("groupName", JStr ""); ("automerge", JBool false);
                  ("automergeType", JStr "pr")]])].

Definition no_text (v : value) : string := "".

Definition empty_editor : editor := Editor (JObj []) visual "".

Definition exported_store : list Store.cell :=
  [Store.CArr [Store.RStr "deps"; Store.RStr ""];
   Store.CObj [("groupName", Store.RStr ""); ("matchManagers", Store.RRef 0)];
   Store.CArr [Store.RRef 1];
   Store.CObj [("timezone", Store.RStr "Europe/Berlin");
               ("packageRules", Store.RRef 2)]].

Definition exported_document : value :=
  JObj [("timezone", JStr "Europe/Berlin");
        ("packageRules",
         JArr [JObj [("groupName", JStr "");
                     ("matchManagers", JArr [JStr "deps"; JStr ""])]])].

Definition loaded_store : list Store.cell :=
  [Store.CArr [Store.RStr "npm"];
   Store.CObj [("matchManagers", Store.RRef 0); ("enabled", Store.RBool false)];
   Store.CArr [Store.RRef 1];
   Store.CObj [("timezone", Store.RStr "Europe/Berlin");
               ("packageRules", Store.RRef 2)]].

Definition loaded_document : value :=
  JObj [("timezone", JStr "Europe/Berlin");
        ("packageRules",
         JArr [JObj [("matchManagers", JArr [JStr "npm"]);
                     ("enabled", JBool false)]])].

Definition loaded_editor : Store.editor :=
  Store.Editor Store.RUndef visual "".

Definition sparse_rule : list (string * value) :=
  [("groupName", JStr "");
   ("matchManagers", JArr [JStr ""; JStr "npm"; JNull]);
   ("matchDatasources", JArr [JStr ""]);
   ("matchCurrentVersion", JStr "");
   ("description", JStr "")].

Definition loaded_rules : list value :=
  [JObj [("matchManagers", JArr [JStr "npm"]); ("enabled", JBool false)]].

(** * Properties *)

(** ** Objects as property lists *)

Section props.
Context {V : Type}.
Implicit Types (k : string) (v : V) (ps qs : list (string * V)).

Lemma lookup_set_prop_eq k v ps : lookup_prop k (set_prop k v ps) = Some v.
Proof.
  induction ps as [|[k' v'] ps IH]; simpl.
  - by rewrite bool_decide_eq_true_2.
  - case_bool_decide; simpl.
    + by rewrite bool_decide_eq_true_2.
    + by rewrite bool_decide_eq_false_2.
Qed.

Lemma lookup_set_prop_ne k k' v ps :
  k ≠ k' → lookup_prop k' (set_prop k v ps) = lookup_prop k' ps.
Proof.
  intros Hne. induction ps as [|[k0 v0] ps IH]; simpl.
  - by rewrite bool_decide_eq_false_2.
  - case_bool_decide; simpl.
    + subst k0. by rewrite !bool_decide_eq_false_2.
    + by rewrite IH.
Qed.

Lemma set_prop_same k v ps : lookup_prop k ps = Some v → set_prop k v ps = ps.
Proof.
  induction ps as [|[k' v'] ps IH]; simpl; [done|].
  case_bool_decide; [naive_solver|]. intros ?. by rewrite IH.
Qed.

Lemma set_prop_fresh k v ps :
  lookup_prop k ps = None → set_prop k v ps = ps ++ [(k, v)].
Proof.
  induction ps as [|[k' v'] ps IH]; simpl; [done|].
  case_bool_decide; [done|]. intros ?. by rewrite IH.
Qed.

Lemma lookup_prop_app k ps qs :
  lookup_prop k (ps ++ qs) =
  match lookup_prop k ps with Some v => Some v | None => lookup_prop k qs end.
Proof.
  induction ps as [|[k' v'] ps IH]; simpl; [done|]. by case_bool_decide.
Qed.

Lemma lookup_prop_None k ps : lookup_prop k ps = None ↔ k ∉ ps.*1.
Proof.
  induction ps as [|[k' v'] ps IH]; simpl.
  - split; [intros _; apply not_elem_of_nil | done].
  - rewrite not_elem_of_cons. case_bool_decide as Hk.
    + split; [done | intros [? _]; by subst].
    + rewrite IH. split; [intros ?; split; [congruence | done] | by intros [_ ?]].
Qed.

Lemma lookup_prop_Some_elem k v ps : lookup_prop k ps = Some v → (k, v) ∈ ps.
Proof.
  induction ps as [|[k' v'] ps IH]; simpl; [done|].
  case_bool_decide; intros ?; [simplify_eq; left | right; auto].
Qed.

Lemma set_prop_keys_in k v ps : k ∈ ps.*1 → (set_prop k v ps).*1 = ps.*1.
Proof.
  induction ps as [|[k' v'] ps IH]; simpl.
  - by intros ?%elem_of_nil.
  - case_bool_decide; simpl; [by subst|].
    intros [?|?]%elem_of_cons; [done|]. f_equal. by apply IH.
Qed.
End props.

(** ** Paths *)

Lemma split_dot_no_dot s : includes_dot s = false → split_dot s = [s].
Proof.
  induction s as [|c s IH]; simpl; [done|].
  intros [Hc Hs]%orb_false_iff. rewrite Hc, IH; done.
Qed.

Lemma split_dot_path p c :
  includes_dot p = false →
  split_dot (p +:+ "." +:+ c) = p :: split_dot c.
Proof.
  induction p as [|a p IH]; simpl; [done|].
  intros [Ha Hp]%orb_false_iff. rewrite Ha, IH; done.
Qed.

Lemma includes_dot_path p c : includes_dot (p +:+ "." +:+ c) = true.
Proof.
  induction p as [|a p IH]; simpl; [done|]. by rewrite IH, orb_true_r.
Qed.

Lemma set_prop_twice {V} k (v w : V) ps :
  set_prop k v (set_prop k w ps) = set_prop k v ps.
Proof.
  induction ps as [|[k' v'] ps IH]; simpl.
  - by rewrite bool_decide_eq_true_2.
  - case_bool_decide; simpl.
    + by rewrite bool_decide_eq_true_2.
    + rewrite bool_decide_eq_false_2 by done. by rewrite IH.
Qed.

(** ** List edits *)

Lemma addToArray_top_absent ps key :
  includes_dot key = false → lookup_prop key ps = None →
  addToArray (JObj ps) key = Ok (JObj (ps ++ [(key, JArr [empty_item])])).
Proof.
  intros Hdot Hk. unfold addToArray. rewrite Hdot. simpl. rewrite Hk. simpl.
  rewrite lookup_set_prop_eq. simpl.
  by rewrite set_prop_twice, set_prop_fresh.
Qed.

Lemma addToArray_top_list ps key items :
  includes_dot key = false → lookup_prop key ps = Some (JArr items) →
  addToArray (JObj ps) key
  = Ok (JObj (set_prop key (JArr (items ++ [empty_item])) ps)).
Proof.
  intros Hdot Hk. unfold addToArray. rewrite Hdot. simpl. rewrite Hk. simpl.
  by rewrite Hk.
Qed.

Lemma path_parts parent child :
  includes_dot parent = false → includes_dot child = false →
  part (split_dot (parent +:+ "." +:+ child)) 0 = parent ∧
  part (split_dot (parent +:+ "." +:+ child)) 1 = child.
Proof.
  intros Hp Hc. rewrite split_dot_path, (split_dot_no_dot child) by done.
  done.
Qed.

Lemma nonempty_key s : s ≠ "" → bool_decide (s = "") = false.
Proof. intros. by apply bool_decide_eq_false_2. Qed.

Section nested.
Context (ps : list (string * value)) (parent child : string).
Context (Hp : includes_dot parent = false) (Hc : includes_dot child = false).
Context (Hpne : parent ≠ "") (Hcne : child ≠ "").

Let key := parent +:+ "." +:+ child.

Lemma addToArray_nested_unfold :
  addToArray (JObj ps) key =
    (p ← get_prop (JObj ps) parent;
     config ← (if truthy p then Ok (JObj ps) else assign (JObj ps) parent (JObj []));
     parentVal ← get_prop config parent;
     c ← get_prop parentVal child;
     parentVal ← (if truthy c then Ok parentVal else assign parentVal child (JArr []));
     c ← get_prop parentVal child;
     c' ← js_push c (JStr "");
     parentVal ← assign parentVal child c';
     assign config parent parentVal).
Proof.
  unfold addToArray, key. rewrite includes_dot_path.
  destruct (path_parts parent child Hp Hc) as [-> ->].
  by rewrite !nonempty_key.
Qed.

Lemma addToArray_nested_absent :
  lookup_prop parent ps = None →
  addToArray (JObj ps) key
  = Ok (JObj (ps ++ [(parent, JObj [(child, JArr [empty_item])])])).
Proof.
  intros Hk. rewrite addToArray_nested_unfold. simpl. rewrite Hk. simpl.
  rewrite lookup_set_prop_eq. simpl.
  case_bool_decide; [simpl | done].
  by rewrite set_prop_twice, set_prop_fresh.
Qed.

Lemma addToArray_nested_child_absent qs :
  lookup_prop parent ps = Some (JObj qs) → lookup_prop child qs = None →
  addToArray (JObj ps) key
  = Ok (JObj (set_prop parent (JObj (qs ++ [(child, JArr [empty_item])])) ps)).
Proof.
  intros Hk Hq. rewrite addToArray_nested_unfold. simpl. rewrite Hk. simpl.
  rewrite Hk. simpl. rewrite Hq. simpl.
  rewrite lookup_set_prop_eq. simpl.
  by rewrite set_prop_twice, (set_prop_fresh child).
Qed.

Lemma addToArray_nested_list qs items :
  lookup_prop parent ps = Some (JObj qs) →
  lookup_prop child qs = Some (JArr items) →
  addToArray (JObj ps) key
  = Ok (JObj (set_prop parent
                (JObj (set_prop child (JArr (items ++ [empty_item])) qs)) ps)).
Proof.
  intros Hk Hq. rewrite addToArray_nested_unfold. simpl. rewrite Hk. simpl.
  rewrite Hk. simpl. rewrite Hq. simpl. by rewrite Hq.
Qed.
End nested.

(** Every key that the template passes to a list edit is a [plain_key]. *)
Lemma template_keys_plain : Forall (λ key, plain_key key = true) template_keys.
Proof. repeat constructor. Qed.

(** C9: [addToArray] appends an empty string to the addressed list and
    creates what is missing on the way, for every key that is a
    [plain_key] (a key that no object inherits, that the reactive proxy
    does not answer itself and that is no numeral): a top-level key that
    is absent
    becomes the one-element list, an absent parent becomes an object
    holding the one-element list under the child key, an absent child
    of an existing parent object likewise; in particular
    ['lockFileMaintenance.schedule'] on a document without
    [lockFileMaintenance] adds [{ lockFileMaintenance: { schedule: [''] } }]. *)
Theorem addToArray_creates_containers (ps : list (string * value)) :
  (∀ key, plain_key key = true → includes_dot key = false →
     lookup_prop key ps = None →
     addToArray (JObj ps) key = Ok (JObj (ps ++ [(key, JArr [JStr ""])]))) ∧
  (∀ key items, plain_key key = true → includes_dot key = false →
     lookup_prop key ps = Some (JArr items) →
     addToArray (JObj ps) key
     = Ok (JObj (set_prop key (JArr (items ++ [JStr ""])) ps))) ∧
  (∀ parent child,
     plain_key parent = true → plain_key child = true →
     includes_dot parent = false → includes_dot child = false →
     parent ≠ "" → child ≠ "" →
     (lookup_prop parent ps = None →
        addToArray (JObj ps) (parent +:+ "." +:+ child)
        = Ok (JObj (ps ++ [(parent, JObj [(child, JArr [JStr ""])])]))) ∧
     (∀ qs, lookup_prop parent ps = Some (JObj qs) →
        lookup_prop child qs = None →
        addToArray (JObj ps) (parent +:+ "." +:+ child)
        = Ok (JObj (set_prop parent
                      (JObj (qs ++ [(child, JArr [JStr ""])])) ps))) ∧
     (∀ qs items, lookup_prop parent ps = Some (JObj qs) →
        lookup_prop child qs = Some (JArr items) →
        addToArray (JObj ps) (parent +:+ "." +:+ child)
        = Ok (JObj (set_prop parent
                      (JObj (set_prop child (JArr (items ++ [JStr ""])) qs))
                      ps)))) ∧
  (lookup_prop "lockFileMaintenance" ps = None →
     addToArray (JObj ps) "lockFileMaintenance.schedule"
     = Ok (JObj (ps ++ [("lockFileMaintenance",
                         JObj [("schedule", JArr [JStr ""])])]))).
Proof.
  split_and!.
  - intros key _. apply addToArray_top_absent.
  - intros key items _. apply addToArray_top_list.
  - intros parent child _ _ Hp Hc Hpne Hcne. split_and!.
    + by apply addToArray_nested_absent.
    + intros qs. by apply addToArray_nested_child_absent.
    + intros qs items. by apply addToArray_nested_list.
  - intros Hk.
    by apply (addToArray_nested_absent ps "lockFileMaintenance" "schedule").
Qed.

Lemma addToArray_creates_containers_witness :
  addToArray (JObj [("enabled", JBool true)]) "lockFileMaintenance.schedule"
  = Ok (JObj [("enabled", JBool true);
              ("lockFileMaintenance", JObj [("schedule", JArr [JStr ""])])]) ∧
  addToArray (JObj [("enabled", JBool true)]) "labels"
  = Ok (JObj [("enabled", JBool true); ("labels", JArr [JStr ""])]).
Proof.
  destruct (addToArray_creates_containers [("enabled", JBool true)])
    as (Htop & _ & _ & Hlock).
  split.
  - apply Hlock. reflexivity.
  - apply (Htop "labels"); reflexivity.
Defined.

Lemma splice1_in_range items (index : Z) :
  (0 ≤ index < Z.of_nat (length items))%Z →
  splice1 items index = delete (Z.to_nat index) items.
Proof.
  intros H. unfold splice1, splice_start.
  destruct (Z.ltb_spec index 0); [lia|]. f_equal. lia.
Qed.

Lemma delete_ge {A} (l : list A) (i : nat) : (length l ≤ i)%nat → delete i l = l.
Proof.
  revert i. induction l as [|a l IH]; intros [|i]; simpl; try done; try lia.
  intros ?. f_equal. apply IH. lia.
Qed.

Lemma splice1_beyond items (index : Z) :
  (Z.of_nat (length items) ≤ index)%Z → splice1 items index = items.
Proof.
  intros H. unfold splice1, splice_start.
  destruct (Z.ltb_spec index 0); [lia|]. apply delete_ge. lia.
Qed.

Lemma splice1_negative items (index : Z) :
  (index < 0)%Z →
  splice1 items index
  = delete (Z.to_nat (Z.max (Z.of_nat (length items) + index) 0)) items.
Proof.
  intros H. unfold splice1, splice_start.
  destruct (Z.ltb_spec index 0); [done|lia].
Qed.

Lemma removeFromArray_top ps key index :
  includes_dot key = false →
  removeFromArray (JObj ps) key index =
  match lookup_prop key ps with
  | Some (JArr items) => Ok (JObj (set_prop key (JArr (splice1 items index)) ps))
  | _ => Ok (JObj ps)
  end.
Proof.
  intros Hdot. unfold removeFromArray. rewrite Hdot. simpl.
  destruct (lookup_prop key ps) as [[]|]; done.
Qed.

Lemma removeFromArray_nested ps parent child index qs :
  includes_dot parent = false → includes_dot child = false →
  parent ≠ "" → child ≠ "" →
  lookup_prop parent ps = Some (JObj qs) →
  removeFromArray (JObj ps) (parent +:+ "." +:+ child) index =
  match lookup_prop child qs with
  | Some (JArr items) =>
      Ok (JObj (set_prop parent
                  (JObj (set_prop child (JArr (splice1 items index)) qs)) ps))
  | _ => Ok (JObj ps)
  end.
Proof.
  intros Hp Hc Hpne Hcne Hk. unfold removeFromArray. rewrite includes_dot_path.
  destruct (path_parts parent child Hp Hc) as [-> ->].
  rewrite !nonempty_key by done. simpl. rewrite Hk. simpl.
  destruct (lookup_prop child _) as [[]|]; done.
Qed.

Lemma removeFromArray_nested_no_parent ps parent child index :
  includes_dot parent = false → includes_dot child = false →
  parent ≠ "" → child ≠ "" →
  lookup_prop parent ps = None →
  removeFromArray (JObj ps) (parent +:+ "." +:+ child) index = Ok (JObj ps).
Proof.
  intros Hp Hc Hpne Hcne Hk. unfold removeFromArray. rewrite includes_dot_path.
  destruct (path_parts parent child Hp Hc) as [-> ->].
  rewrite !nonempty_key by done. simpl. by rewrite Hk.
Qed.

Lemma splice_cases_intro items index r :
  r (splice1 items index) → splice_cases items index r.
Proof.
  intros Hr. split_and!; intros H.
  - by rewrite <-splice1_in_range.
  - by rewrite <-(splice1_beyond items index).
  - by rewrite <-splice1_negative.
Qed.

(** C8, as the code has it: [removeFromArray] deletes exactly the element
    at [index] when the index is in range, changes nothing when the index
    is at or beyond the end of the list or when the path does not lead to
    a list, and takes a negative index from the end of the list, as
    [splice] does, removing the element it finds there. *)
Theorem removeFromArray_splices (ps : list (string * value)) (index : Z) :
  (∀ key items, includes_dot key = false →
     lookup_prop key ps = Some (JArr items) →
     splice_cases items index (λ items',
       removeFromArray (JObj ps) key index
       = Ok (JObj (set_prop key (JArr items') ps))) ∧
     ((Z.of_nat (length items) ≤ index)%Z →
       removeFromArray (JObj ps) key index = Ok (JObj ps))) ∧
  (∀ key, includes_dot key = false →
     (∀ items, lookup_prop key ps ≠ Some (JArr items)) →
     removeFromArray (JObj ps) key index = Ok (JObj ps)) ∧
  (∀ parent child qs,
     includes_dot parent = false → includes_dot child = false →
     parent ≠ "" → child ≠ "" →
     lookup_prop parent ps = Some (JObj qs) →
     (∀ items, lookup_prop child qs = Some (JArr items) →
        splice_cases items index (λ items',
          removeFromArray (JObj ps) (parent +:+ "." +:+ child) index
          = Ok (JObj (set_prop parent
                        (JObj (set_prop child (JArr items') qs)) ps))) ∧
        ((Z.of_nat (length items) ≤ index)%Z →
          removeFromArray (JObj ps) (parent +:+ "." +:+ child) index
          = Ok (JObj ps))) ∧
     ((∀ items, lookup_prop child qs ≠ Some (JArr items)) →
        removeFromArray (JObj ps) (parent +:+ "." +:+ child) index
        = Ok (JObj ps))) ∧
  (∀ parent child,
     includes_dot parent = false → includes_dot child = false →
     parent ≠ "" → child ≠ "" →
     lookup_prop parent ps = None →
     removeFromArray (JObj ps) (parent +:+ "." +:+ child) index = Ok (JObj ps)).
Proof.
  split_and!.
  - intros key items Hdot Hk.
    rewrite removeFromArray_top, Hk by done. split.
    + by apply splice_cases_intro.
    + intros Hge. by rewrite splice1_beyond, set_prop_same.
  - intros key Hdot Hk. rewrite removeFromArray_top by done.
    destruct (lookup_prop key ps) as [[]|]; try done. by edestruct Hk.
  - intros parent child qs Hp Hc Hpne Hcne Hk.
    rewrite (removeFromArray_nested _ _ _ _ qs) by done. split.
    + intros items Hq. rewrite Hq. split.
      * by apply splice_cases_intro.
      * intros Hge. rewrite splice1_beyond by done.
        by rewrite (set_prop_same child), set_prop_same.
    + intros Hq. destruct (lookup_prop child qs) as [[]|]; try done.
      by edestruct Hq.
  - intros. by apply removeFromArray_nested_no_parent.
Qed.

Lemma removeFromArray_splices_witness :
  removeFromArray two_labels "labels" 5 = Ok two_labels ∧
  removeFromArray two_labels "labels" 0
  = Ok (JObj [("labels", JArr [JStr "b"])]).
Proof.
  destruct (removeFromArray_splices [("labels", JArr [JStr "a"; JStr "b"])] 5)
    as (Htop5 & _).
  destruct (removeFromArray_splices [("labels", JArr [JStr "a"; JStr "b"])] 0)
    as (Htop0 & _).
  split.
  - apply (Htop5 "labels" [JStr "a"; JStr "b"]); [reflexivity .. | simpl; lia].
  - apply (Htop0 "labels" [JStr "a"; JStr "b"]); [reflexivity .. | simpl; lia].
Defined.

(** The index [-1] is outside the valid range of a two-element list, and
    [removeFromArray] removes the last element there. *)
Lemma removeFromArray_negative_index_removes :
  ¬ (0 ≤ -1 < 2)%Z ∧
  removeFromArray two_labels "labels" (-1)
  = Ok (JObj [("labels", JArr [JStr "a"])]) ∧
  removeFromArray two_labels "labels" (-1) ≠ Ok two_labels.
Proof. split; [lia|]. split; [reflexivity | discriminate]. Qed.

(** ** The view switch *)

(** C5: [switchToVisualMode] parses the text as JSON; when the parse
    fails the editor is exactly what it was, document and view mode
    included, and the user is alerted; when it succeeds the parsed value
    is the document and the mode is the structured one. *)
Theorem switchToVisualMode_all_or_nothing
    (JSON_parse : string → result value) (e : editor) :
  (∀ v, JSON_parse (jsonText e) = Ok v →
     switchToVisualMode JSON_parse e = (Editor v visual (jsonText e), false)) ∧
  ((∀ v, JSON_parse (jsonText e) ≠ Ok v) →
     switchToVisualMode JSON_parse e = (e, true) ∧
     editableConfig (switchToVisualMode JSON_parse e).1 = editableConfig e ∧
     viewMode (switchToVisualMode JSON_parse e).1 = viewMode e).
Proof.
  unfold switchToVisualMode. split.
  - intros v ->. done.
  - intros Hfail. destruct (JSON_parse (jsonText e)) as [v| | |]; try done.
    by destruct (Hfail v).
Qed.

Lemma switchToVisualMode_all_or_nothing_witness :
  let parse := λ s : string,
    if bool_decide (s = "{}") then Ok (JObj []) else SyntaxError in
  let doc := JObj [("enabled", JBool true)] in
  switchToVisualMode parse (Editor doc json "{") = (Editor doc json "{", true) ∧
  switchToVisualMode parse (Editor doc json "{}")
  = (Editor (JObj []) visual "{}", false).
Proof.
  intros parse doc. split.
  - apply (switchToVisualMode_all_or_nothing parse (Editor doc json "{")).
    intros v. discriminate.
  - apply (switchToVisualMode_all_or_nothing parse (Editor doc json "{}")).
    reflexivity.
Defined.

(** ** The resolver *)

Section resolver_facts.
Context (fetch : string → fetch_outcome) (JSON5_parse : string → value + string).

#[local] Abbreviation try1 := (tryFetch fetch JSON5_parse).
#[local] Abbreviation ok1 := (accepted fetch JSON5_parse).
#[local] Abbreviation loop := (try_urls fetch JSON5_parse).
#[local] Abbreviation resolve := (loadConfig fetch JSON5_parse).
#[local] Abbreviation lasterr := (last_error fetch JSON5_parse).

Lemma accepted_iff u :
  ok1 u = true ↔
  ∃ status text config,
    fetch u = Responds true status text ∧ JSON5_parse text = inl config ∧
    truthy config = true.
Proof.
  unfold accepted, tryFetch.
  destruct (fetch u) as [m|[] status text]; simpl.
  - split; [done | by intros (?&?&?&?&?&?)].
  - destruct (JSON5_parse text) as [config|m] eqn:Hp; simpl.
    + split; [by eauto 6|]. intros (?&?&?&?&?&?). simplify_eq. congruence.
    + split; [done|]. intros (?&?&?&?&?&?). simplify_eq. congruence.
  - split; [done | by intros (?&?&?&?&?&?)].
Qed.

Lemma try_urls_cons u rest e :
  loop (u :: rest) e =
  if ok1 u then ([u], Some (data (try1 u)), e)
  else let '(fetched, config, e') :=
         loop rest (error_or_unknown (error (try1 u))) in
       (u :: fetched, config, e').
Proof. reflexivity. Qed.

Lemma try_urls_all_fail urls e :
  Forall (λ u, ok1 u = false) urls →
  loop urls e = (urls, None, lasterr urls e).
Proof.
  intros Hall. revert e. induction Hall as [|u urls Hu _ IH]; intros e; [done|].
  by rewrite try_urls_cons, Hu, IH.
Qed.

Lemma try_urls_first_match pre u post e :
  Forall (λ u', ok1 u' = false) pre → ok1 u = true →
  ∃ e', loop (pre ++ u :: post) e
        = (pre ++ [u], Some (data (try1 u)), e').
Proof.
  intros Hpre Hu. revert e.
  induction Hpre as [|u' pre Hu' _ IH]; intros e; simpl app;
    rewrite try_urls_cons.
  - rewrite Hu. eauto.
  - rewrite Hu'.
    destruct (IH (error_or_unknown (error (try1 u')))) as [e' ->]. eauto.
Qed.

Lemma blank_not_github url : blank url = true → includes "github.com" url = false.
Proof.
  induction url as [|c url IH]; [done|]. simpl.
  intros [Hc Hb]%andb_true_iff. rewrite (IH Hb), orb_false_r.
  case_bool_decide as Hg; [|done]. subst c. done.
Qed.

Lemma loadConfig_first_match url pre u post :
  blank url = false → candidates url = pre ++ u :: post →
  Forall (λ u', ok1 u' = false) pre → ok1 u = true →
  resolve url
  = (pre ++ [u],
     [Loading true; Error ""; ConfigLoaded (data (try1 u)); Loading false]).
Proof.
  intros Hb Hc Hpre Hu. unfold loadConfig. rewrite Hb, Hc.
  by destruct (try_urls_first_match pre u post "" Hpre Hu) as [e' ->].
Qed.

Lemma loadConfig_all_fail url :
  blank url = false →
  Forall (λ u, ok1 u = false) (candidates url) →
  resolve url
  = (candidates url,
     [Loading true; Error "";
      Error ("Error loading config: " +:+
             (if bool_decide (1 < length (candidates url))
              then "Could not find renovate config in repository. Tried: "
                     +:+ join_paths
              else "Failed to load config: " +:+ lasterr (candidates url) ""));
      Loading false]).
Proof.
  intros Hb Hall. unfold loadConfig.
  by rewrite Hb, try_urls_all_fail.
Qed.

Lemma starts_with_github s :
  starts_with "github.com/" s = true → starts_with "github.com" s = true.
Proof.
  do 10 (destruct s as [|? s]; [done|]; simpl;
         intros [-> H]%andb_true_iff; revert H).
  done.
Qed.

Lemma github_match_includes s m :
  github_match s = Some m → includes "github.com" s = true.
Proof.
  induction s as [|c s IH]; [done|].
  intros H. change (includes "github.com" (String c s))
    with (starts_with "github.com" (String c s) || includes "github.com" s).
  destruct (starts_with "github.com/" (String c s)) eqn:Hs.
  - by rewrite starts_with_github.
  - cbn [github_match] in H. rewrite Hs in H. rewrite (IH H). apply orb_true_r.
Qed.

Lemma candidates_bare url owner repo :
  includes "raw.githubusercontent.com" url = false →
  blob_match url = false →
  github_match url = Some (owner, repo) →
  candidates url =
    [raw_url owner (strip_git repo) "main" "renovate.json";
     raw_url owner (strip_git repo) "main" ".github/renovate.json";
     raw_url owner (strip_git repo) "main" ".renovaterc.json";
     raw_url owner (strip_git repo) "main" ".renovaterc";
     raw_url owner (strip_git repo) "master" "renovate.json";
     raw_url owner (strip_git repo) "master" ".github/renovate.json";
     raw_url owner (strip_git repo) "master" ".renovaterc.json";
     raw_url owner (strip_git repo) "master" ".renovaterc"].
Proof.
  intros Hraw Hblob Hm. unfold candidates, getGitHubRawUrls.
  by rewrite (github_match_includes _ _ Hm), Hraw, Hblob, Hm.
Qed.

Lemma not_blank_github url m : github_match url = Some m → blank url = false.
Proof.
  intros Hm%github_match_includes. destruct (blank url) eqn:Hb; [|done].
  by rewrite blank_not_github in Hm.
Qed.
End resolver_facts.

(** C3, as the code has it: for an input of the bare owner/repo shape the
    candidates are the eight raw URLs, all four paths on [main] before the
    four on [master]; they are fetched in that order, and the loop stops at
    the first one that answers with a successful status and parses as
    relaxed JSON to a truthy value, returning that value and fetching
    nothing after it. *)
Theorem loadConfig_bare_repo
    (fetch : string → fetch_outcome) (JSON5_parse : string → value + string)
    (url owner repo : string) :
  includes "raw.githubusercontent.com" url = false →
  blob_match url = false →
  github_match url = Some (owner, repo) →
  candidates url =
    [raw_url owner (strip_git repo) "main" "renovate.json";
     raw_url owner (strip_git repo) "main" ".github/renovate.json";
     raw_url owner (strip_git repo) "main" ".renovaterc.json";
     raw_url owner (strip_git repo) "main" ".renovaterc";
     raw_url owner (strip_git repo) "master" "renovate.json";
     raw_url owner (strip_git repo) "master" ".github/renovate.json";
     raw_url owner (strip_git repo) "master" ".renovaterc.json";
     raw_url owner (strip_git repo) "master" ".renovaterc"] ∧
  ∀ pre u post status text config,
    candidates url = pre ++ u :: post →
    Forall (λ u', accepted fetch JSON5_parse u' = false) pre →
    fetch u = Responds true status text →
    JSON5_parse text = inl config →
    truthy config = true →
    loadConfig fetch JSON5_parse url
    = (pre ++ [u],
       [Loading true; Error ""; ConfigLoaded config; Loading false]).
Proof.
  intros Hraw Hblob Hm. split; [by apply candidates_bare|].
  intros pre u post status text config Hc Hpre Hf Hp Ht.
  assert (accepted fetch JSON5_parse u = true) as Hu.
  { apply accepted_iff. eauto 6. }
  rewrite (loadConfig_first_match _ _ url pre u post);
    [|by eapply not_blank_github|done..].
  unfold tryFetch. by rewrite Hf, Hp.
Qed.

Lemma loadConfig_bare_repo_witness :
  candidates "https://github.com/acme/widgets" = widgets_urls ∧
  loadConfig only_master_github parse_examples "https://github.com/acme/widgets"
  = (take 6 widgets_urls,
     [Loading true; Error ""; ConfigLoaded (JObj []); Loading false]).
Proof.
  destruct (loadConfig_bare_repo only_master_github parse_examples
              "https://github.com/acme/widgets" "acme" "widgets")
    as [Hc Hload]; [reflexivity..|].
  split; [exact Hc|].
  apply (Hload (take 5 widgets_urls) _ (drop 6 widgets_urls) 200 "{}");
    [reflexivity | repeat constructor | reflexivity..].
Defined.

(** The first candidate answers with a successful status and its text,
    [null], parses as relaxed JSON; the loop goes on to the second
    candidate and returns that one's document. *)
Lemma loadConfig_skips_falsy_document :
  null_on_main "https://raw.githubusercontent.com/acme/widgets/main/renovate.json"
  = Responds true 200 "null" ∧
  parse_examples "null" = inl JNull ∧
  loadConfig null_on_main parse_examples "https://github.com/acme/widgets"
  = (take 2 widgets_urls,
     [Loading true; Error ""; ConfigLoaded (JObj []); Loading false]).
Proof. split_and!; reflexivity. Qed.

Lemma try_urls_single fetch JSON5_parse u e :
  (try_urls fetch JSON5_parse [u] e).1.1 = [u].
Proof.
  rewrite try_urls_cons. by destruct (accepted fetch JSON5_parse u).
Qed.

Lemma loadConfig_fetched fetch JSON5_parse url :
  blank url = false →
  (loadConfig fetch JSON5_parse url).1
  = (try_urls fetch JSON5_parse (candidates url) "").1.1.
Proof.
  intros Hb. unfold loadConfig. rewrite Hb.
  by destruct (try_urls _ _ _ _) as [[??]?].
Qed.

(** C4, as the code has it: an input that is not blank and does not
    contain [github.com] is itself the only candidate, verbatim, and is
    fetched exactly once; an input that contains [github.com] but names no
    raw host, no blob path and no owner/repo pair has no candidate, and
    nothing is fetched. *)
Theorem loadConfig_direct_url
    (fetch : string → fetch_outcome) (JSON5_parse : string → value + string)
    (url : string) :
  blank url = false →
  (includes "github.com" url = false →
     candidates url = [url] ∧ (loadConfig fetch JSON5_parse url).1 = [url]) ∧
  (includes "github.com" url = true →
   includes "raw.githubusercontent.com" url = false →
   blob_match url = false → github_match url = None →
     candidates url = [] ∧ (loadConfig fetch JSON5_parse url).1 = []).
Proof.
  intros Hb. split.
  - intros Hg. assert (candidates url = [url]) as Hc.
    { unfold candidates. by rewrite Hg. }
    split; [done|]. by rewrite loadConfig_fetched, Hc, try_urls_single.
  - intros Hg Hraw Hblob Hm. assert (candidates url = []) as Hc.
    { unfold candidates, getGitHubRawUrls. by rewrite Hg, Hraw, Hblob, Hm. }
    split; [done|]. by rewrite loadConfig_fetched, Hc.
Qed.

Lemma loadConfig_direct_url_witness :
  candidates "https://example.org/renovate.json"
  = ["https://example.org/renovate.json"] ∧
  (loadConfig offline parse_examples "https://example.org/renovate.json").1
  = ["https://example.org/renovate.json"].
Proof.
  apply (loadConfig_direct_url offline parse_examples
           "https://example.org/renovate.json"); reflexivity.
Defined.

(** [https://github.com/acme] is not empty, names no raw host and matches
    neither the blob shape nor the owner/repo shape; it is not a
    candidate, and nothing is fetched. *)
Lemma loadConfig_github_without_repo :
  "https://github.com/acme" ≠ "" ∧
  includes "raw.githubusercontent.com" "https://github.com/acme" = false ∧
  blob_match "https://github.com/acme" = false ∧
  github_match "https://github.com/acme" = None ∧
  candidates "https://github.com/acme" = [] ∧
  candidates "https://github.com/acme" ≠ ["https://github.com/acme"] ∧
  (loadConfig offline parse_examples "https://github.com/acme").1 = [].
Proof. split_and!; done. Qed.

(** C7, as the code has it: when every candidate fails, one error
    message is emitted.  With more than one candidate it lists the
    conventional paths.  With exactly one candidate it carries that
    candidate's own error when there is one with a text: the HTTP
    status, the message of the rejected fetch or the message of the
    parser.  A single candidate that answers with a successful status
    and parses, to a falsy document, has no error of its own, and the
    message is [Unknown error]; so it is for an error with an empty
    text.  With no candidate at all nothing was tried and the message
    ends after [Failed to load config: ]. *)
Theorem loadConfig_failure_message
    (fetch : string → fetch_outcome) (JSON5_parse : string → value + string)
    (url : string) :
  blank url = false →
  Forall (λ u, accepted fetch JSON5_parse u = false) (candidates url) →
  (1 < length (candidates url) →
     (loadConfig fetch JSON5_parse url).2
     = events_of_failure
         "Could not find renovate config in repository. Tried: renovate.json, .github/renovate.json, .renovaterc.json, .renovaterc") ∧
  (∀ u, candidates url = [u] →
     (∀ status text, fetch u = Responds false status text →
        (loadConfig fetch JSON5_parse url).2
        = events_of_failure ("Failed to load config: HTTP " +:+ pretty status)) ∧
     (∀ message, fetch u = Rejects message → message ≠ "" →
        (loadConfig fetch JSON5_parse url).2
        = events_of_failure ("Failed to load config: " +:+ message)) ∧
     (∀ status text message,
        fetch u = Responds true status text →
        JSON5_parse text = inr message → message ≠ "" →
        (loadConfig fetch JSON5_parse url).2
        = events_of_failure ("Failed to load config: " +:+ message)) ∧
     (∀ status text config,
        fetch u = Responds true status text →
        JSON5_parse text = inl config →
        truthy config = false ∧
        error (tryFetch fetch JSON5_parse u) = None ∧
        (loadConfig fetch JSON5_parse url).2
        = events_of_failure "Failed to load config: Unknown error") ∧
     (fetch u = Rejects "" ∨
      (∃ status text,
         fetch u = Responds true status text ∧ JSON5_parse text = inr "") →
        (loadConfig fetch JSON5_parse url).2
        = events_of_failure "Failed to load config: Unknown error")) ∧
  (candidates url = [] →
     (loadConfig fetch JSON5_parse url).2
     = events_of_failure "Failed to load config: ").
Proof.
  intros Hb Hall. rewrite loadConfig_all_fail by done. simpl. split_and!.
  - intros Hlen. by rewrite bool_decide_eq_true_2.
  - intros u Hc. rewrite Hc in Hall |- *. apply Forall_inv in Hall.
    simpl. unfold events_of_failure, last_error. simpl.
    unfold accepted in Hall. unfold tryFetch in *. split_and!.
    + intros status text ->. done.
    + intros message -> Hne. simpl. by rewrite nonempty_key.
    + intros status text message -> -> Hne. simpl. by rewrite nonempty_key.
    + intros status text config Hf Hp. rewrite Hf, Hp in Hall |- *.
      simpl in Hall. by rewrite Hall.
    + by intros [-> | (status & text & -> & ->)].
  - by intros ->.
Qed.

Lemma loadConfig_failure_message_witness :
  (loadConfig offline parse_examples "https://github.com/acme/widgets").2
  = events_of_failure
      "Could not find renovate config in repository. Tried: renovate.json, .github/renovate.json, .renovaterc.json, .renovaterc" ∧
  (loadConfig offline parse_examples "https://example.org/renovate.json").2
  = events_of_failure "Failed to load config: Failed to fetch".
Proof.
  split.
  - apply (loadConfig_failure_message offline parse_examples
             "https://github.com/acme/widgets");
      [reflexivity | repeat constructor | simpl; lia].
  - destruct (loadConfig_failure_message offline parse_examples
                "https://example.org/renovate.json") as (_ & Hone & _);
      [reflexivity | repeat constructor |].
    destruct (Hone "https://example.org/renovate.json" eq_refl)
      as (_ & Hrejects & _).
    apply (Hrejects "Failed to fetch"); [reflexivity | discriminate].
Defined.

(** The raw address of a file that holds the text [null] is the one
    candidate; it is fetched, answers with a successful status and
    parses, so it has neither a transport nor a parse error; yet no
    candidate succeeded, and the message carries [Unknown error]. *)
Lemma loadConfig_single_candidate_without_error :
  candidates "https://raw.githubusercontent.com/acme/widgets/main/renovate.json"
  = ["https://raw.githubusercontent.com/acme/widgets/main/renovate.json"] ∧
  tryFetch null_on_main parse_examples
    "https://raw.githubusercontent.com/acme/widgets/main/renovate.json"
  = TryResult true JNull None ∧
  loadConfig null_on_main parse_examples
    "https://raw.githubusercontent.com/acme/widgets/main/renovate.json"
  = (["https://raw.githubusercontent.com/acme/widgets/main/renovate.json"],
     events_of_failure "Failed to load config: Unknown error").
Proof. split_and!; reflexivity. Qed.

(** ** Induction on values *)

Section value_ind.
Variable P : value → Prop.
Hypothesis Hundef : P JUndef.
Hypothesis Hnull : P JNull.
Hypothesis Hbool : ∀ b, P (JBool b).
Hypothesis Hnum : ∀ n, P (JNum n).
Hypothesis Hstr : ∀ s, P (JStr s).
Hypothesis Harr : ∀ items, Forall P items → P (JArr items).
Hypothesis Hobj : ∀ props, Forall (λ kv, P kv.2) props → P (JObj props).

Fixpoint value_ind (v : value) : P v :=
  match v with
  | JUndef => Hundef
  | JNull => Hnull
  | JBool b => Hbool b
  | JNum n => Hnum n
  | JStr s => Hstr s
  | JArr items =>
      Harr items
        ((fix go (l : list value) : Forall P l :=
            match l with
            | [] => Forall_nil_2 P
            | w :: l' => Forall_cons_2 P w l' (value_ind w) (go l')
            end) items)
  | JObj props =>
      Hobj props
        ((fix go (l : list (string * value)) : Forall (λ kv, P kv.2) l :=
            match l with
            | [] => Forall_nil_2 _
            | kv :: l' => Forall_cons_2 _ kv l' (value_ind kv.2) (go l')
            end) props)
  end.
End value_ind.

(** ** The copy *)

Lemma clone_props_cons k w ps :
  clone_props ((k, w) :: ps) =
  if is_undefined w then clone_props ps else (k, clone w) :: clone_props ps.
Proof. by destruct w. Qed.

Lemma clone_obj ps : clone (JObj ps) = JObj (clone_props ps).
Proof. done. Qed.

Lemma clone_not_undefined v : is_undefined (clone v) = false.
Proof. by destruct v as [| | |[]| | |]. Qed.

Lemma clone_idemp v : clone (clone v) = clone v.
Proof.
  induction v as [| | |[]| |items IH|props IH] using value_ind; try done.
  - simpl. f_equal. induction IH as [|w items Hw _ IHl]; simpl; [done|].
    by rewrite Hw, IHl.
  - rewrite !clone_obj. f_equal.
    induction IH as [|[k w] props Hw _ IHl]; [done|].
    rewrite clone_props_cons. destruct (is_undefined w) eqn:Hu; [done|].
    rewrite clone_props_cons, clone_not_undefined. simpl in Hw.
    by rewrite Hw, IHl.
Qed.

Lemma lookup_clone_props k ps :
  NoDup ps.*1 →
  lookup_prop k (clone_props ps) =
  match lookup_prop k ps with
  | Some v => if is_undefined v then None else Some (clone v)
  | None => None
  end.
Proof.
  induction ps as [|[k' w] ps IH]; [done|].
  simpl. intros [Hk' Hnd]%NoDup_cons. rewrite clone_props_cons.
  case_bool_decide as Hk.
  - subst k'. destruct (is_undefined w).
    + rewrite IH by done. apply lookup_prop_None in Hk'. by rewrite Hk'.
    + simpl. by rewrite bool_decide_eq_true_2.
  - destruct (is_undefined w); [by apply IH|].
    simpl. rewrite bool_decide_eq_false_2 by done. by apply IH.
Qed.

Lemma lookup_clone_props_defined k v ps :
  lookup_prop k ps = Some v → is_undefined v = false →
  lookup_prop k (clone_props ps) = Some (clone v).
Proof.
  induction ps as [|[k' w] ps IH]; [done|].
  rewrite clone_props_cons. simpl. case_bool_decide as Hk.
  - intros ? Hv; simplify_eq. rewrite Hv. simpl.
    by rewrite bool_decide_eq_true_2.
  - intros ??. destruct (is_undefined w); [by apply IH|].
    simpl. rewrite bool_decide_eq_false_2 by done. by apply IH.
Qed.

Lemma clone_props_keys_sub k ps : k ∈ (clone_props ps).*1 → k ∈ ps.*1.
Proof.
  induction ps as [|[k' w] ps IH]; [done|].
  rewrite clone_props_cons. destruct (is_undefined w); simpl.
  - intros ?. right. auto.
  - intros [->|?]%elem_of_cons; [left | right; auto].
Qed.

Lemma clone_props_NoDup ps : NoDup ps.*1 → NoDup (clone_props ps).*1.
Proof.
  induction ps as [|[k' w] ps IH]; [done|].
  simpl. intros [Hk' Hnd]%NoDup_cons. rewrite clone_props_cons.
  destruct (is_undefined w); simpl; [auto|].
  apply NoDup_cons. split; [|auto]. intros ?%clone_props_keys_sub. done.
Qed.

Lemma truthy_clone_falsy v : truthy v = false → truthy (clone v) = false.
Proof. by destruct v as [| | |[]| | |]. Qed.

(** ** Export *)

Lemma get_prop_obj m k : get_prop (JObj m) k = Ok (get m k).
Proof. done. Qed.

Lemma copy_other_fields_obj m keys o :
  copy_other_fields (JObj m) keys o = Ok (copy_fields m keys o).
Proof.
  revert o. induction keys as [|key keys IH]; intros o; simpl; [done|].
  by case_bool_decide.
Qed.

Lemma clean_rule_obj m :
  clean_rule (JObj m) =
  (managers ← cleanArray (js_or (get m "matchManagers") (JArr []));
   datasources ← cleanArray (js_or (get m "matchDatasources") (JArr []));
   fileNames ← cleanArray (js_or (get m "matchFileNames") (JArr []));
   updateTypes ← cleanArray (js_or (get m "matchUpdateTypes") (JArr []));
   depTypes ← cleanArray (js_or (get m "matchDepTypes") (JArr []));
   Ok (JObj (copy_fields m m.*1
               (emitted_fields m managers datasources fileNames updateTypes
                  depTypes)))).
Proof.
  unfold clean_rule. rewrite !get_prop_obj. simpl.
  destruct (cleanArray (js_or (get m "matchManagers") _)); try done; simpl.
  destruct (cleanArray (js_or (get m "matchDatasources") _)); try done; simpl.
  destruct (cleanArray (js_or (get m "matchFileNames") _)); try done; simpl.
  destruct (cleanArray (js_or (get m "matchUpdateTypes") _)); try done; simpl.
  destruct (cleanArray (js_or (get m "matchDepTypes") _)); try done; simpl.
  by rewrite copy_other_fields_obj.
Qed.

Lemma lookup_set_if {V} k' c k (v : V) o :
  lookup_prop k' (set_if c k v o) =
  if c && bool_decide (k = k') then Some v else lookup_prop k' o.
Proof.
  destruct c; simpl; [|done]. case_bool_decide.
  - subst. apply lookup_set_prop_eq.
  - by apply lookup_set_prop_ne.
Qed.

Lemma lookup_assign_key_ne {V} k k' (v : V) ps :
  k ≠ k' → lookup_prop k' (assign_key k v ps) = lookup_prop k' ps.
Proof. intros ?. unfold assign_key. case_bool_decide; [done|]. by apply lookup_set_prop_ne. Qed.

Lemma lookup_copy_fields k m keys o :
  k ∈ rule_fields → lookup_prop k (copy_fields m keys o) = lookup_prop k o.
Proof.
  intros Hk. revert o. induction keys as [|key keys IH]; intros o; simpl; [done|].
  case_bool_decide as Hkey; [done|].
  rewrite IH. apply lookup_assign_key_ne. by intros ->.
Qed.

(** Decide the key comparisons between string literals in the goal. *)
Ltac decide_keys :=
  repeat match goal with
  | |- context [@bool_decide ?P ?d] =>
      first [ rewrite (@bool_decide_eq_false_2 P d) by discriminate
            | rewrite (@bool_decide_eq_true_2 P d) by reflexivity ]
  end.

Lemma lookup_emitted_automerge m l1 l2 l3 l4 l5 :
  lookup_prop "automerge" (emitted_fields m l1 l2 l3 l4 l5) =
  if is_undefined (get m "automerge") then None else Some (get m "automerge").
Proof.
  unfold emitted_fields. rewrite !lookup_set_if.
  decide_keys. rewrite !andb_false_r, andb_true_r. simpl.
  by destruct (is_undefined _).
Qed.

Lemma lookup_emitted_automergeType m l1 l2 l3 l4 l5 :
  lookup_prop "automergeType" (emitted_fields m l1 l2 l3 l4 l5) =
  if is_true (get m "automerge") && truthy (get m "automergeType")
  then Some (get m "automergeType") else None.
Proof.
  unfold emitted_fields. rewrite !lookup_set_if.
  decide_keys. by rewrite !andb_false_r, andb_true_r.
Qed.

Lemma get_clone_props m k :
  NoDup m.*1 →
  get (clone_props m) k
  = if is_undefined (get m k) then JUndef else clone (get m k).
Proof.
  intros Hnd. unfold get. rewrite lookup_clone_props by done.
  destruct (lookup_prop k m) as [v|]; [|done]. simpl. by destruct (is_undefined v).
Qed.

Lemma cleanArray_list_or_falsy m k :
  NoDup m.*1 → list_or_falsy (get m k) = true →
  ∃ l, cleanArray (js_or (get (clone_props m) k) (JArr [])) = Ok l.
Proof.
  intros Hnd Hk. rewrite get_clone_props by done. unfold list_or_falsy in Hk.
  destruct (get m k) as [| |[]|[[]| |]|s| |]; simpl in *; try done; eauto.
  unfold js_or. simpl. destruct (bool_decide (s = "")); simpl in *; [eauto|done].
Qed.

Lemma exportable_rule_inv rule :
  exportable_rule rule = true →
  ∃ m, rule = JObj m ∧ NoDup m.*1 ∧
       Forall (λ k, list_or_falsy (get m k) = true) match_fields.
Proof.
  destruct rule as [| | | | | |m]; try done. simpl.
  intros [Hnd Hall]%andb_true_iff. exists m. split; [done|]. split.
  - by apply bool_decide_eq_true in Hnd.
  - repeat (apply andb_true_iff in Hall as [? Hall]).
    unfold match_fields. by repeat constructor.
Qed.

Lemma clean_rule_exportable m :
  NoDup m.*1 → Forall (λ k, list_or_falsy (get m k) = true) match_fields →
  ∃ l1 l2 l3 l4 l5,
    clean_rule (JObj (clone_props m))
    = Ok (JObj (copy_fields (clone_props m) (clone_props m).*1
                  (emitted_fields (clone_props m) l1 l2 l3 l4 l5))).
Proof.
  intros Hnd Hall. rewrite clean_rule_obj.
  repeat (apply Forall_cons in Hall; destruct Hall as [?%(cleanArray_list_or_falsy _ _ Hnd) Hall]).
  repeat match goal with H : ∃ l, _ = Ok l |- _ => destruct H as [? ->] end.
  simpl. eauto 10.
Qed.

Lemma map_result_Forall2 {A B} (f : A → result B) (P : A → B → Prop) l :
  Forall (λ a, ∃ b, f a = Ok b ∧ P a b) l →
  ∃ l', map_result f l = Ok l' ∧ Forall2 P l l'.
Proof.
  induction 1 as [|a l (b & Hb & HP) _ (l' & Hl' & IH)]; simpl.
  - eauto.
  - rewrite Hb. simpl. rewrite Hl'. simpl. eauto.
Qed.

Lemma clean_rule_automerge m :
  NoDup m.*1 → Forall (λ k, list_or_falsy (get m k) = true) match_fields →
  ∃ cleaned, clean_rule (clone (JObj m)) = Ok cleaned ∧
             automerge_emitted (JObj m) cleaned.
Proof.
  intros Hnd Hall. rewrite clone_obj.
  destruct (clean_rule_exportable m Hnd Hall) as (l1 & l2 & l3 & l4 & l5 & ->).
  eexists. split; [done|]. exists m. eexists. split; [done|]. split; [done|].
  rewrite !lookup_copy_fields by (unfold rule_fields; repeat constructor).
  rewrite lookup_emitted_automerge, lookup_emitted_automergeType.
  rewrite !get_clone_props by done. split.
  - destruct (is_undefined (get m "automerge")) eqn:Hu; [done|].
    by rewrite clone_not_undefined.
  - destruct (get m "automerge") as [| |[]|[]| | |]; try done; simpl.
    destruct (get m "automergeType") as [| | |[]| | |]; done.
Qed.

Lemma clean_rules_automerge rules :
  Forall (λ r, exportable_rule r = true) rules →
  ∃ cleaned_rules,
    map_result clean_rule (map clone rules) = Ok cleaned_rules ∧
    Forall2 automerge_emitted rules cleaned_rules.
Proof.
  induction 1 as [|rule rules Hr _ (outs & Houts & IH)]; simpl; [eauto|].
  apply exportable_rule_inv in Hr as (m & -> & Hnd & Hall).
  destruct (clean_rule_automerge m Hnd Hall) as (cleaned & Hc & He).
  rewrite Hc. simpl. rewrite Houts. simpl. eauto.
Qed.

Lemma cleanConfig_rules ps rules :
  lookup_prop "packageRules" ps = Some (JArr rules) →
  cleanConfig (JObj ps) =
  (cleaned_rules ← map_result clean_rule (map clone rules);
   Ok (JObj (set_prop "packageRules" (JArr cleaned_rules) (clone_props ps)))).
Proof.
  intros Hpr. unfold cleanConfig, json_roundtrip.
  rewrite clone_obj. cbn [mbind result_bind get_prop].
  fold (get (clone_props ps) "packageRules"). unfold get.
  rewrite (lookup_clone_props_defined _ _ _ Hpr) by done.
  cbn [default clone truthy js_map id mbind result_bind].
  by destruct (map_result clean_rule _).
Qed.

(** C2: in the export of a working document every rule shows [automerge]
    exactly when the rule sets it to something other than [undefined]
    (true or false included), and shows [automergeType] only when the
    rule's [automerge] is [true]; so a rule whose [automerge] is absent,
    [undefined] or [false] has no [automergeType] in the export. *)
Theorem cleanConfig_automerge (ps : list (string * value)) (rules : list value) :
  lookup_prop "packageRules" ps = Some (JArr rules) →
  Forall (λ r, exportable_rule r = true) rules →
  ∃ cleaned_rules,
    cleanConfig (JObj ps)
    = Ok (JObj (set_prop "packageRules" (JArr cleaned_rules) (clone_props ps))) ∧
    Forall2 (λ rule cleaned,
      automerge_emitted rule cleaned ∧ automerge_cases rule cleaned)
      rules cleaned_rules.
Proof.
  intros Hpr Hall. destruct (clean_rules_automerge rules Hall) as (outs & Ho & H2).
  exists outs. rewrite (cleanConfig_rules _ _ Hpr), Ho. split; [done|].
  eapply Forall2_impl; [exact H2|]. intros rule cleaned He. split; [done|].
  intros m o -> ->. destruct He as (m' & o' & [= <-] & [= <-] & Ha & Ht).
  rewrite Ha, Ht. unfold get. split_and!.
  - by intros b ->.
  - by intros [-> | ->].
  - destruct (lookup_prop "automerge" m) as [[| |[]| | | |]|]; simpl; try done;
      by intros [??].
  - by intros [-> | [-> | ->]].
Qed.

Lemma cleanConfig_automerge_witness :
  ∃ cleaned_rules,
    cleanConfig (JObj [("packageRules", JArr automerge_rules)])
    = Ok (JObj (set_prop "packageRules" (JArr cleaned_rules)
                  (clone_props [("packageRules", JArr automerge_rules)]))) ∧
    Forall2 (λ rule cleaned,
      automerge_emitted rule cleaned ∧ automerge_cases rule cleaned)
      automerge_rules cleaned_rules.
Proof.
  apply cleanConfig_automerge; [reflexivity | repeat constructor].
Defined.

Example cleanConfig_automerge_example :
  cleanConfig (JObj [("packageRules", JArr automerge_rules)])
  = Ok (JObj [("packageRules", JArr
         [JObj [("automerge", JBool false)];
          JObj [("groupName", JStr "all")];
          JObj [("automerge", JBool true); ("automergeType", JStr "pr")]])]).
Proof. reflexivity. Qed.

(** ** Normalisation of a rule *)

Lemma set_prop_keys_fresh {V} k (v : V) ps :
  k ∉ ps.*1 → (set_prop k v ps).*1 = ps.*1 ++ [k].
Proof. intros ?%lookup_prop_None. rewrite set_prop_fresh by done. by rewrite fmap_app. Qed.

Lemma props_ext {V} (l1 l2 : list (string * V)) :
  l1.*1 = l2.*1 → NoDup l1.*1 →
  (∀ k, lookup_prop k l1 = lookup_prop k l2) → l1 = l2.
Proof.
  revert l2. induction l1 as [|[k v] l1 IH]; intros [|[k' v'] l2]; try done.
  simpl. intros [= <- Hkeys] [Hk Hnd]%NoDup_cons Hlook. f_equal.
  - f_equal. specialize (Hlook k). simpl in Hlook.
    rewrite !bool_decide_eq_true_2 in Hlook by done. congruence.
  - apply IH; [done..|]. intros k0. specialize (Hlook k0). simpl in Hlook.
    case_bool_decide; [|done]. subst k0.
    apply lookup_prop_None in Hk as Hk1. rewrite Hkeys in Hk.
    apply lookup_prop_None in Hk. congruence.
Qed.


Lemma lookup_assign_all {V} k (o ps : list (string * V)) :
  NoDup ps.*1 →
  lookup_prop k (assign_all o ps) =
  match lookup_prop k ps with Some v => Some v | None => lookup_prop k o end.
Proof.
  revert o. induction ps as [|[k' v'] ps IH]; intros o; [done|].
  simpl. intros [Hk' Hnd]%NoDup_cons. unfold assign_all in *. simpl.
  rewrite IH by done. case_bool_decide as Hk.
  - subst k'. apply lookup_prop_None in Hk'. rewrite Hk'.
    apply lookup_set_prop_eq.
  - destruct (lookup_prop k ps); [done|]. by apply lookup_set_prop_ne.
Qed.

Lemma filter_ext_in {A} (P Q : A → Prop) `{!∀ x, Decision (P x)}
    `{!∀ x, Decision (Q x)} (l : list A) :
  (∀ x, x ∈ l → P x ↔ Q x) → filter P l = filter Q l.
Proof.
  induction l as [|a l IH]; [done|]. intros Hext. rewrite !filter_cons.
  rewrite IH by (intros x ?; apply Hext; by right).
  destruct (decide (P a)) as [HP|HP], (decide (Q a)) as [HQ|HQ]; try done.
  - by apply Hext in HP; [|left].
  - by apply Hext in HQ; [|left].
Qed.

Lemma keys_assign_all {V} (o ps : list (string * V)) :
  NoDup ps.*1 →
  (assign_all o ps).*1 = o.*1 ++ filter (λ k, k ∉ o.*1) ps.*1.
Proof.
  revert o. induction ps as [|[k v] ps IH]; intros o.
  { intros _. simpl. by rewrite app_nil_r. }
  simpl. intros [Hk Hnd]%NoDup_cons. unfold assign_all in *. simpl.
  rewrite IH by done. rewrite filter_cons. simpl.
  destruct (decide (k ∈ o.*1)) as [Hin|Hin].
  - rewrite decide_False by (by intros ?). by rewrite set_prop_keys_in.
  - rewrite decide_True by done. rewrite set_prop_keys_fresh by done.
    rewrite <-app_assoc. simpl. do 2 f_equal.
    apply filter_ext_in. intros k' Hk'. rewrite elem_of_app, list_elem_of_singleton.
    split; [tauto|]. intros ? [?| ->]; done.
Qed.

Lemma other_fields_keys m :
  (other_fields m).*1 = filter (λ k, k ∉ rule_fields) m.*1.
Proof.
  unfold other_fields. induction m as [|[k v] m IH]; [done|].
  rewrite fmap_cons, !filter_cons. simpl.
  destruct (decide (k ∉ rule_fields)); [|exact IH].
  rewrite fmap_cons. simpl. f_equal. exact IH.
Qed.

Lemma lookup_other_fields k m :
  lookup_prop k (other_fields m) =
  if bool_decide (k ∈ rule_fields) then None else lookup_prop k m.
Proof.
  unfold other_fields. induction m as [|[k' v] m IH]; simpl.
  - by case_bool_decide.
  - rewrite filter_cons. simpl. destruct (decide (k' ∉ rule_fields)) as [Hk'|Hk'].
    + simpl. rewrite IH. repeat case_bool_decide; try done. by subst.
    + rewrite IH. repeat case_bool_decide; try done. subst.
      by destruct Hk'.
Qed.

Lemma rule_fields_NoDup : NoDup rule_fields.
Proof. by apply (bool_decide_unpack _). Qed.

Lemma keys_map_fields (f : string → value) (l : list string) :
  (map (λ k, (k, f k)) l).*1 = l.
Proof. induction l as [|k l IH]; [done|]. simpl. f_equal. exact IH. Qed.

Lemma lookup_map_fields (f : string → value) (l : list string) k :
  lookup_prop k (map (λ k, (k, f k)) l)
  = if bool_decide (k ∈ l) then Some (f k) else None.
Proof.
  induction l as [|k' l IH]; [done|]. cbn [map lookup_prop].
  destruct (decide (k' = k)) as [->|Hne].
  - rewrite bool_decide_eq_true_2 by done.
    by rewrite bool_decide_eq_true_2 by (apply elem_of_cons; by left).
  - rewrite bool_decide_eq_false_2 by done. rewrite IH.
    rewrite (bool_decide_ext (k ∈ k' :: l) (k ∈ l)); [done|].
    rewrite elem_of_cons. split; [intros [?|?]; [congruence|done] | by right].
Qed.

Lemma normalized_props_keys m :
  (normalized_props m).*1 = rule_fields ++ filter (λ k, k ∉ rule_fields) m.*1.
Proof.
  unfold normalized_props. by rewrite fmap_app, keys_map_fields, other_fields_keys.
Qed.

Lemma normalized_props_NoDup m : NoDup m.*1 → NoDup (normalized_props m).*1.
Proof.
  intros Hnd. rewrite normalized_props_keys. apply NoDup_app. split_and!.
  - apply rule_fields_NoDup.
  - intros k Hk [Hk' _]%list_elem_of_filter. done.
  - by apply NoDup_filter.
Qed.

Lemma lookup_normalized_props k m :
  lookup_prop k (normalized_props m) =
  if bool_decide (k ∈ rule_fields) then Some (normalized_field m k)
  else lookup_prop k m.
Proof.
  unfold normalized_props. rewrite lookup_prop_app, lookup_map_fields.
  rewrite lookup_other_fields. by case_bool_decide.
Qed.

Lemma get_absent m k : lookup_prop k m = None → get m k = JUndef.
Proof. unfold get. by intros ->. Qed.

Lemma normalize_rule_obj m :
  NoDup m.*1 → normalize_rule (JObj m) = Ok (JObj (normalized_props m)).
Proof.
  intros Hnd. unfold normalize_rule. rewrite !get_prop_obj.
  cbn [mbind result_bind]. do 2 f_equal. unfold spread. cbn [own_props].
  apply props_ext.
  - by rewrite keys_assign_all, normalized_props_keys.
  - rewrite keys_assign_all by done. rewrite <-normalized_props_keys.
    by apply normalized_props_NoDup.
  - intros k. rewrite lookup_assign_all, lookup_normalized_props by done.
    unfold normalized_field. destruct (lookup_prop k m) as [v|] eqn:Hk.
    { by case_bool_decide. }
    case_bool_decide as Hin.
    + unfold rule_fields in Hin.
      repeat (apply elem_of_cons in Hin as [->|Hin]);
        try (rewrite (get_absent _ _ Hk); reflexivity).
      by apply elem_of_nil in Hin.
    + apply lookup_prop_None. done.
Qed.

(** ** Export of a rule, in closed form *)

Lemma set_if_chain (c1 c2 c3 c4 c5 c6 c7 c8 c9 : bool)
    (v1 v2 v3 v4 v5 v6 v7 v8 v9 : value) :
  set_if c9 "automergeType" v9
    (set_if c8 "automerge" v8
       (set_if c7 "matchCurrentVersion" v7
          (set_if c6 "matchDepTypes" v6
             (set_if c5 "matchUpdateTypes" v5
                (set_if c4 "matchFileNames" v4
                   (set_if c3 "matchDatasources" v3
                      (set_if c2 "matchManagers" v2
                         (set_if c1 "groupName" v1 [])))))))) =
  emit c1 "groupName" v1 ++ emit c2 "matchManagers" v2 ++
  emit c3 "matchDatasources" v3 ++ emit c4 "matchFileNames" v4 ++
  emit c5 "matchUpdateTypes" v5 ++ emit c6 "matchDepTypes" v6 ++
  emit c7 "matchCurrentVersion" v7 ++ emit c8 "automerge" v8 ++
  emit c9 "automergeType" v9.
Proof. destruct c1, c2, c3, c4, c5, c6, c7, c8, c9; reflexivity. Qed.

Lemma emitted_fields_flat m l1 l2 l3 l4 l5 :
  emitted_fields m l1 l2 l3 l4 l5 =
  emit (truthy (get m "groupName")) "groupName" (get m "groupName") ++
  emit (nonempty l1) "matchManagers" (JArr l1) ++
  emit (nonempty l2) "matchDatasources" (JArr l2) ++
  emit (nonempty l3) "matchFileNames" (JArr l3) ++
  emit (nonempty l4) "matchUpdateTypes" (JArr l4) ++
  emit (nonempty l5) "matchDepTypes" (JArr l5) ++
  emit (truthy (get m "matchCurrentVersion")) "matchCurrentVersion"
    (get m "matchCurrentVersion") ++
  emit (negb (is_undefined (get m "automerge"))) "automerge" (get m "automerge") ++
  emit (is_true (get m "automerge") && truthy (get m "automergeType"))
    "automergeType" (get m "automergeType").
Proof. apply set_if_chain. Qed.

Lemma emit_keys c k v k' : k' ∈ (emit c k v).*1 → k' = k.
Proof. destruct c; simpl; [|by intros ?%elem_of_nil]. by intros ?%list_elem_of_singleton. Qed.

Lemma lookup_prop_elem {V} k (v : V) m :
  NoDup m.*1 → (k, v) ∈ m → lookup_prop k m = Some v.
Proof.
  induction m as [|[k' v'] m IH]; [by intros _ ?%elem_of_nil|].
  simpl. intros [Hk' Hnd]%NoDup_cons [Heq|Hin]%elem_of_cons.
  - simplify_eq. by rewrite bool_decide_eq_true_2.
  - rewrite bool_decide_eq_false_2; [by apply IH|].
    intros ->. apply Hk'. apply list_elem_of_fmap. by exists (k, v).
Qed.

Lemma other_fields_cons k v m :
  other_fields ((k, v) :: m) =
  if bool_decide (k ∈ rule_fields) then other_fields m
  else (k, v) :: other_fields m.
Proof.
  unfold other_fields. rewrite filter_cons. simpl.
  destruct (decide (k ∉ rule_fields)) as [H|H].
  - by rewrite bool_decide_eq_false_2.
  - rewrite bool_decide_eq_true_2; [done|]. by apply dec_stable.
Qed.

Lemma without_proto_cons k v m :
  without_proto ((k, v) :: m) =
  if bool_decide (k = "__proto__") then without_proto m
  else (k, v) :: without_proto m.
Proof.
  unfold without_proto. rewrite filter_cons. simpl.
  destruct (decide (k ≠ "__proto__")) as [H|H].
  - by rewrite bool_decide_eq_false_2.
  - rewrite bool_decide_eq_true_2; [done|]. by apply dec_stable.
Qed.

Lemma copied_fields_cons k v m :
  copied_fields ((k, v) :: m) =
  if bool_decide (k ∈ rule_fields) then copied_fields m
  else if bool_decide (k = "__proto__") then copied_fields m
  else (k, v) :: copied_fields m.
Proof.
  unfold copied_fields. rewrite without_proto_cons.
  case_bool_decide as Hp.
  - subst. by rewrite bool_decide_eq_false_2 by (by apply (bool_decide_unpack _)).
  - by rewrite other_fields_cons.
Qed.

Lemma copy_fields_suffix N S E :
  (∀ kv, kv ∈ S → lookup_prop kv.1 N = Some kv.2) → NoDup S.*1 →
  (∀ k, k ∈ S.*1 → k ∉ rule_fields → k ∉ E.*1) →
  copy_fields N S.*1 E = E ++ copied_fields S.
Proof.
  revert E. induction S as [|[k v] S IH]; intros E Hlook Hnd HE.
  { simpl. by rewrite app_nil_r. }
  simpl in Hnd. apply NoDup_cons in Hnd as [Hk Hnd].
  rewrite copied_fields_cons. cbn [fmap list_fmap fst copy_fields].
  case_bool_decide as Hin.
  - apply IH; [|done|].
    + intros kv ?. apply Hlook. by right.
    + intros k' ?. apply HE. by right.
  - unfold assign_key. case_bool_decide as Hp.
    { apply IH; [|done|].
      + intros kv ?. apply Hlook. by right.
      + intros k' ?. apply HE. by right. }
    assert (get N k = v) as ->.
    { unfold get. specialize (Hlook (k, v)). simpl in Hlook.
      rewrite Hlook; [done|by left]. }
    rewrite set_prop_fresh.
    2:{ apply lookup_prop_None, HE; [by left|done]. }
    rewrite IH; [by rewrite <-app_assoc| |done|].
    + intros kv ?. apply Hlook. by right.
    + intros k' Hk' Hnot. rewrite fmap_app, elem_of_app. intros [?|Heq].
      * eapply HE; [by right|done..].
      * apply list_elem_of_singleton in Heq. simpl in Heq. by subst.
Qed.

Lemma copy_fields_closed N E :
  NoDup N.*1 → (∀ k, k ∈ E.*1 → k ∈ rule_fields) →
  copy_fields N N.*1 E = E ++ copied_fields N.
Proof.
  intros Hnd HE. apply copy_fields_suffix; [|done|].
  - intros [k v] ?. by apply lookup_prop_elem.
  - intros k _ Hnot Hin. by apply Hnot, HE.
Qed.

Lemma clone_props_app a b : clone_props (a ++ b) = clone_props a ++ clone_props b.
Proof.
  induction a as [|[k v] a IH]; [done|]. simpl app.
  rewrite !clone_props_cons, IH. by destruct (is_undefined v).
Qed.

Lemma other_fields_clone_props m :
  other_fields (clone_props m) = clone_props (other_fields m).
Proof.
  induction m as [|[k v] m IH]; [done|].
  rewrite clone_props_cons, other_fields_cons.
  destruct (is_undefined v) eqn:Hv.
  - case_bool_decide; [done|]. by rewrite clone_props_cons, Hv.
  - rewrite other_fields_cons. case_bool_decide; [done|].
    by rewrite clone_props_cons, Hv, IH.
Qed.

Lemma other_fields_app a b : other_fields (a ++ b) = other_fields a ++ other_fields b.
Proof. apply filter_app. Qed.

Lemma other_fields_fixed (f : string → value) l :
  (∀ k, k ∈ l → k ∈ rule_fields) → other_fields (map (λ k, (k, f k)) l) = [].
Proof.
  induction l as [|k l IH]; [done|]. intros Hl. simpl. rewrite other_fields_cons.
  rewrite bool_decide_eq_true_2 by (apply Hl; by left).
  apply IH. intros ??. apply Hl. by right.
Qed.

Lemma other_fields_idemp m : other_fields (other_fields m) = other_fields m.
Proof. unfold other_fields. by apply list_filter_filter_r. Qed.

Lemma other_fields_normalized m : other_fields (normalized_props m) = other_fields m.
Proof.
  unfold normalized_props.
  by rewrite other_fields_app, other_fields_fixed, other_fields_idemp.
Qed.

Lemma cleanArray_cleaned_list v :
  list_or_falsy v = true → cleanArray (js_or v (JArr [])) = Ok (cleaned_list v).
Proof.
  unfold list_or_falsy, cleaned_list, js_or.
  destruct v as [| |[]|[z| |]|s| |]; simpl; try done.
  - by destruct (Z.eqb z 0).
  - by destruct (bool_decide (s = "")).
Qed.

Lemma copied_idemp v : copied (copied v) = copied v.
Proof.
  unfold copied. destruct (is_undefined v) eqn:Hv; [done|].
  by rewrite clone_not_undefined, clone_idemp.
Qed.

Lemma list_or_falsy_copied v : list_or_falsy v = true → list_or_falsy (copied v) = true.
Proof. by destruct v as [| |[]|[z| |]|s| |]. Qed.

Lemma working_field_eq m k :
  NoDup m.*1 → k ∈ rule_fields →
  working_field m k = copied (normalized_field m k).
Proof.
  intros Hnd Hk. unfold working_field.
  rewrite get_clone_props by by apply normalized_props_NoDup.
  unfold get. rewrite lookup_normalized_props.
  by rewrite bool_decide_eq_true_2.
Qed.

Lemma match_fields_rule_fields k : k ∈ match_fields → k ∈ rule_fields.
Proof.
  unfold match_fields, rule_fields. rewrite !elem_of_cons. tauto.
Qed.

Lemma working_field_list_or_falsy m k :
  NoDup m.*1 → k ∈ match_fields → list_or_falsy (get m k) = true →
  list_or_falsy (working_field m k) = true.
Proof.
  intros Hnd Hk Hl. rewrite working_field_eq by auto using match_fields_rule_fields.
  apply list_or_falsy_copied. unfold normalized_field, get in *.
  destruct (lookup_prop k m); [done|]. unfold field_default.
  by rewrite bool_decide_eq_true_2.
Qed.

(** The fields that the export copies: [copied_fields]. *)
Lemma without_proto_keys m :
  (without_proto m).*1 = filter (λ k, k ≠ "__proto__") m.*1.
Proof.
  unfold without_proto. induction m as [|[k v] m IH]; [done|].
  rewrite fmap_cons, !filter_cons. simpl.
  destruct (decide (k ≠ "__proto__")); [|exact IH].
  rewrite fmap_cons. simpl. f_equal. exact IH.
Qed.

Lemma lookup_without_proto k m :
  lookup_prop k (without_proto m) =
  if bool_decide (k = "__proto__") then None else lookup_prop k m.
Proof.
  induction m as [|[k' v] m IH].
  - simpl. by case_bool_decide.
  - rewrite without_proto_cons. destruct (decide (k' = "__proto__")) as [Hk'|Hk'].
    + rewrite (bool_decide_eq_true_2 _ Hk'), IH. cbn [lookup_prop].
      repeat case_bool_decide; try done. by subst.
    + rewrite (bool_decide_eq_false_2 _ Hk'). cbn [lookup_prop]. rewrite IH.
      repeat case_bool_decide; try done. by subst.
Qed.

Lemma copied_fields_keys m :
  (copied_fields m).*1
  = filter (λ k, k ∉ rule_fields) (filter (λ k, k ≠ "__proto__") m.*1).
Proof. unfold copied_fields. by rewrite other_fields_keys, without_proto_keys. Qed.

Lemma lookup_copied_fields k m :
  lookup_prop k (copied_fields m) =
  if bool_decide (k ∈ rule_fields) then None
  else if bool_decide (k = "__proto__") then None else lookup_prop k m.
Proof. unfold copied_fields. by rewrite lookup_other_fields, lookup_without_proto. Qed.

Lemma without_proto_clone_props m :
  without_proto (clone_props m) = clone_props (without_proto m).
Proof.
  induction m as [|[k v] m IH]; [done|].
  rewrite clone_props_cons, without_proto_cons.
  destruct (is_undefined v) eqn:Hv.
  - case_bool_decide; [done|]. by rewrite clone_props_cons, Hv.
  - rewrite without_proto_cons. case_bool_decide; [done|].
    by rewrite clone_props_cons, Hv, IH.
Qed.

Lemma copied_fields_clone_props m :
  copied_fields (clone_props m) = clone_props (copied_fields m).
Proof.
  unfold copied_fields. by rewrite without_proto_clone_props, other_fields_clone_props.
Qed.

Lemma without_proto_app a b :
  without_proto (a ++ b) = without_proto a ++ without_proto b.
Proof. apply filter_app. Qed.

Lemma copied_fields_app a b :
  copied_fields (a ++ b) = copied_fields a ++ copied_fields b.
Proof. unfold copied_fields. by rewrite without_proto_app, other_fields_app. Qed.

Lemma copied_fields_fixed (f : string → value) l :
  (∀ k, k ∈ l → k ∈ rule_fields) → copied_fields (map (λ k, (k, f k)) l) = [].
Proof.
  induction l as [|k l IH]; [done|]. intros Hl. simpl. rewrite copied_fields_cons.
  rewrite bool_decide_eq_true_2 by (apply Hl; by left).
  apply IH. intros k' ?. apply Hl. by right.
Qed.

Lemma copied_fields_idemp m : copied_fields (copied_fields m) = copied_fields m.
Proof.
  induction m as [|[k v] m IH]; [done|]. rewrite copied_fields_cons.
  case_bool_decide as Hf; [done|]. case_bool_decide as Hp; [done|].
  rewrite copied_fields_cons. rewrite bool_decide_eq_false_2 by done.
  rewrite bool_decide_eq_false_2 by done. by rewrite IH.
Qed.

Lemma copied_fields_other m : copied_fields (other_fields m) = copied_fields m.
Proof.
  induction m as [|[k v] m IH]; [done|].
  rewrite other_fields_cons, copied_fields_cons.
  case_bool_decide as Hf; [done|]. rewrite copied_fields_cons.
  rewrite bool_decide_eq_false_2 by done. case_bool_decide; [done|]. by rewrite IH.
Qed.

Lemma copied_fields_normalized m :
  copied_fields (normalized_props m) = copied_fields m.
Proof.
  unfold normalized_props.
  by rewrite copied_fields_app, copied_fields_fixed, copied_fields_other.
Qed.

Lemma exported_fixed_keys m k :
  k ∈ (emitted_fields m
         (cleaned_list (get m "matchManagers"))
         (cleaned_list (get m "matchDatasources"))
         (cleaned_list (get m "matchFileNames"))
         (cleaned_list (get m "matchUpdateTypes"))
         (cleaned_list (get m "matchDepTypes"))).*1 →
  k ∈ rule_fields.
Proof.
  rewrite emitted_fields_flat, !fmap_app, !elem_of_app.
  intros [Hk|[Hk|[Hk|[Hk|[Hk|[Hk|[Hk|[Hk|Hk]]]]]]]];
    apply emit_keys in Hk as ->; unfold rule_fields; repeat constructor.
Qed.

Lemma clean_rule_closed N :
  NoDup N.*1 → Forall (λ k, list_or_falsy (get N k) = true) match_fields →
  clean_rule (JObj N) =
  Ok (JObj (emitted_fields N
              (cleaned_list (get N "matchManagers"))
              (cleaned_list (get N "matchDatasources"))
              (cleaned_list (get N "matchFileNames"))
              (cleaned_list (get N "matchUpdateTypes"))
              (cleaned_list (get N "matchDepTypes"))
            ++ copied_fields N)).
Proof.
  intros Hnd Hall. rewrite clean_rule_obj.
  repeat (apply Forall_cons in Hall as [?%cleanArray_cleaned_list Hall]).
  repeat match goal with H : cleanArray _ = Ok _ |- _ => rewrite H; clear H end.
  cbn [mbind result_bind]. do 2 f_equal.
  apply copy_fields_closed; [done|]. apply exported_fixed_keys.
Qed.

Lemma exported_props_eq m :
  emitted_fields (clone_props (normalized_props m))
    (cleaned_list (get (clone_props (normalized_props m)) "matchManagers"))
    (cleaned_list (get (clone_props (normalized_props m)) "matchDatasources"))
    (cleaned_list (get (clone_props (normalized_props m)) "matchFileNames"))
    (cleaned_list (get (clone_props (normalized_props m)) "matchUpdateTypes"))
    (cleaned_list (get (clone_props (normalized_props m)) "matchDepTypes"))
  ++ clone_props (copied_fields m)
  = exported_props m.
Proof.
  rewrite emitted_fields_flat. unfold exported_props, working_field.
  by rewrite <-!app_assoc.
Qed.

Lemma bind_Ok {A B} (a : A) (k : A → result B) : Ok a ≫= k = k a.
Proof. done. Qed.

Lemma working_field_unfold m k :
  working_field m k = get (clone_props (normalized_props m)) k.
Proof. reflexivity. Qed.

Lemma working_fields_list_or_falsy m :
  NoDup m.*1 → Forall (λ k, list_or_falsy (get m k) = true) match_fields →
  Forall (λ k, list_or_falsy (get (clone_props (normalized_props m)) k) = true)
    match_fields.
Proof.
  intros Hnd Hall. apply Forall_forall. intros k Hk.
  rewrite <-working_field_unfold.
  apply working_field_list_or_falsy; [done..|].
  rewrite Forall_forall in Hall. by apply Hall.
Qed.

Lemma export_load_rule_closed m :
  NoDup m.*1 → Forall (λ k, list_or_falsy (get m k) = true) match_fields →
  (n ← normalize_rule (JObj m); clean_rule (clone n))
  = Ok (JObj (exported_props m)).
Proof.
  intros Hnd Hall. rewrite normalize_rule_obj, bind_Ok, clone_obj by done.
  rewrite clean_rule_closed.
  - by rewrite copied_fields_clone_props, copied_fields_normalized, exported_props_eq.
  - by apply clone_props_NoDup, normalized_props_NoDup.
  - by apply working_fields_list_or_falsy.
Qed.
Lemma lookup_emit k c k' v :
  lookup_prop k (emit c k' v) = if c && bool_decide (k' = k) then Some v else None.
Proof. destruct c; simpl; [|done]. by case_bool_decide. Qed.

Lemma lookup_clone_copied_fields m k :
  k ∈ rule_fields → lookup_prop k (clone_props (copied_fields m)) = None.
Proof.
  intros Hk. apply lookup_prop_None. intros Hin%clone_props_keys_sub.
  rewrite copied_fields_keys in Hin. by apply list_elem_of_filter in Hin as [? _].
Qed.

(** Read one of the nine fields in an export. *)
Ltac lookup_exported :=
  unfold exported_props; cbv zeta;
  rewrite !lookup_prop_app, !lookup_emit;
  decide_keys; rewrite ?andb_false_r, ?andb_true_r;
  rewrite ?lookup_clone_copied_fields by (unfold rule_fields; repeat constructor);
  cbv iota;
  match goal with
  | |- context [if ?c then Some _ else None] => by destruct c
  end.

Lemma lookup_exported_groupName m :
  lookup_prop "groupName" (exported_props m) =
  if truthy (working_field m "groupName")
  then Some (working_field m "groupName") else None.
Proof. lookup_exported. Qed.

Lemma lookup_exported_matchCurrentVersion m :
  lookup_prop "matchCurrentVersion" (exported_props m) =
  if truthy (working_field m "matchCurrentVersion")
  then Some (working_field m "matchCurrentVersion") else None.
Proof. lookup_exported. Qed.

Lemma lookup_exported_automerge m :
  lookup_prop "automerge" (exported_props m) =
  if negb (is_undefined (working_field m "automerge"))
  then Some (working_field m "automerge") else None.
Proof. lookup_exported. Qed.

Lemma lookup_exported_automergeType m :
  lookup_prop "automergeType" (exported_props m) =
  if is_true (working_field m "automerge") && truthy (working_field m "automergeType")
  then Some (working_field m "automergeType") else None.
Proof. lookup_exported. Qed.

Lemma lookup_exported_list m k :
  k ∈ match_fields →
  lookup_prop k (exported_props m) =
  if nonempty (cleaned_list (working_field m k))
  then Some (JArr (cleaned_list (working_field m k))) else None.
Proof.
  unfold match_fields. intros Hk.
  repeat (apply elem_of_cons in Hk as [->|Hk]); [lookup_exported..|].
  by apply elem_of_nil in Hk.
Qed.

(** ** A second round on an export *)

Lemma emit_chain_NoDup (c1 c2 c3 c4 c5 c6 c7 c8 c9 : bool)
    (v1 v2 v3 v4 v5 v6 v7 v8 v9 : value) :
  NoDup (emit c1 "groupName" v1 ++ emit c2 "matchManagers" v2 ++
         emit c3 "matchDatasources" v3 ++ emit c4 "matchFileNames" v4 ++
         emit c5 "matchUpdateTypes" v5 ++ emit c6 "matchDepTypes" v6 ++
         emit c7 "matchCurrentVersion" v7 ++ emit c8 "automerge" v8 ++
         emit c9 "automergeType" v9).*1.
Proof.
  destruct c1, c2, c3, c4, c5, c6, c7, c8, c9;
    apply (bool_decide_unpack _); vm_compute; reflexivity.
Qed.

Lemma emit_chain_keys (c1 c2 c3 c4 c5 c6 c7 c8 c9 : bool)
    (v1 v2 v3 v4 v5 v6 v7 v8 v9 : value) k :
  k ∈ (emit c1 "groupName" v1 ++ emit c2 "matchManagers" v2 ++
       emit c3 "matchDatasources" v3 ++ emit c4 "matchFileNames" v4 ++
       emit c5 "matchUpdateTypes" v5 ++ emit c6 "matchDepTypes" v6 ++
       emit c7 "matchCurrentVersion" v7 ++ emit c8 "automerge" v8 ++
       emit c9 "automergeType" v9).*1 →
  k ∈ rule_fields.
Proof.
  rewrite !fmap_app, !elem_of_app.
  intros [Hk|[Hk|[Hk|[Hk|[Hk|[Hk|[Hk|[Hk|Hk]]]]]]]];
    apply emit_keys in Hk as ->; unfold rule_fields; repeat constructor.
Qed.

Lemma copied_fields_NoDup m : NoDup m.*1 → NoDup (copied_fields m).*1.
Proof. intros. rewrite copied_fields_keys. by apply NoDup_filter, NoDup_filter. Qed.

Lemma clone_copied_fields_not_fixed m k :
  k ∈ (clone_props (copied_fields m)).*1 → k ∉ rule_fields.
Proof.
  intros Hin%clone_props_keys_sub. rewrite copied_fields_keys in Hin.
  by apply list_elem_of_filter in Hin as [? _].
Qed.

Lemma exported_props_NoDup m : NoDup m.*1 → NoDup (exported_props m).*1.
Proof.
  intros Hnd. unfold exported_props. cbv zeta.
  rewrite !app_assoc, fmap_app. apply NoDup_app. split_and!.
  - rewrite <-!app_assoc. apply emit_chain_NoDup.
  - rewrite <-!app_assoc. intros k Hk%emit_chain_keys Hk'.
    by apply clone_copied_fields_not_fixed in Hk'.
  - by apply clone_props_NoDup, copied_fields_NoDup.
Qed.

Lemma clone_props_idemp m : clone_props (clone_props m) = clone_props m.
Proof.
  pose proof (clone_idemp (JObj m)) as H. rewrite !clone_obj in H. congruence.
Qed.

Lemma copied_fields_emit c k v : k ∈ rule_fields → copied_fields (emit c k v) = [].
Proof.
  intros Hk. destruct c; [|done]. unfold emit. rewrite copied_fields_cons.
  by rewrite bool_decide_eq_true_2.
Qed.

Lemma copied_fields_clone_other m :
  copied_fields (clone_props (copied_fields m)) = clone_props (copied_fields m).
Proof. by rewrite copied_fields_clone_props, copied_fields_idemp. Qed.

Lemma copied_fields_exported m :
  copied_fields (exported_props m) = clone_props (copied_fields m).
Proof.
  unfold exported_props. cbv zeta. rewrite !copied_fields_app.
  rewrite !copied_fields_emit by (unfold rule_fields; repeat constructor).
  by rewrite copied_fields_clone_other.
Qed.

Lemma copied_working_field m k :
  NoDup m.*1 → k ∈ rule_fields → copied (working_field m k) = working_field m k.
Proof. intros. rewrite working_field_eq by done. apply copied_idemp. Qed.

Lemma second_round_string w :
  copied w = w →
  let w2 := copied (if truthy w then w else JStr "") in
  (truthy w2, w2) = (truthy w, w) ∨ (truthy w2 = false ∧ truthy w = false).
Proof.
  intros Hw. cbv zeta. destruct (truthy w) eqn:Ht.
  - left. by rewrite Hw, Ht.
  - right. done.
Qed.

Lemma emit_second_round_string w k :
  copied w = w →
  emit (truthy (copied (if truthy w then w else JStr ""))) k
    (copied (if truthy w then w else JStr ""))
  = emit (truthy w) k w.
Proof.
  intros Hw. destruct (second_round_string w Hw) as [[= -> ->]|[-> ->]]; done.
Qed.

Lemma keep_filter_idemp (l : list value) :
  filter (λ w, Is_true (keep_item w)) (filter (λ w, Is_true (keep_item w)) l)
  = filter (λ w, Is_true (keep_item w)) l.
Proof. by apply list_filter_filter_r. Qed.

Lemma cleaned_list_copied w :
  copied w = w → map clone (cleaned_list w) = cleaned_list w.
Proof.
  intros Hw. unfold cleaned_list, js_or.
  destruct w as [| |[]|[z| |]|s|items|]; try done; simpl.
  - by destruct (Z.eqb z 0).
  - by destruct (bool_decide (s = "")).
  - injection Hw as Hitems.
    assert (Forall (λ e, clone e = e) items) as Hall.
    { clear -Hitems. induction items as [|e items IH]; [done|].
      injection Hitems as He Hitems. constructor; auto. }
    clear Hitems. induction Hall as [|e items He _ IH]; [done|].
    rewrite filter_cons. destruct (decide _); simpl; [by rewrite He, IH|done].
Qed.

Lemma cleaned_list_second_round w :
  copied w = w →
  cleaned_list
    (copied (if nonempty (cleaned_list w) then JArr (cleaned_list w) else JArr []))
  = cleaned_list w.
Proof.
  intros Hw.
  assert ((if nonempty (cleaned_list w) then JArr (cleaned_list w) else JArr [])
          = JArr (cleaned_list w)) as ->.
  { by destruct (cleaned_list w). }
  unfold copied. simpl. rewrite cleaned_list_copied by done.
  unfold cleaned_list at 1. simpl.
  unfold cleaned_list, js_or.
  destruct (truthy w); [|done]. destruct w; try done. apply keep_filter_idemp.
Qed.

Lemma second_round_automerge w :
  copied w = w → copied (if negb (is_undefined w) then w else JUndef) = w.
Proof. intros Hw. by destruct w. Qed.

Lemma emit_second_round_type wa wt k :
  copied wt = wt → (is_true wa = true → truthy wt = true) →
  emit (is_true wa &&
        truthy (copied (if is_true wa && truthy wt then wt else JStr "branch"))) k
    (copied (if is_true wa && truthy wt then wt else JStr "branch"))
  = emit (is_true wa && truthy wt) k wt.
Proof.
  intros Hw Ht. destruct (is_true wa); [|done].
  rewrite Ht by done. simpl. by rewrite Hw, Ht.
Qed.

Section second_round.
Context (m : list (string * value)) (Hnd : NoDup m.*1).

#[local] Abbreviation w := (working_field m).
#[local] Abbreviation R := (exported_props m).

Lemma working_exported_groupName :
  working_field R "groupName"
  = copied (if truthy (w "groupName") then w "groupName" else JStr "").
Proof.
  rewrite working_field_eq;
    [|by apply exported_props_NoDup|unfold rule_fields; repeat constructor].
  unfold normalized_field. rewrite lookup_exported_groupName.
  by destruct (truthy _).
Qed.

Lemma working_exported_matchCurrentVersion :
  working_field R "matchCurrentVersion"
  = copied (if truthy (w "matchCurrentVersion")
            then w "matchCurrentVersion" else JStr "").
Proof.
  rewrite working_field_eq;
    [|by apply exported_props_NoDup|unfold rule_fields; repeat constructor].
  unfold normalized_field. rewrite lookup_exported_matchCurrentVersion.
  by destruct (truthy _).
Qed.

Lemma working_exported_automerge :
  working_field R "automerge"
  = copied (if negb (is_undefined (w "automerge")) then w "automerge" else JUndef).
Proof.
  rewrite working_field_eq;
    [|by apply exported_props_NoDup|unfold rule_fields; repeat constructor].
  unfold normalized_field. rewrite lookup_exported_automerge.
  by destruct (negb _).
Qed.

Lemma working_exported_automergeType :
  working_field R "automergeType"
  = copied (if is_true (w "automerge") && truthy (w "automergeType")
            then w "automergeType" else JStr "branch").
Proof.
  rewrite working_field_eq;
    [|by apply exported_props_NoDup|unfold rule_fields; repeat constructor].
  unfold normalized_field. rewrite lookup_exported_automergeType.
  by destruct (_ && _).
Qed.

Lemma working_exported_list k :
  k ∈ match_fields →
  working_field R k
  = copied (if nonempty (cleaned_list (w k)) then JArr (cleaned_list (w k))
            else JArr []).
Proof.
  intros Hk. rewrite working_field_eq;
    [|by apply exported_props_NoDup|by apply match_fields_rule_fields].
  unfold normalized_field. rewrite lookup_exported_list by done.
  destruct (nonempty _); [done|]. unfold field_default.
  by rewrite bool_decide_eq_true_2.
Qed.

Lemma cleaned_exported_list k :
  k ∈ match_fields → cleaned_list (working_field R k) = cleaned_list (w k).
Proof.
  intros Hk. rewrite working_exported_list by done.
  apply cleaned_list_second_round, copied_working_field; [done|].
  by apply match_fields_rule_fields.
Qed.

(** A rule whose [automerge] is [true] has a truthy [automergeType] in
    the working document. *)
Context (Htype : is_true (w "automerge") = true →
                 truthy (w "automergeType") = true).

Lemma exported_props_idemp : exported_props R = R.
Proof.
  unfold exported_props at 1. cbv zeta.
  rewrite !cleaned_exported_list by (unfold match_fields; repeat constructor).
  rewrite working_exported_groupName, working_exported_matchCurrentVersion.
  rewrite working_exported_automergeType, working_exported_automerge.
  rewrite !emit_second_round_string
    by (apply copied_working_field; [done|unfold rule_fields; repeat constructor]).
  rewrite second_round_automerge
    by (apply copied_working_field; [done|unfold rule_fields; repeat constructor]).
  rewrite emit_second_round_type;
    [|apply copied_working_field; [done|unfold rule_fields; repeat constructor]
     |done].
  rewrite copied_fields_exported, clone_props_idemp.
  unfold exported_props. reflexivity.
Qed.
End second_round.

Lemma exported_list_or_falsy m :
  Forall (λ k, list_or_falsy (get (exported_props m) k) = true) match_fields.
Proof.
  apply Forall_forall. intros k Hk. unfold get.
  rewrite lookup_exported_list by done. by destruct (nonempty _).
Qed.

Lemma clone_props_emit c k v :
  (c = true → is_undefined v = false ∧ clone v = v) →
  clone_props (emit c k v) = emit c k v.
Proof.
  destruct c; [|done]. intros [Hu Hc]; [done|]. unfold emit.
  by rewrite clone_props_cons, Hu, Hc.
Qed.

Lemma copied_defined v :
  copied v = v → is_undefined v = false → clone v = v.
Proof. unfold copied. intros Hv Hu. by rewrite Hu in Hv. Qed.

Lemma truthy_defined v : truthy v = true → is_undefined v = false.
Proof. by destruct v. Qed.

Lemma clone_props_exported m :
  NoDup m.*1 → clone_props (exported_props m) = exported_props m.
Proof.
  intros Hnd.
  assert (∀ k, k ∈ rule_fields → copied (working_field m k) = working_field m k)
    as Hw by (intros; by apply copied_working_field).
  assert (∀ k, k ∈ match_fields →
            clone (JArr (cleaned_list (working_field m k)))
            = JArr (cleaned_list (working_field m k))) as Hl.
  { intros k Hk. simpl. f_equal. apply cleaned_list_copied, Hw.
    by apply match_fields_rule_fields. }
  unfold exported_props. cbv zeta. rewrite !clone_props_app, clone_props_idemp.
  rewrite !clone_props_emit; [done|..].
  - intros [_ Ht%truthy_defined]%andb_true_iff. split; [done|].
    apply copied_defined; [apply Hw; unfold rule_fields; repeat constructor|done].
  - intros Hu%negb_true_iff. split; [done|].
    apply copied_defined; [apply Hw; unfold rule_fields; repeat constructor|done].
  - intros Ht%truthy_defined. split; [done|].
    apply copied_defined; [apply Hw; unfold rule_fields; repeat constructor|done].
  - intros _. split; [done|]. apply Hl. unfold match_fields; repeat constructor.
  - intros _. split; [done|]. apply Hl. unfold match_fields; repeat constructor.
  - intros _. split; [done|]. apply Hl. unfold match_fields; repeat constructor.
  - intros _. split; [done|]. apply Hl. unfold match_fields; repeat constructor.
  - intros _. split; [done|]. apply Hl. unfold match_fields; repeat constructor.
  - intros Ht%truthy_defined. split; [done|].
    apply copied_defined; [apply Hw; unfold rule_fields; repeat constructor|done].
Qed.

(** ** Export after Load, twice *)

Lemma export_load_rule_obj m0 :
  loadable_rule (clone_props m0) →
  export_load_rule (JObj m0) = Ok (JObj (exported_props (clone_props m0))).
Proof.
  intros (Hnd & Hall & _). unfold export_load_rule. rewrite clone_obj.
  by apply export_load_rule_closed.
Qed.

Lemma export_load_rule_fixed m :
  loadable_rule m →
  export_load_rule (JObj (exported_props m)) = Ok (JObj (exported_props m)).
Proof.
  intros (Hnd & Hall & Htype). unfold export_load_rule.
  rewrite clone_obj, clone_props_exported by done.
  rewrite export_load_rule_closed.
  - by rewrite exported_props_idemp.
  - by apply exported_props_NoDup.
  - apply exported_list_or_falsy.
Qed.

Lemma typed_rule_inv rule :
  typed_rule rule = true →
  ∃ m, rule = JObj m ∧ NoDup m.*1 ∧
    Forall (λ k, absent_or is_string_list (lookup_prop k m) = true) match_fields ∧
    absent_or is_automerge_type (lookup_prop "automergeType" m) = true.
Proof.
  destruct rule as [| | | | | |m]; try done. unfold typed_rule.
  rewrite !andb_true_iff. intros [[[[[Hnd _] Hl] _] _] Ht].
  exists m. split; [done|]. split; [by apply bool_decide_eq_true in Hnd|].
  split; [|done]. cbn [forallb match_fields] in Hl.
  rewrite !andb_true_iff in Hl. destruct Hl as (?&?&?&?&?&_).
  unfold match_fields. by repeat constructor.
Qed.

Lemma typed_rule_loadable m :
  typed_rule (JObj m) = true → loadable_rule (clone_props m).
Proof.
  intros (m' & [= <-] & Hnd & Hl & Ht)%typed_rule_inv.
  assert (NoDup (clone_props m).*1) as Hnd' by by apply clone_props_NoDup.
  split; [done|]. split.
  - eapply Forall_impl; [exact Hl|]. intros k Hk. cbv beta in Hk.
    rewrite get_clone_props by done. unfold get.
    destruct (lookup_prop k m) as [[]|]; done.
  - intros _. rewrite working_field_eq;
      [|done|unfold rule_fields; repeat constructor].
    unfold normalized_field. rewrite lookup_clone_props by done.
    destruct (lookup_prop "automergeType" m) as [[| | | |s| |]|]; try done.
    simpl in Ht. simpl.
    by destruct (orb_prop _ _ Ht) as [->%bool_decide_eq_true| ->%bool_decide_eq_true].
Qed.

Lemma clone_props_defined ps :
  Forall (λ kv, is_undefined kv.2 = false) (clone_props ps).
Proof.
  induction ps as [|[k v] ps IH]; [by constructor|].
  rewrite clone_props_cons. destruct (is_undefined v) eqn:Hv; [done|].
  constructor; [apply clone_not_undefined | done].
Qed.

Lemma clone_props_set_prop k v ps :
  is_undefined v = false → Forall (λ kv, is_undefined kv.2 = false) ps →
  clone_props (set_prop k v ps) = set_prop k (clone v) (clone_props ps).
Proof.
  intros Hv. induction 1 as [|[k' v'] ps Hv' _ IH]; simpl in *.
  - by rewrite clone_props_cons, Hv.
  - case_bool_decide.
    + rewrite !clone_props_cons, Hv, Hv'. simpl.
      by rewrite bool_decide_eq_true_2.
    + rewrite !clone_props_cons, Hv', IH. simpl.
      by rewrite bool_decide_eq_false_2.
Qed.

Lemma lookup_clone_props_None k ps :
  lookup_prop k ps = None → lookup_prop k (clone_props ps) = None.
Proof.
  rewrite !lookup_prop_None. intros Hk Hin. by apply clone_props_keys_sub in Hin.
Qed.

Lemma normalize_no_rules ps :
  lookup_prop "packageRules" ps = None →
  normalize (JObj ps) = Ok (JObj (clone_props ps)).
Proof.
  intros Hk%lookup_clone_props_None. unfold normalize, json_roundtrip.
  rewrite clone_obj, bind_Ok, get_prop_obj, bind_Ok. unfold get. by rewrite Hk.
Qed.

Lemma cleanConfig_no_rules ps :
  lookup_prop "packageRules" ps = None →
  cleanConfig (JObj ps) = Ok (JObj (clone_props ps)).
Proof.
  intros Hk%lookup_clone_props_None. unfold cleanConfig, json_roundtrip.
  rewrite clone_obj, bind_Ok, get_prop_obj, bind_Ok. unfold get. by rewrite Hk.
Qed.

Lemma normalize_rules ps rules :
  lookup_prop "packageRules" ps = Some (JArr rules) →
  normalize (JObj ps) =
  (normalized ← map_result normalize_rule (map clone rules);
   Ok (JObj (set_prop "packageRules" (JArr normalized) (clone_props ps)))).
Proof.
  intros Hpr. unfold normalize, json_roundtrip.
  rewrite clone_obj, bind_Ok, get_prop_obj, bind_Ok. unfold get.
  rewrite (lookup_clone_props_defined _ _ _ Hpr) by done.
  cbn [default clone truthy js_map id mbind result_bind].
  by destruct (map_result normalize_rule _).
Qed.

Lemma export_load_rules_list rules cleaned :
  Forall2 (λ r c, export_load_rule r = Ok c) rules cleaned →
  ∃ normalized,
    map_result normalize_rule (map clone rules) = Ok normalized ∧
    map_result clean_rule (map clone normalized) = Ok cleaned.
Proof.
  induction 1 as [|r c rules cleaned Hrc _ (normalized & Hn & Hc)].
  - by exists [].
  - unfold export_load_rule in Hrc.
    destruct (normalize_rule (clone r)) as [n| | |] eqn:Hr; try done.
    rewrite bind_Ok in Hrc. exists (n :: normalized).
    cbn [map map_result]. by rewrite Hr, bind_Ok, Hn, bind_Ok, Hrc, bind_Ok, Hc.
Qed.

Lemma export_load_rules ps rules cleaned :
  lookup_prop "packageRules" ps = Some (JArr rules) →
  Forall2 (λ r c, export_load_rule r = Ok c) rules cleaned →
  export_load (JObj ps)
  = Ok (JObj (set_prop "packageRules" (JArr cleaned) (clone_props ps))).
Proof.
  intros Hpr (normalized & Hn & Hc)%export_load_rules_list.
  unfold export_load. rewrite (normalize_rules _ _ Hpr), Hn, !bind_Ok.
  rewrite (cleanConfig_rules _ normalized) by apply lookup_set_prop_eq.
  rewrite Hc, bind_Ok. do 2 f_equal.
  rewrite clone_props_set_prop by (done || apply clone_props_defined).
  by rewrite set_prop_twice, clone_props_idemp.
Qed.

Lemma typed_rules_round rules :
  forallb typed_rule rules = true →
  ∃ cleaned,
    Forall2 (λ r c, export_load_rule r = Ok c) rules cleaned ∧
    Forall2 (λ r c, export_load_rule r = Ok c) cleaned cleaned ∧
    map clone cleaned = cleaned.
Proof.
  induction rules as [|r rules IH]; [by exists []|].
  cbn [forallb]. intros [Hr Hrules]%andb_true_iff.
  destruct (IH Hrules) as (cleaned & H1 & H2 & H3).
  destruct r as [| | | | | |m]; try done.
  pose proof (typed_rule_loadable m Hr) as Hload.
  exists (JObj (exported_props (clone_props m)) :: cleaned). split_and!.
  - constructor; [by apply export_load_rule_obj | done].
  - constructor; [by apply export_load_rule_fixed | done].
  - cbn [map]. rewrite H3, clone_obj, clone_props_exported; [done|].
    by destruct Hload.
Qed.

Lemma typed_config_round d :
  typed_config d = true →
  ∃ exported, export_load d = Ok exported ∧ export_load exported = Ok exported.
Proof.
  destruct d as [| | | | | |ps]; try done. unfold typed_config.
  destruct (lookup_prop "packageRules" ps) as [[| | | | |rules|]|] eqn:Hpr;
    try done.
  - intros (cleaned & H1 & H2 & H3)%typed_rules_round.
    exists (JObj (set_prop "packageRules" (JArr cleaned) (clone_props ps))).
    split; [by apply (export_load_rules ps rules)|].
    rewrite (export_load_rules
               (set_prop "packageRules" (JArr cleaned) (clone_props ps))
               cleaned cleaned);
      [|apply lookup_set_prop_eq|done].
    do 2 f_equal.
    rewrite clone_props_set_prop by (done || apply clone_props_defined).
    by rewrite set_prop_twice, clone_props_idemp.
  - intros _. exists (JObj (clone_props ps)).
    assert (∀ qs, lookup_prop "packageRules" qs = None →
              export_load (JObj qs) = Ok (JObj (clone_props qs))) as Hno.
    { intros qs Hq. unfold export_load.
      rewrite normalize_no_rules, bind_Ok by done.
      rewrite cleanConfig_no_rules by by apply lookup_clone_props_None.
      by rewrite clone_props_idemp. }
    split; [by apply Hno|].
    rewrite Hno by by apply lookup_clone_props_None.
    by rewrite clone_props_idemp.
Qed.

Lemma load_normalize stringify e d n :
  normalize d = Ok n →
  load stringify e d = (Editor n (viewMode e) (stringify n), Ok ()).
Proof.
  intros Hn. unfold load. rewrite Hn.
  destruct d; try done.
Qed.

(** C1: for every configuration document, as [RenovateConfig] types it,
    Load followed by Export returns a document, and loading that document
    and exporting again returns the same document. *)
Theorem export_load_idempotent
    (JSON_stringify : value → string) (e : editor) (d : value) :
  typed_config d = true →
  ∃ exported : value,
    let e1 := (load JSON_stringify e d).1 in
    (load JSON_stringify e d).2 = Ok () ∧
    cleanConfig (editableConfig e1) = Ok exported ∧
    let e2 := (load JSON_stringify e1 exported).1 in
    (load JSON_stringify e1 exported).2 = Ok () ∧
    cleanConfig (editableConfig e2) = Ok exported.
Proof.
  intros (exported & H1 & H2)%typed_config_round. exists exported.
  unfold export_load in H1, H2.
  destruct (normalize d) as [n1| | |] eqn:Hn1; try done.
  destruct (normalize exported) as [n2| | |] eqn:Hn2; try done.
  rewrite bind_Ok in H1, H2. cbv zeta.
  rewrite (load_normalize _ _ _ _ Hn1). cbn [fst snd editableConfig].
  rewrite (load_normalize _ _ _ _ Hn2). cbn [fst snd editableConfig].
  done.
Qed.

Lemma export_load_idempotent_witness :
  ∃ exported : value,
    let e1 := (load no_text empty_editor sample_config).1 in
    (load no_text empty_editor sample_config).2 = Ok () ∧
    cleanConfig (editableConfig e1) = Ok exported ∧
    let e2 := (load no_text e1 exported).1 in
    (load no_text e1 exported).2 = Ok () ∧
    cleanConfig (editableConfig e2) = Ok exported.
Proof. apply export_load_idempotent. vm_compute. reflexivity. Defined.

Example export_load_sample :
  export_load sample_config
  = Ok (JObj [("extends", JArr [JStr "config:recommended"]);
              ("packageRules", JArr
                 [JObj [("matchManagers", JArr [JStr "npm"]);
                        ("automerge", JBool true);
                        ("automergeType", JStr "branch");
                        ("rangeStrategy", JStr "pin")];
                  JObj [("automerge", JBool false)]])]).
Proof. vm_compute. reflexivity. Qed.

(** Outside the typing the second round can differ: an empty
    [automergeType] is dropped by the first export and comes back as
    ["branch"] in the second. *)
Example export_load_empty_automergeType :
  let d := JObj [("packageRules", JArr
             [JObj [("automerge", JBool true); ("automergeType", JStr "")]])] in
  typed_config d = false ∧
  export_load d
  = Ok (JObj [("packageRules", JArr [JObj [("automerge", JBool true)]])]) ∧
  export_load (JObj [("packageRules", JArr [JObj [("automerge", JBool true)]])])
  = Ok (JObj [("packageRules", JArr
          [JObj [("automerge", JBool true); ("automergeType", JStr "branch")]])]).
Proof. vm_compute. done. Qed.

(** ** The store: what Load, Export and the edits touch *)

Section safe.
Import Store.
Context (n : nat).
Implicit Types (h : heap) (v : rvalue) (c : cell) (l : loc).

Lemma frame_refl h : frame n h h.
Proof. by intros l. Qed.

Lemma frame_trans h1 h2 h3 : frame n h1 h2 → frame n h2 h3 → frame n h1 h3.
Proof. intros H12 H23 l Hl. by rewrite H23, H12. Qed.

Lemma safe_ret {A} (a : A) (Q : A → Prop) : Q a → safe n (mret a) Q.
Proof.
  intros HQ h Hsep. split_and!; [apply frame_refl | done |].
  by intros a' [= <-].
Qed.

Lemma safe_throw {A} (e : result A) (Q : A → Prop) :
  (∀ a, e = Ok a → Q a) → safe n (throw e) Q.
Proof. intros HQ h Hsep. split_and!; [apply frame_refl | done | done]. Qed.

Lemma safe_bind {A B} (m : M A) (k : A → M B) (P : A → Prop) (Q : B → Prop) :
  safe n m P → (∀ a, P a → safe n (k a) Q) → safe n (m ≫= k) Q.
Proof.
  intros Hm Hk h Hsep. destruct (Hm h Hsep) as (Hf & Hs & HP).
  unfold mbind, M_bind. destruct (m h) as [[a| | |] h1] eqn:Hmh; simpl in *;
    try done.
  destruct (Hk a (HP a eq_refl) h1 Hs) as (Hf' & Hs' & HQ).
  split_and!; [by eapply frame_trans | done | done].
Qed.

Lemma safe_weaken {A} (m : M A) (P Q : A → Prop) :
  safe n m P → (∀ a, P a → Q a) → safe n m Q.
Proof.
  intros Hm HPQ h Hsep. destruct (Hm h Hsep) as (Hf & Hs & HP).
  split_and!; auto.
Qed.

Lemma safe_alloc c : cell_above n c → safe n (alloc c) (above n).
Proof.
  intros Hc h [Hlen Hcl]. unfold alloc. simpl. split_and!.
  - intros l Hl. apply lookup_app_l. lia.
  - split; [rewrite length_app; lia|].
    intros l c' Hl. destruct (decide (l < length h)) as [Hlt|Hge].
    + rewrite lookup_app_l by done. by apply Hcl.
    + rewrite lookup_app_r by lia. destruct (l - length h) as [|i]; simpl.
      * by intros [= <-].
      * by rewrite lookup_nil.
  - intros a [= <-]. done.
Qed.

Lemma safe_read l : (n ≤ l)%nat → safe n (read l) (cell_above n).
Proof.
  intros Hl h [Hlen Hcl]. unfold read.
  destruct (h !! l) as [c|] eqn:Hc; simpl.
  - split_and!; [apply frame_refl | done |]. intros a [= <-]. exact (Hcl l c Hl Hc).
  - split_and!; [apply frame_refl | done | done].
Qed.

Lemma safe_write l c : (n ≤ l)%nat → cell_above n c → safe n (write l c) (λ _, True).
Proof.
  intros Hl Hc h [Hlen Hcl]. unfold write. simpl. split_and!; [| |done].
  - intros l' Hl'. apply list_lookup_insert_ne. lia.
  - split; [by rewrite length_insert|]. intros l' c' Hl'.
    destruct (decide (l = l')) as [<-|Hne].
    + destruct (decide (l < length h)).
      * rewrite list_lookup_insert_eq by done. by intros [= <-].
      * rewrite list_insert_ge by lia. by apply Hcl.
    + rewrite list_lookup_insert_ne by done. by apply Hcl.
Qed.

(** A computation that only looks at the store. *)
Lemma safe_pure {A} (f : heap → result A) :
  safe n (λ h, (f h, h)) (λ _, True).
Proof. intros h Hsep. split_and!; [apply frame_refl | done | done]. Qed.

Lemma above_lookup_prop k ps :
  Forall (λ kv : string * rvalue, above n kv.2) ps →
  above n (default RUndef (lookup_prop k ps)).
Proof.
  induction 1 as [|[k' v'] ps Hv _ IH]; simpl; [done|]. by case_bool_decide.
Qed.

Lemma above_get_indexed k items :
  Forall (above n) items → above n (get_indexed k items).
Proof.
  intros Hall. unfold get_indexed. case_bool_decide; [done|].
  destruct (find_index _ _ _) as [i|]; [|done].
  destruct (items !! i) as [v|] eqn:Hi; [|done]. simpl.
  by eapply Forall_lookup_1 in Hall.
Qed.

Lemma above_set_prop k v ps :
  above n v → Forall (λ kv : string * rvalue, above n kv.2) ps →
  Forall (λ kv : string * rvalue, above n kv.2) (set_prop k v ps).
Proof.
  intros Hv. induction 1 as [|[k' v'] ps Hv' Hps IH]; simpl.
  - by constructor.
  - case_bool_decide; by constructor.
Qed.

Lemma above_delete_prop k ps :
  Forall (λ kv : string * rvalue, above n kv.2) ps →
  Forall (λ kv : string * rvalue, above n kv.2) (delete_prop k ps).
Proof.
  induction 1 as [|[k' v'] ps Hv' Hps IH]; simpl; [done|].
  case_bool_decide; [done | by constructor].
Qed.

Lemma above_assign_all o ps :
  Forall (λ kv : string * rvalue, above n kv.2) o →
  Forall (λ kv : string * rvalue, above n kv.2) ps →
  Forall (λ kv : string * rvalue, above n kv.2) (assign_all o ps).
Proof.
  intros Ho Hps. revert o Ho. unfold assign_all.
  induction Hps as [|[k v] ps Hv _ IH]; intros o Ho; simpl; [done|].
  apply IH. by apply above_set_prop.
Qed.

Lemma above_indexed items :
  Forall (above n) items →
  Forall (λ kv : string * rvalue, above n kv.2) (indexed items).
Proof.
  unfold indexed. intros Hall. apply Forall_forall. intros [k v] Hin.
  apply list_elem_of_lookup in Hin as [i Hi].
  apply list_lookup_imap_Some in Hi as (v' & Hv' & [= _ <-]).
  by eapply Forall_lookup_1 in Hall.
Qed.

Lemma above_chars s : Forall (above n) (chars s).
Proof. unfold chars. induction s; by constructor. Qed.

Lemma safe_get_prop v k : above n v → safe n (get_prop v k) (above n).
Proof.
  intros Hv. destruct v as [| | | |s|l]; simpl;
    try (by apply safe_throw); try (by apply safe_ret).
  - apply safe_ret. apply above_get_indexed, above_chars.
  - eapply safe_bind; [by apply safe_read|]. intros [items|ps] Hc.
    + apply safe_ret. by apply above_get_indexed.
    + apply safe_ret. by apply above_lookup_prop.
Qed.

Lemma safe_assign o k v :
  above n o → above n v → safe n (assign o k v) (λ _, True).
Proof.
  intros Ho Hv. destruct o as [| | | |s|l]; simpl; try (by apply safe_throw).
  eapply safe_bind; [by apply safe_read|]. intros [items|ps] Hc.
  - destruct (find_index _ _ _) as [i|]; [|by apply safe_throw].
    apply safe_write; [done|]. simpl in *. by apply Forall_insert.
  - apply safe_write; [done|]. by apply above_set_prop.
Qed.

Lemma safe_delete_field o k : above n o → safe n (delete_field o k) (λ _, True).
Proof.
  intros Ho. destruct o as [| | | |s|l]; simpl;
    try (by apply safe_throw); try (by apply safe_ret).
  eapply safe_bind; [by apply safe_read|]. intros [items|ps] Hc.
  - by apply safe_throw.
  - apply safe_write; [done|]. by apply above_delete_prop.
Qed.

Lemma safe_own_props v :
  above n v →
  safe n (own_props v) (Forall (λ kv : string * rvalue, above n kv.2)).
Proof.
  intros Hv. destruct v as [| | | |s|l]; simpl; try (by apply safe_ret).
  - apply safe_ret. apply above_indexed, above_chars.
  - eapply safe_bind; [by apply safe_read|]. intros [items|ps] Hc.
    + apply safe_ret. by apply above_indexed.
    + by apply safe_ret.
Qed.

Lemma safe_array_items a : above n a → safe n (array_items a) (Forall (above n)).
Proof.
  intros Ha. destruct a as [| | | |s|l]; simpl; try (by apply safe_throw).
  eapply safe_bind; [by apply safe_read|]. intros [items|ps] Hc.
  - by apply safe_ret.
  - by apply safe_throw.
Qed.

Lemma safe_if_array v (m : M ()) :
  above n v → safe n m (λ _, True) → safe n (if_array v m) (λ _, True).
Proof.
  intros Hv Hm. unfold if_array. eapply safe_bind with (P := λ _, True).
  - destruct v as [| | | |s|l]; simpl; try (by apply safe_ret).
    eapply safe_bind; [by apply safe_read|]. intros c _. by apply safe_ret.
  - intros [] _; [done | by apply safe_ret].
Qed.

Lemma safe_mapM (f : rvalue → M rvalue) items :
  (∀ v, above n v → safe n (f v) (above n)) →
  Forall (above n) items → safe n (mapM f items) (Forall (above n)).
Proof.
  intros Hf. induction 1 as [|v items Hv _ IH]; simpl.
  - by apply safe_ret.
  - eapply safe_bind; [by apply Hf|]. intros w Hw.
    eapply safe_bind; [exact IH|]. intros ws Hws. apply safe_ret.
    by constructor.
Qed.

Lemma safe_js_map (f : rvalue → M rvalue) a :
  (∀ v, above n v → safe n (f v) (above n)) →
  above n a → safe n (js_map f a) (above n).
Proof.
  intros Hf Ha. unfold js_map.
  eapply safe_bind; [by apply safe_array_items|]. intros items Hitems.
  eapply safe_bind; [by apply safe_mapM|]. intros items' Hitems'.
  by apply safe_alloc.
Qed.

Lemma safe_js_push a x : above n a → above n x → safe n (js_push a x) (λ _, True).
Proof.
  intros Ha Hx. destruct a as [| | | |s|l]; simpl; try (by apply safe_throw).
  eapply safe_bind; [by apply safe_read|]. intros [items|ps] Hc.
  - apply safe_write; [done|]. simpl in *. apply Forall_app. split; [done|].
    by constructor.
  - by apply safe_throw.
Qed.

Lemma safe_js_splice1 a index : above n a → safe n (js_splice1 a index) (λ _, True).
Proof.
  intros Ha. destruct a as [| | | |s|l]; simpl; try (by apply safe_throw).
  eapply safe_bind; [by apply safe_read|]. intros [items|ps] Hc.
  - apply safe_write; [done|]. simpl in *. by apply Forall_delete.
  - by apply safe_throw.
Qed.

Lemma safe_or_else a (b : M rvalue) :
  above n a → safe n b (above n) → safe n (or_else a b) (above n).
Proof. intros Ha Hb. unfold or_else. destruct (truthy a); [by apply safe_ret|done]. Qed.
End safe.

Create HintDb safe discriminated.
#[global] Hint Resolve safe_get_prop safe_assign safe_delete_field safe_own_props
  safe_array_items safe_if_array safe_js_map safe_js_push safe_js_splice1
  safe_or_else safe_alloc safe_read safe_write : safe.
#[global] Hint Extern 1 (Store.above _ _) => exact I : safe.
#[global] Hint Extern 1 (Store.cell_above _ _) => by repeat constructor : safe.

(** Walk through a statement sequence, one bind at a time. *)
Ltac safe_steps :=
  repeat first
    [ apply safe_ret
    | apply safe_throw; done
    | eapply safe_bind; [solve [eauto with safe] | intros ? ?]
    | match goal with
      | |- Store.safe _ (if ?b then _ else _) _ => destruct b
      end ];
  eauto with safe.

Section safe_functions.
Import Store.
Context (n : nat).

Lemma safe_alloc_tree t : safe n (alloc_tree t) (above n).
Proof.
  induction t as [| | | | |items IH|props IH] using value_ind;
    try (by apply safe_ret).
  - cbn [alloc_tree].
    eapply safe_bind with (P := Forall (above n)); [|intros; by apply safe_alloc].
    induction IH as [|t items Ht _ IHl]; [by apply safe_ret|].
    eapply safe_bind; [exact Ht|]. intros v Hv.
    eapply safe_bind; [exact IHl|]. intros vs Hvs. apply safe_ret. by constructor.
  - cbn [alloc_tree].
    eapply safe_bind with (P := Forall (λ kv : string * rvalue, above n kv.2));
      [|intros; by apply safe_alloc].
    induction IH as [|[k t] props Ht _ IHl]; [by apply safe_ret|].
    eapply safe_bind; [exact Ht|]. intros v Hv.
    eapply safe_bind; [exact IHl|]. intros vs Hvs. apply safe_ret. by constructor.
Qed.

Lemma safe_deep_copy fuel v : safe n (deep_copy fuel v) (above n).
Proof.
  unfold deep_copy. eapply safe_bind; [apply safe_pure|]. intros t _.
  eapply safe_bind with (P := λ _, True); [by apply safe_throw|]. intros t' _.
  apply safe_alloc_tree.
Qed.

Lemma safe_normalize_rule rule :
  above n rule → safe n (normalize_rule rule) (above n).
Proof.
  intros Hrule. unfold normalize_rule. safe_steps.
  apply safe_alloc. apply above_assign_all; [|done].
  repeat (constructor; [by repeat case_match|]). constructor.
Qed.

Lemma safe_load stringify fuel e newConfig :
  safe n (load stringify fuel e newConfig) (λ e', above n (editableConfig e')).
Proof.
  unfold load. eapply safe_bind; [apply safe_deep_copy|]. intros config Hconfig.
  eapply safe_bind; [by apply safe_get_prop|]. intros packageRules Hpr.
  eapply safe_bind with (P := λ _, True).
  - destruct (truthy packageRules); [|by apply safe_ret].
    eapply safe_bind; [apply safe_js_map; [apply safe_normalize_rule | done]|].
    intros rules Hrules. by apply safe_assign.
  - intros _ _. unfold updateJsonText.
    eapply safe_bind; [apply safe_pure|]. intros t _. by apply safe_ret.
Qed.

Lemma safe_cleanArray arr :
  above n arr →
  safe n (cleanArray arr) (λ r, above n r.1 ∧ Forall (above n) r.2).
Proof.
  intros Harr. unfold cleanArray.
  eapply safe_bind; [by apply safe_array_items|]. intros items Hitems.
  assert (Forall (above n) (filter (λ v, Is_true (keep_item v)) items)) as Hkept.
  { apply Forall_forall. intros v [_ Hin]%list_elem_of_filter.
    by eapply Forall_forall in Hitems. }
  eapply safe_bind; [by apply safe_alloc|]. intros a Ha. by apply safe_ret.
Qed.

Lemma safe_assign_if c o k v :
  above n o → above n v → safe n (assign_if c o k v) (λ _, True).
Proof. intros. destruct c; [by apply safe_assign | by apply safe_ret]. Qed.

Lemma safe_copy_other_fields rule cleanedRule keys :
  above n rule → above n cleanedRule →
  safe n (copy_other_fields rule cleanedRule keys) (λ _, True).
Proof.
  intros Hr Hc. induction keys as [|key keys IH]; [by apply safe_ret|].
  cbn [copy_other_fields]. eapply safe_bind with (P := λ _, True); [|done].
  case_bool_decide; [by apply safe_ret|].
  eapply safe_bind; [by apply safe_get_prop|]. intros v Hv.
  case_bool_decide; [by apply safe_ret | by apply safe_assign].
Qed.

Lemma safe_clean_rule rule : above n rule → safe n (clean_rule rule) (above n).
Proof.
  intros Hrule. unfold clean_rule.
  eapply safe_bind; [apply safe_alloc; constructor|]. intros cleanedRule Hc.
  repeat first
    [ eapply safe_bind; [by apply safe_get_prop|]; intros ? ?
    | eapply safe_bind;
        [apply safe_or_else; [done | apply safe_alloc; constructor]|]; intros ? ?
    | eapply safe_bind; [by apply safe_cleanArray|]; intros [??] [??]
    | eapply safe_bind; [by apply safe_assign_if|]; intros _ _
    | eapply safe_bind; [by apply safe_own_props|]; intros ? ?
    | eapply safe_bind; [by apply safe_copy_other_fields|]; intros _ _ ].
  by apply safe_ret.
Qed.

Lemma safe_cleanConfig fuel config : safe n (cleanConfig fuel config) (above n).
Proof.
  unfold cleanConfig. eapply safe_bind; [apply safe_deep_copy|].
  intros cleaned Hcleaned.
  eapply safe_bind; [by apply safe_get_prop|]. intros packageRules Hpr.
  eapply safe_bind with (P := λ _, True); [|intros; by apply safe_ret].
  destruct (truthy packageRules); [|by apply safe_ret].
  eapply safe_bind; [apply safe_js_map; [apply safe_clean_rule | done]|].
  intros rules Hrules. by apply safe_assign.
Qed.
End safe_functions.

Section safe_edits.
Import Store.
Context (n : nat) (config : rvalue) (Hconfig : above n config).

Lemma safe_alloc_empty_array : safe n (alloc (CArr [])) (above n).
Proof. apply safe_alloc. constructor. Qed.

Lemma safe_alloc_empty_object : safe n (alloc (CObj [])) (above n).
Proof. apply safe_alloc. constructor. Qed.

Lemma safe_addToArray key : safe n (addToArray config key) (λ _, True).
Proof.
  unfold addToArray. destruct (includes_dot key).
  - destruct (_ || _); [by apply safe_ret|].
    eapply safe_bind; [by apply safe_get_prop|]. intros p Hp.
    eapply safe_bind with (P := λ _, True).
    { destruct (truthy p); [by apply safe_ret|].
      eapply safe_bind; [apply safe_alloc_empty_object|]. intros o Ho.
      by apply safe_assign. }
    intros _ _. eapply safe_bind; [by apply safe_get_prop|]. intros parentVal Hpv.
    eapply safe_bind; [by apply safe_get_prop|]. intros c Hc.
    eapply safe_bind with (P := λ _, True).
    { destruct (truthy c); [by apply safe_ret|].
      eapply safe_bind; [apply safe_alloc_empty_array|]. intros a Ha.
      by apply safe_assign. }
    intros _ _. eapply safe_bind; [by apply safe_get_prop|]. intros c' Hc'.
    by apply safe_js_push.
  - eapply safe_bind; [by apply safe_get_prop|]. intros prop Hprop.
    eapply safe_bind with (P := λ _, True).
    { destruct (is_undefined prop); [|by apply safe_ret].
      eapply safe_bind; [apply safe_alloc_empty_array|]. intros a Ha.
      by apply safe_assign. }
    intros _ _. eapply safe_bind; [by apply safe_get_prop|]. intros arrayProp Ha.
    apply safe_if_array; [done|]. by apply safe_js_push.
Qed.

Lemma safe_removeFromArray key index :
  safe n (removeFromArray config key index) (λ _, True).
Proof.
  unfold removeFromArray. destruct (includes_dot key).
  - destruct (_ || _); [by apply safe_ret|].
    eapply safe_bind; [by apply safe_get_prop|]. intros parentVal Hpv.
    destruct (truthy parentVal); [|by apply safe_ret].
    eapply safe_bind; [by apply safe_get_prop|]. intros c Hc.
    apply safe_if_array; [done|]. by apply safe_js_splice1.
  - eapply safe_bind; [by apply safe_get_prop|]. intros prop Hprop.
    apply safe_if_array; [done|]. by apply safe_js_splice1.
Qed.

Lemma safe_addPackageRule : safe n (addPackageRule config) (λ _, True).
Proof.
  unfold addPackageRule.
  eapply safe_bind; [by apply safe_get_prop|]. intros pr Hpr.
  eapply safe_bind with (P := λ _, True).
  { destruct (truthy pr); [by apply safe_ret|].
    eapply safe_bind; [apply safe_alloc_empty_array|]. intros a Ha.
    by apply safe_assign. }
  intros _ _. eapply safe_bind; [by apply safe_get_prop|]. intros pr' Hpr'.
  do 5 (eapply safe_bind; [apply safe_alloc_empty_array|]; intros ? ?).
  eapply safe_bind; [apply safe_alloc; by repeat constructor|]. intros rule Hr.
  by apply safe_js_push.
Qed.

Lemma safe_removePackageRule index :
  safe n (removePackageRule config index) (λ _, True).
Proof.
  unfold removePackageRule.
  eapply safe_bind; [by apply safe_get_prop|]. intros pr Hpr.
  destruct pr; try (by apply safe_ret); by apply safe_js_splice1.
Qed.

Lemma safe_rule_at ruleIndex :
  safe n (rule_at config ruleIndex)
    (λ r, match r with Some rule => above n rule | None => True end).
Proof.
  unfold rule_at. eapply safe_bind; [by apply safe_get_prop|]. intros pr Hpr.
  destruct (truthy pr); [|by apply safe_ret].
  eapply safe_bind; [by apply safe_get_prop|]. intros rule Hrule.
  destruct (truthy rule); [|by apply safe_ret].
  eapply safe_bind; [by apply safe_get_prop|]. intros rule' Hrule'.
  by apply safe_ret.
Qed.

Lemma safe_addToPackageRuleArray ruleIndex key :
  safe n (addToPackageRuleArray config ruleIndex key) (λ _, True).
Proof.
  unfold addToPackageRuleArray. eapply safe_bind; [apply safe_rule_at|].
  intros [rule|] Hrule; [|by apply safe_ret].
  eapply safe_bind; [by apply safe_get_prop|]. intros v Hv.
  eapply safe_bind with (P := λ _, True).
  { destruct (truthy v); [by apply safe_ret|].
    eapply safe_bind; [apply safe_alloc_empty_array|]. intros a Ha.
    by apply safe_assign. }
  intros _ _. eapply safe_bind; [by apply safe_get_prop|]. intros arrayProp Ha.
  apply safe_if_array; [done|]. by apply safe_js_push.
Qed.

Lemma safe_removeFromPackageRuleArray ruleIndex key itemIndex :
  safe n (removeFromPackageRuleArray config ruleIndex key itemIndex) (λ _, True).
Proof.
  unfold removeFromPackageRuleArray. eapply safe_bind; [apply safe_rule_at|].
  intros [rule|] Hrule; [|by apply safe_ret].
  eapply safe_bind; [by apply safe_get_prop|]. intros arrayProp Ha.
  apply safe_if_array; [done|]. by apply safe_js_splice1.
Qed.

Lemma safe_addManagerConfiguration newManager :
  safe n (addManagerConfiguration config newManager) (λ _, True).
Proof.
  unfold addManagerConfiguration. case_bool_decide; [by apply safe_ret|].
  eapply safe_bind; [by apply safe_get_prop|]. intros existing He.
  destruct (truthy existing); [by apply safe_ret|].
  eapply safe_bind; [apply safe_alloc_empty_array|]. intros a Ha.
  eapply safe_bind; [apply safe_alloc; by repeat constructor|]. intros o Ho.
  by apply safe_assign.
Qed.

Lemma safe_follow v path : above n v → safe n (follow v path) (above n).
Proof.
  revert v. induction path as [|k path IH]; intros v Hv; [by apply safe_ret|].
  cbn [follow]. eapply safe_bind; [by apply safe_get_prop|]. intros w Hw.
  by apply IH.
Qed.

Lemma safe_setField path key p : safe n (setField config path key p) (λ _, True).
Proof.
  unfold setField. eapply safe_bind; [by apply safe_follow|]. intros o Ho.
  apply safe_assign; [done|]. by destruct p.
Qed.

Lemma safe_run_edit e : safe n (run_edit e config) (above n).
Proof.
  destruct e; cbn [run_edit];
    try (eapply safe_bind with (P := λ _, True); [|intros; by apply safe_ret]).
  - apply safe_addToArray.
  - apply safe_removeFromArray.
  - apply safe_addPackageRule.
  - apply safe_removePackageRule.
  - apply safe_addToPackageRuleArray.
  - apply safe_removeFromPackageRuleArray.
  - apply safe_addManagerConfiguration.
  - by apply safe_delete_field.
  - apply safe_setField.
  - apply safe_alloc_tree.
Qed.
End safe_edits.

Lemma safe_run_edits n es config h :
  Store.above n config → Store.sep n h →
  Store.frame n h (Store.run_edits es config h).2 ∧
  Store.sep n (Store.run_edits es config h).2 ∧
  Store.above n (Store.run_edits es config h).1.
Proof.
  revert config h. induction es as [|e es IH]; intros config h Hc Hsep.
  { split_and!; [apply frame_refl | done | done]. }
  cbn [Store.run_edits].
  destruct (safe_run_edit n config Hc e h Hsep) as (Hf & Hs & Ha).
  destruct (Store.run_edit e config h) as [[config'| | |] h'] eqn:He;
    cbn [fst snd] in *.
  - destruct (IH config' h' (Ha _ eq_refl) Hs) as (Hf' & Hs' & Ha').
    split_and!; [by eapply frame_trans | done | done].
  - destruct (IH config h' Hc Hs) as (Hf' & Hs' & Ha').
    split_and!; [by eapply frame_trans | done | done].
  - destruct (IH config h' Hc Hs) as (Hf' & Hs' & Ha').
    split_and!; [by eapply frame_trans | done | done].
  - destruct (IH config h' Hc Hs) as (Hf' & Hs' & Ha').
    split_and!; [by eapply frame_trans | done | done].
Qed.

Lemma sep_end (h : list Store.cell) : Store.sep (length h) h.
Proof.
  split; [done|]. intros l c Hl Hc. apply lookup_lt_Some in Hc. lia.
Qed.

(** ** Documents in the store *)

Section rep_ind.
Import Store.
Context (P : loc → Prop) (h : heap) (Q : rvalue → value → Prop).
Hypothesis Hundef : Q RUndef JUndef.
Hypothesis Hnull : Q RNull JNull.
Hypothesis Hbool : ∀ b, Q (RBool b) (JBool b).
Hypothesis Hnum : ∀ n, Q (RNum n) (JNum n).
Hypothesis Hstr : ∀ s, Q (RStr s) (JStr s).
Hypothesis Harr : ∀ l items ts,
  P l → h !! l = Some (CArr items) →
  Forall2 (rep P h) items ts → Forall2 Q items ts → Q (RRef l) (JArr ts).
Hypothesis Hobj : ∀ l ps ts,
  P l → h !! l = Some (CObj ps) →
  rep_props P h ps ts →
  Forall2 (λ p q, p.1 = q.1 ∧ Q p.2 q.2) ps ts → Q (RRef l) (JObj ts).

Fixpoint rep_ind (v : rvalue) (t : value) (H : rep P h v t) {struct H} : Q v t :=
  match H with
  | rep_undef _ _ => Hundef
  | rep_null _ _ => Hnull
  | rep_bool _ _ b => Hbool b
  | rep_num _ _ n => Hnum n
  | rep_str _ _ s => Hstr s
  | rep_arr _ _ l items ts Hl Hc Hall =>
      Harr l items ts Hl Hc Hall
        ((fix go items ts (H : Forall2 (rep P h) items ts) {struct H}
            : Forall2 Q items ts :=
            match H with
            | List.Forall2_nil _ => List.Forall2_nil _
            | @List.Forall2_cons _ _ _ x y l l' Hxy Hl =>
                @List.Forall2_cons _ _ _ x y l l' (rep_ind _ _ Hxy) (go _ _ Hl)
            end) items ts Hall)
  | rep_obj _ _ l ps ts Hl Hc Hall =>
      Hobj l ps ts Hl Hc Hall
        ((fix go ps ts
            (H : Forall2 (λ p q, p.1 = q.1 ∧ rep P h p.2 q.2) ps ts) {struct H}
            : Forall2 (λ p q, p.1 = q.1 ∧ Q p.2 q.2) ps ts :=
            match H with
            | List.Forall2_nil _ => List.Forall2_nil _
            | @List.Forall2_cons _ _ _ x y l l' Hxy Hl =>
                @List.Forall2_cons _ _ _ x y l l'
                  (match Hxy with conj Hk Hr => conj Hk (rep_ind _ _ Hr) end)
                  (go _ _ Hl)
            end) ps ts Hall)
  end.
End rep_ind.

Section rep_facts.
Import Store.
Implicit Types (P Q : loc → Prop) (h : heap) (v : rvalue) (t : value).

Lemma rep_mono P Q h v t : (∀ l, P l → Q l) → rep P h v t → rep Q h v t.
Proof.
  intros HPQ. induction 1 as [| | | | |l items ts Hl Hc _ IH|l ps ts Hl Hc _ IH]
    using rep_ind; try by constructor.
  - eapply rep_arr; [by apply HPQ | done | done].
  - eapply rep_obj; [by apply HPQ | done | done].
Qed.

(** A document only depends on the cells that hold it. *)
Lemma rep_frame P h h' v t :
  (∀ l, P l → l < length h → h' !! l = h !! l) → rep P h v t → rep P h' v t.
Proof.
  intros Hf. induction 1 as [| | | | |l items ts Hl Hc _ IH|l ps ts Hl Hc _ IH]
    using rep_ind; try by constructor.
  - eapply rep_arr; [done | | done].
    rewrite Hf; [done..|]. by eapply lookup_lt_Some.
  - eapply rep_obj; [done | | done].
    rewrite Hf; [done..|]. by eapply lookup_lt_Some.
Qed.

Lemma rep_app P h k v t : rep P h v t → rep P (h ++ k) v t.
Proof.
  apply rep_frame. intros l _ Hl. by apply lookup_app_l.
Qed.

Lemma rep_props_mono P Q h ps ts :
  (∀ l, P l → Q l) → rep_props P h ps ts → rep_props Q h ps ts.
Proof.
  intros HPQ Hps. eapply Forall2_impl; [exact Hps|]. intros p q [? ?].
  split; [done|]. by eapply rep_mono.
Qed.

Lemma rep_props_frame P h h' ps ts :
  (∀ l, P l → l < length h → h' !! l = h !! l) →
  rep_props P h ps ts → rep_props P h' ps ts.
Proof.
  intros Hf Hps. eapply Forall2_impl; [exact Hps|]. intros p q [? ?].
  split; [done|]. by eapply rep_frame.
Qed.

Lemma rep_list_frame P h h' vs ts :
  (∀ l, P l → l < length h → h' !! l = h !! l) →
  Forall2 (rep P h) vs ts → Forall2 (rep P h') vs ts.
Proof.
  intros Hf Hvs. eapply Forall2_impl; [exact Hvs|]. intros. by eapply rep_frame.
Qed.
End rep_facts.

Lemma M_bind_ok {A B} (m : Store.M A) (k : A → Store.M B) h a h' :
  m h = (Ok a, h') → (m ≫= k) h = k a h'.
Proof. intros Hm. unfold mbind, Store.M_bind. by rewrite Hm. Qed.

Section tree_store.
Import Store.
Implicit Types (P : loc → Prop) (h k : heap) (v : rvalue) (t : value).

Lemma map_result_ok {A B} (f : A → result B) (R : A → B → Prop) l l' :
  Forall2 (λ a b, f a = Ok b) l l' → map_result f l = Ok l'.
Proof.
  induction 1 as [|a b l l' Hab _ IH]; [done|].
  cbn [map_result]. by rewrite Hab, bind_Ok, IH.
Qed.

Lemma depth_arr_item t ts fuel :
  t ∈ ts → depth (JArr ts) < S fuel → depth t < fuel.
Proof.
  cbn [depth]. induction 1 as [t ts|t t' ts _ IH]; cbn [foldr]; lia.
Qed.

Lemma depth_obj_item (kt : string * value) ts fuel :
  kt ∈ ts → depth (JObj ts) < S fuel → depth kt.2 < fuel.
Proof.
  cbn [depth]. induction 1 as [t ts|t t' ts _ IH]; cbn [foldr]; lia.
Qed.

(** [JSON.stringify] sees the document. *)
Lemma read_tree_rep P h v t fuel :
  rep P h v t → depth t < fuel → read_tree fuel h v = Ok t.
Proof.
  intros Hrep. revert fuel.
  induction Hrep as [| | | | |l items ts Hl Hc _ IH|l ps ts Hl Hc _ IH]
    using rep_ind; intros fuel Hfuel; try by destruct fuel.
  - destruct fuel as [|fuel]; [cbn [depth] in Hfuel; lia|].
    cbn [read_tree]. rewrite Hc.
    rewrite (map_result_ok _ (λ _ _, True) items ts); [done|].
    clear Hc. induction IH as [|w t items ts Hwt _ IHl]; constructor.
    + apply Hwt. eapply depth_arr_item; [|done]. by left.
    + apply IHl. cbn [depth foldr] in *. lia.
  - destruct fuel as [|fuel]; [cbn [depth] in Hfuel; lia|].
    cbn [read_tree]. rewrite Hc.
    rewrite (map_result_ok _ (λ _ _, True) ps ts); [done|].
    clear Hc. induction IH as [|[k w] [k' t] ps ts [Hk Hwt] _ IHl]; constructor.
    + simpl in *. subst k'. rewrite Hwt; [by rewrite bind_Ok|].
      lia.
    + apply IHl. simpl in *. lia.
Qed.

Lemma alloc_list_rep items :
  Forall (λ t, ∀ h, ∃ v k, alloc_tree t h = (Ok v, h ++ k) ∧
            rep (between (length h) (length h + length k)) (h ++ k) v t) items →
  ∀ h, ∃ vs k,
    (fix go (ts : list value) : M (list rvalue) :=
       match ts with
       | [] => mret []
       | t :: ts' => v ← alloc_tree t; vs ← go ts'; mret (v :: vs)
       end) items h = (Ok vs, h ++ k) ∧
    Forall2 (rep (between (length h) (length h + length k)) (h ++ k)) vs items.
Proof.
  induction 1 as [|t items Ht _ IH]; intros h.
  - exists [], []. rewrite app_nil_r. by split; [|constructor].
  - destruct (Ht h) as (v & k1 & Hv & Hrv).
    destruct (IH (h ++ k1)) as (vs & k2 & Hvs & Hrvs).
    exists (v :: vs), (k1 ++ k2).
    rewrite (M_bind_ok _ _ _ _ _ Hv), (M_bind_ok _ _ _ _ _ Hvs). unfold mret, M_ret. rewrite <- (assoc_L (++)). split; [done|].
    rewrite length_app in *. constructor.
    + rewrite (assoc_L (++)). apply rep_app. eapply rep_mono; [|exact Hrv].
      unfold between. intros; lia.
    + rewrite (assoc_L (++)). eapply Forall2_impl; [exact Hrvs|]. intros w t' Hw.
      eapply rep_mono; [|exact Hw]. unfold between. intros; lia.
Qed.

Lemma alloc_props_rep props :
  Forall (λ kt : string * value, ∀ h, ∃ v k, alloc_tree kt.2 h = (Ok v, h ++ k) ∧
            rep (between (length h) (length h + length k)) (h ++ k) v kt.2) props →
  ∀ h, ∃ ps k,
    (fix go (ts : list (string * value)) : M (list (string * rvalue)) :=
       match ts with
       | [] => mret []
       | (k, t) :: ts' => v ← alloc_tree t; ps ← go ts'; mret ((k, v) :: ps)
       end) props h = (Ok ps, h ++ k) ∧
    rep_props (between (length h) (length h + length k)) (h ++ k) ps props.
Proof.
  induction 1 as [|[key t] props Ht _ IH]; intros h.
  - exists [], []. rewrite app_nil_r. by split; [|constructor].
  - destruct (Ht h) as (v & k1 & Hv & Hrv). simpl in Hv, Hrv.
    destruct (IH (h ++ k1)) as (ps & k2 & Hps & Hrps).
    exists ((key, v) :: ps), (k1 ++ k2).
    rewrite (M_bind_ok _ _ _ _ _ Hv), (M_bind_ok _ _ _ _ _ Hps). unfold mret, M_ret. rewrite <- (assoc_L (++)). split; [done|].
    rewrite length_app in *. constructor.
    + split; [done|]. simpl.
      rewrite (assoc_L (++)). apply rep_app. eapply rep_mono; [|exact Hrv].
      unfold between. intros; lia.
    + rewrite (assoc_L (++)). eapply rep_props_mono; [|exact Hrps].
      unfold between. intros; lia.
Qed.

(** [JSON.parse] builds the document in new cells. *)
Lemma alloc_tree_rep t h :
  ∃ v k, alloc_tree t h = (Ok v, h ++ k) ∧
         rep (between (length h) (length h + length k)) (h ++ k) v t.
Proof.
  revert h. induction t as [| | | | |items IH|props IH] using value_ind; intros h.
  1-5: by (eexists _, []; rewrite app_nil_r; split; [reflexivity|constructor]).
  - destruct (alloc_list_rep items IH h) as (vs & k & Hvs & Hr).
    exists (RRef (length (h ++ k))), (k ++ [CArr vs]).
    cbn [alloc_tree]. rewrite (M_bind_ok _ _ _ _ _ Hvs). unfold alloc.
    rewrite <- (assoc_L (++)). split; [done|].
    rewrite !length_app. simpl. eapply rep_arr.
    + unfold between. lia.
    + rewrite (assoc_L (++)). apply list_lookup_middle. by rewrite length_app.
    + rewrite (assoc_L (++)). eapply Forall2_impl; [exact Hr|]. intros w t' Hw.
      apply rep_app. eapply rep_mono; [|exact Hw]. unfold between. intros; lia.
  - destruct (alloc_props_rep props IH h) as (ps & k & Hps & Hr).
    exists (RRef (length (h ++ k))), (k ++ [CObj ps]).
    cbn [alloc_tree]. rewrite (M_bind_ok _ _ _ _ _ Hps). unfold alloc.
    rewrite <- (assoc_L (++)). split; [done|].
    rewrite !length_app. simpl. eapply rep_obj.
    + unfold between. lia.
    + rewrite (assoc_L (++)). apply list_lookup_middle. by rewrite length_app.
    + rewrite (assoc_L (++)). eapply Forall2_impl; [exact Hr|]. intros w t' [? Hw].
      split; [done|].
      apply rep_app. eapply rep_mono; [|exact Hw]. unfold between. intros; lia.
Qed.
End tree_store.

(** ** The store against the tree *)

Section store_tree.
Context (Q : Store.loc → Prop).
Implicit Types (h k : list Store.cell) (v : Store.rvalue) (t : value).

Lemma res_rel_impl {A B} (R R' : A → B → Prop) r r' :
  (∀ a b, R a b → R' a b) → Store.res_rel R r r' → Store.res_rel R' r r'.
Proof. intros HR. destruct r, r'; simpl; auto. Qed.

Lemma preserved_refl h : Store.preserved Q h h.
Proof. by split. Qed.

Lemma preserved_trans h1 h2 h3 :
  Store.preserved Q h1 h2 → Store.preserved Q h2 h3 → Store.preserved Q h1 h3.
Proof.
  intros [Hl12 H12] [Hl23 H23]. split; [lia|]. intros l HQ Hl.
  rewrite H23, H12; [done..|lia].
Qed.

Lemma preserved_app h k : Store.preserved Q h (h ++ k).
Proof.
  split; [rewrite length_app; lia|]. intros l _ Hl. by apply lookup_app_l.
Qed.

Lemma fresh_preserved h h' :
  Store.fresh Q h → Store.preserved Q h h' → Store.fresh Q h'.
Proof. intros Hf [Hl _] l ?. apply Hf. lia. Qed.

Lemma fresh_app h k : Store.fresh Q h → Store.fresh Q (h ++ k).
Proof. intros Hf. eapply fresh_preserved; [done|apply preserved_app]. Qed.

Lemma rep_preserved h h' v t :
  Store.preserved Q h h' → Store.rep Q h v t → Store.rep Q h' v t.
Proof. intros [_ Hp]. by apply rep_frame. Qed.

Lemma stable_rep v t : Store.stable Q (λ h, Store.rep Q h v t).
Proof. intros h h' H Hp. by eapply rep_preserved. Qed.

Lemma stable_rep_props ps ts : Store.stable Q (λ h, Store.rep_props Q h ps ts).
Proof. intros h h' H [_ Hp]. by eapply rep_props_frame. Qed.

Lemma stable_rep_list vs ts : Store.stable Q (λ h, Forall2 (Store.rep Q h) vs ts).
Proof. intros h h' H [_ Hp]. by eapply rep_list_frame. Qed.

Lemma stable_and (F G : list Store.cell → Prop) :
  Store.stable Q F → Store.stable Q G → Store.stable Q (λ h, F h ∧ G h).
Proof. intros HF HG h h' [??] Hp. split; [by eapply HF | by eapply HG]. Qed.

Lemma stable_pure (φ : Prop) : Store.stable Q (λ _, φ).
Proof. by intros h h' H _. Qed.

(** *** Values *)

Lemma truthy_rep h v t : Store.rep Q h v t → Store.truthy v = truthy t.
Proof. by destruct 1. Qed.

Lemma is_undefined_rep h v t :
  Store.rep Q h v t → Store.is_undefined v = is_undefined t.
Proof. by destruct 1. Qed.

Lemma is_true_rep h v t : Store.rep Q h v t → Store.is_true v = is_true t.
Proof. by destruct 1. Qed.

Lemma keep_item_rep h v t : Store.rep Q h v t → Store.keep_item v = keep_item t.
Proof. by destruct 1. Qed.

Lemma rep_props_keys h ps ts : Store.rep_props Q h ps ts → ps.*1 = ts.*1.
Proof.
  induction 1 as [|[k v] [k' t] ps ts [Hk _] _ IH]; [done|].
  rewrite !fmap_cons. simpl in Hk. by rewrite Hk, IH.
Qed.

Lemma rep_props_lookup h ps ts key :
  Store.rep_props Q h ps ts →
  Store.rep Q h (default Store.RUndef (lookup_prop key ps))
                (default JUndef (lookup_prop key ts)).
Proof.
  induction 1 as [|[k v] [k' t] ps ts [Hk Hv] _ IH]; simpl in *.
  - constructor.
  - subst k'. by case_bool_decide.
Qed.

Lemma rep_props_set_prop h ps ts key v t :
  Store.rep_props Q h ps ts → Store.rep Q h v t →
  Store.rep_props Q h (set_prop key v ps) (set_prop key t ts).
Proof.
  intros Hps Hv. induction Hps as [|[k w] [k' u] ps ts [Hk Hw] Hps IH]; simpl in *.
  - by repeat constructor.
  - subst k'. case_bool_decide; by constructor.
Qed.

Lemma rep_props_assign_all h lit lit' ps ts :
  Store.rep_props Q h lit lit' → Store.rep_props Q h ps ts →
  Store.rep_props Q h (assign_all lit ps) (assign_all lit' ts).
Proof.
  intros Hlit Hps. revert lit lit' Hlit.
  induction Hps as [|[k w] [k' u] ps ts [Hk Hw] Hps IH]; intros lit lit' Hlit;
    [done|].
  simpl in *. subst k'. apply IH. by apply rep_props_set_prop.
Qed.

Lemma rep_chars h s : Forall2 (Store.rep Q h) (Store.chars s) (chars s).
Proof. induction s as [|c s IH]; simpl; constructor; [constructor | done]. Qed.

Lemma rep_get_indexed h key items ts :
  Forall2 (Store.rep Q h) items ts →
  Store.rep Q h (Store.get_indexed key items) (get_indexed key ts).
Proof.
  intros Hi. unfold Store.get_indexed, get_indexed.
  rewrite (Forall2_length _ _ _ Hi). case_bool_decide; [constructor|].
  destruct (find_index _ _ _) as [i|]; [|constructor].
  destruct (items !! i) as [v|] eqn:Hv.
  - destruct (Forall2_lookup_l _ _ _ _ _ Hi Hv) as (t & -> & Ht). done.
  - apply lookup_ge_None in Hv. rewrite (Forall2_length _ _ _ Hi) in Hv.
    apply lookup_ge_None in Hv. rewrite Hv. constructor.
Qed.

Lemma rep_indexed h items ts :
  Forall2 (Store.rep Q h) items ts →
  Store.rep_props Q h (Store.indexed items) (indexed ts).
Proof.
  unfold Store.indexed, indexed. generalize index_key.
  intros f Hi. revert f. induction Hi as [|v t items ts Hv _ IH]; intros f;
    [constructor|].
  simpl. constructor; [done|]. apply (IH (f ∘ S)).
Qed.
End store_tree.

Section op_rules.
Context (Q : Store.loc → Prop).
Implicit Types (h k : list Store.cell) (v : Store.rvalue) (t : value).
Implicit Types (Pre : list Store.cell → Prop).

Lemma M_bind_unfold {A B} (m : Store.M A) (f : A → Store.M B) h :
  (m ≫= f) h =
  match m h with
  | (Ok a, h') => f a h'
  | (TypeError, h') => (TypeError, h')
  | (SyntaxError, h') => (SyntaxError, h')
  | (OutOfModel, h') => (OutOfModel, h')
  end.
Proof. done. Qed.

Lemma op_pre {A B} Pre Pre' (m : Store.M A) (r : result B) R :
  (∀ h, Pre' h → Pre h) → Store.op Q Pre m r R → Store.op Q Pre' m r R.
Proof. intros HP Hm h Hh Hf. apply Hm; auto. Qed.

Lemma op_post {A B} Pre (m : Store.M A) (r : result B)
  (R R' : A → B → list Store.cell → Prop) :
  (∀ a b h, R a b h → R' a b h) → Store.op Q Pre m r R → Store.op Q Pre m r R'.
Proof.
  intros HR Hm h Hh Hf. destruct (Hm h Hh Hf) as (k & Hk & Hr).
  exists k. split; [done|]. eapply res_rel_impl; [|exact Hr].
  intros a b Hab. by apply HR.
Qed.

Lemma op_ret {A B} Pre (a : A) (b : B) (R : A → B → list Store.cell → Prop) :
  (∀ h, Pre h → R a b h) → Store.op Q Pre (mret a) (Ok b) R.
Proof.
  intros HR h Hh _. exists []. rewrite app_nil_r. split; [done|]. by apply HR.
Qed.

Lemma op_bind {A B A' B'} Pre (m : Store.M A) (r : result B)
  (f : A → Store.M A') (g : B → result B') R R' :
  Store.stable Q Pre →
  Store.op Q Pre m r R →
  (∀ a b, Store.op Q (λ h, Pre h ∧ R a b h) (f a) (g b) R') →
  Store.op Q Pre (m ≫= f) (r ≫= g) R'.
Proof.
  intros Hst Hm Hf h Hh Hfr. destruct (Hm h Hh Hfr) as (k1 & Hk1 & Hr).
  rewrite (M_bind_unfold m f h).
  destruct (m h) as [[a| | |] h1]; destruct r as [b| | |]; simpl in *;
    try done; try (by exists k1).
  subst h1. destruct (Hf a b (h ++ k1)) as (k2 & Hk2 & Hr2).
  - split; [|done]. eapply Hst; [done | apply preserved_app].
  - by apply fresh_app.
  - exists (k1 ++ k2). rewrite (assoc_L (++)). by split.
Qed.

(** A step of the store that the tree does not have: an allocation, or
    a read that the tree function does not bind. *)
Lemma op_bind_l {A B A' B'} Pre (m : Store.M A) (b : B)
  (f : A → Store.M A') (r : result B') R R' :
  Store.stable Q Pre →
  Store.op Q Pre m (Ok b) R →
  (∀ a, Store.op Q (λ h, Pre h ∧ R a b h) (f a) r R') →
  Store.op Q Pre (m ≫= f) r R'.
Proof.
  intros Hst Hm Hf h Hh Hfr. destruct (Hm h Hh Hfr) as (k1 & Hk1 & Hr).
  rewrite (M_bind_unfold m f h).
  destruct (m h) as [[a| | |] h1]; simpl in *; try done.
  subst h1. destruct (Hf a (h ++ k1)) as (k2 & Hk2 & Hr2).
  - split; [|done]. eapply Hst; [done | apply preserved_app].
  - by apply fresh_app.
  - exists (k1 ++ k2). rewrite (assoc_L (++)). by split.
Qed.

Lemma op_throw {A B} Pre (e : result A) (e' : result B) R :
  Store.res_rel (λ _ _, False) e e' → Store.op Q Pre (Store.throw e) e' R.
Proof.
  intros He h _ _. exists []. rewrite app_nil_r. split; [done|].
  eapply res_rel_impl; [|exact He]. done.
Qed.

Lemma op_get_prop v t key :
  Store.op Q (λ h, Store.rep Q h v t) (Store.get_prop v key) (get_prop t key)
    (λ a b h, Store.rep Q h a b).
Proof.
  intros h Hv _. exists []. rewrite app_nil_r.
  destruct Hv as [| | | |s|l items ts Hl Hc Hi|l ps ts Hl Hc Hps]; simpl;
    try done; try (split; [done|constructor]).
  - split; [done|]. apply rep_get_indexed, rep_chars.
  - unfold mbind, Store.M_bind, Store.read. rewrite Hc. simpl.
    split; [done|]. by apply rep_get_indexed.
  - unfold mbind, Store.M_bind, Store.read. rewrite Hc. simpl.
    split; [done|]. by apply rep_props_lookup.
Qed.

Lemma op_own_props v t :
  Store.op Q (λ h, Store.rep Q h v t) (Store.own_props v) (Ok (own_props t))
    (λ ps ts h, Store.rep_props Q h ps ts).
Proof.
  intros h Hv _. exists []. rewrite app_nil_r.
  destruct Hv as [| | | |s|l items ts Hl Hc Hi|l ps ts Hl Hc Hps]; simpl;
    try (split; [done|constructor]).
  - split; [done|]. apply rep_indexed, rep_chars.
  - unfold mbind, Store.M_bind, Store.read. rewrite Hc. simpl.
    split; [done|]. by apply rep_indexed.
  - unfold mbind, Store.M_bind, Store.read. rewrite Hc. simpl. by split.
Qed.

Lemma lookup_new {A} (l : list A) (x : A) : (l ++ [x]) !! length l = Some x.
Proof. by apply list_lookup_middle. Qed.

Lemma op_alloc_arr Pre items ts :
  (∀ h, Pre h → Forall2 (Store.rep Q h) items ts) →
  Store.op Q Pre (Store.alloc (Store.CArr items)) (Ok (JArr ts))
    (λ a b h, Store.rep Q h a b).
Proof.
  intros Hi h Hh Hf. exists [Store.CArr items]. split; [done|]. simpl.
  eapply Store.rep_arr; [by apply Hf | apply lookup_new |].
  eapply rep_list_frame; [|by apply Hi]. intros l _ Hl. by apply lookup_app_l.
Qed.

Lemma op_alloc_obj Pre ps ts :
  (∀ h, Pre h → Store.rep_props Q h ps ts) →
  Store.op Q Pre (Store.alloc (Store.CObj ps)) (Ok (JObj ts))
    (λ a b h, Store.rep Q h a b).
Proof.
  intros Hi h Hh Hf. exists [Store.CObj ps]. split; [done|]. simpl.
  eapply Store.rep_obj; [by apply Hf | apply lookup_new |].
  eapply rep_props_frame; [|by apply Hi]. intros l _ Hl. by apply lookup_app_l.
Qed.

Lemma op_or_else v t :
  Store.op Q (λ h, Store.rep Q h v t)
    (Store.or_else v (Store.alloc (Store.CArr []))) (Ok (js_or t (JArr [])))
    (λ a b h, Store.rep Q h a b).
Proof.
  intros h Hv Hf. unfold Store.or_else, js_or. rewrite (truthy_rep Q h v t Hv).
  destruct (truthy t).
  - by apply (op_ret (λ h, Store.rep Q h v t) v t (λ a b h, Store.rep Q h a b)).
  - apply (op_alloc_arr (λ h, Store.rep Q h v t)); [|done..]. by constructor.
Qed.
End op_rules.

Section op_functions.
Context (Q : Store.loc → Prop).
Implicit Types (h k : list Store.cell) (v : Store.rvalue) (t : value).
Implicit Types (Pre : list Store.cell → Prop).

Lemma array_items_rep v t h :
  Store.rep Q h v t →
    match Store.array_items v h with
    | (Ok items, h') => h' = h ∧ ∃ ts, t = JArr ts ∧ Forall2 (Store.rep Q h) items ts
    | (TypeError, h') => h' = h ∧ ∀ ts, t ≠ JArr ts
    | _ => False
    end.
Proof.
  intros Hv.
  destruct Hv as [| | | |s|l items ts Hl Hc Hi|l ps ts Hl Hc Hps]; simpl;
    try done.
  - unfold mbind, Store.M_bind, Store.read. rewrite Hc. simpl. eauto.
  - unfold mbind, Store.M_bind, Store.read. rewrite Hc. simpl. done.
Qed.

Lemma rep_filter_keep h items ts :
  Forall2 (Store.rep Q h) items ts →
  Forall2 (Store.rep Q h)
    (filter (λ v, Is_true (Store.keep_item v)) items)
    (filter (λ t, Is_true (keep_item t)) ts).
Proof.
  induction 1 as [|v t items ts Hv _ IH]; [constructor|].
  rewrite !filter_cons. rewrite (keep_item_rep Q h v t Hv).
  destruct (decide (Is_true (keep_item t))); [by constructor | done].
Qed.

Lemma op_cleanArray v t :
  Store.op Q (λ h, Store.rep Q h v t) (Store.cleanArray v) (cleanArray t)
    (λ a ts h, Store.rep Q h a.1 (JArr ts) ∧ length a.2 = length ts).
Proof.
  intros h Hv Hf. unfold Store.cleanArray. rewrite M_bind_unfold.
  pose proof (array_items_rep v t h Hv) as Hitems.
  destruct (Store.array_items v h) as [[items| | |] h1]; try done.
  - destruct Hitems as (-> & ts & -> & Hi). simpl.
    exists [Store.CArr (filter (λ v, Is_true (Store.keep_item v)) items)].
    split; [done|]. simpl. pose proof (rep_filter_keep h items ts Hi) as Hk.
    split; [|by eapply Forall2_length].
    eapply Store.rep_arr; [by apply Hf | apply lookup_new |].
    eapply rep_list_frame; [|done]. intros l _ Hl. by apply lookup_app_l.
  - destruct Hitems as [-> Ht]. exists []. rewrite app_nil_r. split; [done|].
    destruct t; try done. by destruct (Ht items).
Qed.

Lemma op_mapM (f : Store.rvalue → Store.M Store.rvalue)
  (g : value → result value) vs ts :
  (∀ v t, Store.op Q (λ h, Store.rep Q h v t) (f v) (g t)
            (λ a b h, Store.rep Q h a b)) →
  Store.op Q (λ h, Forall2 (Store.rep Q h) vs ts)
    (Store.mapM f vs) (map_result g ts)
    (λ vs' ts' h, Forall2 (Store.rep Q h) vs' ts').
Proof.
  intros Hfg. revert ts. induction vs as [|v vs IH]; intros ts.
  - apply op_pre with (Pre := λ _, ts = []).
    { intros h Hh. by inversion Hh. }
    intros h -> _. exists []. rewrite app_nil_r. split; [done|]. constructor.
  - destruct ts as [|t ts].
    { intros h Hh. inversion Hh. }
    cbn [Store.mapM map_result].
    eapply op_bind; [apply stable_rep_list| |].
    { eapply op_pre; [|apply (Hfg v t)]. intros h Hh. by inversion Hh. }
    intros a b. eapply op_bind.
    { apply stable_and; [apply stable_rep_list | apply stable_rep]. }
    { eapply op_pre; [|apply (IH ts)]. intros h [Hh _]. by inversion Hh. }
    intros vs' ts'. apply op_ret. intros h [[_ Hab] Hvs]. by constructor.
Qed.

Lemma op_js_map (f : Store.rvalue → Store.M Store.rvalue)
  (g : value → result value) v t :
  (∀ v t, Store.op Q (λ h, Store.rep Q h v t) (f v) (g t)
            (λ a b h, Store.rep Q h a b)) →
  Store.op Q (λ h, Store.rep Q h v t) (Store.js_map f v) (js_map g t)
    (λ a b h, Store.rep Q h a b).
Proof.
  intros Hfg h Hv Hf. unfold Store.js_map. rewrite M_bind_unfold.
  pose proof (array_items_rep v t h Hv) as Hitems.
  destruct (Store.array_items v h) as [[items| | |] h1]; try done.
  - destruct Hitems as (-> & ts & -> & Hi). cbn [js_map].
    clear Hv. revert h Hi Hf.
    change (Store.op Q (λ h, Forall2 (Store.rep Q h) items ts)
      (Store.mapM f items ≫= λ items', Store.alloc (Store.CArr items'))
      (map_result g ts ≫= λ items', Ok (JArr items'))
      (λ a b h, Store.rep Q h a b)).
    eapply op_bind; [apply stable_rep_list | by apply op_mapM |].
    intros vs' ts'. apply op_alloc_arr. by intros h [_ ?].
  - destruct Hitems as [-> Ht]. exists []. rewrite app_nil_r. split; [done|].
    destruct t; try done. by destruct (Ht items).
Qed.
End op_functions.

Ltac solve_stable :=
  repeat first
    [ apply stable_and | apply stable_rep | apply stable_rep_props
    | apply stable_rep_list | apply stable_pure ].

Ltac pre_facts :=
  let h := fresh "h" in
  let Hpre := fresh "Hpre" in
  intros h Hpre; cbv beta in Hpre; destruct_and?.

(** A step that both models take. *)
Ltac op_step lem :=
  eapply op_bind; [solve_stable | eapply op_pre; [|apply lem]; by pre_facts |].

(** A step of the store only. *)
Ltac op_step_l lem :=
  eapply op_bind_l; [solve_stable | eapply op_pre; [|apply lem]; by pre_facts |].

Section op_normalize.
Context (Q : Store.loc → Prop).

Lemma op_normalize_rule rule t :
  Store.op Q (λ h, Store.rep Q h rule t) (Store.normalize_rule rule)
    (normalize_rule t) (λ a b h, Store.rep Q h a b).
Proof.
  unfold Store.normalize_rule, normalize_rule.
  op_step op_get_prop. intros groupName groupName'.
  op_step op_get_prop. intros matchManagers0 matchManagers'.
  op_step_l op_or_else. intros matchManagers.
  op_step op_get_prop. intros matchDatasources0 matchDatasources'.
  op_step_l op_or_else. intros matchDatasources.
  op_step op_get_prop. intros matchFileNames0 matchFileNames'.
  op_step_l op_or_else. intros matchFileNames.
  op_step op_get_prop. intros matchUpdateTypes0 matchUpdateTypes'.
  op_step_l op_or_else. intros matchUpdateTypes.
  op_step op_get_prop. intros matchDepTypes0 matchDepTypes'.
  op_step_l op_or_else. intros matchDepTypes.
  op_step op_get_prop. intros matchCurrentVersion matchCurrentVersion'.
  op_step op_get_prop. intros automerge automerge'.
  op_step op_get_prop. intros automergeType automergeType'.
  op_step_l op_own_props. intros props.
  apply op_alloc_obj. pre_facts. unfold spread.
  apply rep_props_assign_all; [|done].
  unfold js_or.
  repeat match goal with
  | H : Store.rep Q _ ?v ?t |- context [Store.truthy ?v] =>
      rewrite (truthy_rep Q _ v t H)
  end.
  repeat (constructor; [split; [done|]; simpl; try done;
                        by (case_match; [|constructor]) |]).
  constructor.
Qed.
End op_normalize.

Lemma M_bind_assoc {A B C} (m : Store.M A) (f : A → Store.M B)
  (g : B → Store.M C) h :
  ((m ≫= f) ≫= g) h = (m ≫= λ x, f x ≫= g) h.
Proof. rewrite !M_bind_unfold. by destruct (m h) as [[]]. Qed.

Lemma result_bind_assoc {A B C} (r : result A) (f : A → result B)
  (g : B → result C) :
  (r ≫= f) ≫= g = r ≫= λ x, f x ≫= g.
Proof. by destruct r. Qed.

Lemma nonempty_length (l : list Store.rvalue) (l' : list value) :
  length l = length l' → Store.nonempty l = nonempty l'.
Proof. by destruct l, l'. Qed.

Section body_rules.
Context (Q : Store.loc → Prop) (cr : Store.loc).
Hypothesis HQ : ∀ l, Q l → l ≠ cr.
Implicit Types (h k : list Store.cell) (v : Store.rvalue) (t : value).
Implicit Types (Pre : list Store.cell → Prop) (o : list (string * value)).

Lemma frame_app h k : cr < length h → Store.frame cr h (h ++ k).
Proof. intros Hcr l Hl. apply lookup_app_l. lia. Qed.

Lemma body_equiv {A B} Pre o (m m' : Store.M A) (r : result B) Post :
  (∀ h, m h = m' h) →
  Store.body Q cr Pre o m' r Post → Store.body Q cr Pre o m r Post.
Proof. intros Hm Hb h cps ????. rewrite Hm. by eapply Hb. Qed.

Lemma body_pre {A B} Pre Pre' o (m : Store.M A) (r : result B) Post :
  (∀ h, Pre' h → Pre h) →
  Store.body Q cr Pre o m r Post → Store.body Q cr Pre' o m r Post.
Proof. intros HP Hb h cps ????. eapply Hb; eauto. Qed.

Lemma body_pure {A B} Pre o (m : Store.M A) (r : result B) Post (φ : Prop) :
  (∀ h, Pre h → φ) →
  (φ → Store.body Q cr Pre o m r Post) → Store.body Q cr Pre o m r Post.
Proof. intros Hφ Hb h cps Hh ???. eapply Hb; eauto. Qed.

Lemma body_op {A B A' B'} Pre o (m : Store.M A) (r : result B)
  (f : A → Store.M A') (g : B → result B') R Post :
  Store.stable Q Pre →
  Store.op Q Pre m r R →
  (∀ a b, Store.body Q cr (λ h, Pre h ∧ R a b h) o (f a) (g b) Post) →
  Store.body Q cr Pre o (m ≫= f) (r ≫= g) Post.
Proof.
  intros Hst Hm Hf h cps Hh Hfr Hcr Hcps.
  destruct (Hm h Hh Hfr) as (k1 & Hk1 & Hr).
  pose proof (lookup_lt_Some _ _ _ Hcr) as Hlt.
  rewrite (M_bind_unfold m f h).
  destruct (m h) as [[a| | |] h1]; destruct r as [b| | |]; simpl in *;
    try done; subst h1;
    try (split_and!; [by apply frame_app | apply preserved_app | done]).
  destruct (Hf a b (h ++ k1) cps) as (Hf2 & Hp2 & Hr2).
  - split; [|done]. eapply Hst; [done | apply preserved_app].
  - by apply fresh_app.
  - by apply lookup_app_l_Some.
  - eapply rep_props_frame; [|done]. intros l _ Hl. by apply lookup_app_l.
  - split_and!; [|by eapply preserved_trans; [apply preserved_app|] | done].
    intros l Hl. rewrite Hf2 by done. apply lookup_app_l. lia.
Qed.

Lemma body_op_l {A B A' B'} Pre o (m : Store.M A) (b : B)
  (f : A → Store.M A') (r : result B') R Post :
  Store.stable Q Pre →
  Store.op Q Pre m (Ok b) R →
  (∀ a, Store.body Q cr (λ h, Pre h ∧ R a b h) o (f a) r Post) →
  Store.body Q cr Pre o (m ≫= f) r Post.
Proof.
  intros Hst Hm Hf h cps Hh Hfr Hcr Hcps.
  destruct (Hm h Hh Hfr) as (k1 & Hk1 & Hr).
  pose proof (lookup_lt_Some _ _ _ Hcr) as Hlt.
  rewrite (M_bind_unfold m f h).
  destruct (m h) as [[a| | |] h1]; simpl in *; try done; subst h1.
  destruct (Hf a (h ++ k1) cps) as (Hf2 & Hp2 & Hr2).
  - split; [|done]. eapply Hst; [done | apply preserved_app].
  - by apply fresh_app.
  - by apply lookup_app_l_Some.
  - eapply rep_props_frame; [|done]. intros l _ Hl. by apply lookup_app_l.
  - split_and!; [|by eapply preserved_trans; [apply preserved_app|] | done].
    intros l Hl. rewrite Hf2 by done. apply lookup_app_l. lia.
Qed.

Lemma preserved_insert h c : Store.preserved Q h (<[cr := c]> h).
Proof.
  split; [by rewrite length_insert|]. intros l Hl _.
  apply list_lookup_insert_ne. intros <-. by apply HQ in Hl.
Qed.

(** [if (c) cleanedRule[key] = v], then the rest. *)
Lemma body_assign_if {A B} Pre o (c c' : bool) key v t
  (rest : Store.M A) (r : result B) Post :
  Store.stable Q Pre →
  (∀ h, Pre h → c = c' ∧ Store.rep Q h v t) →
  Store.body Q cr Pre (set_if c' key t o) rest r Post →
  Store.body Q cr Pre o
    (Store.assign_if c (Store.RRef cr) key v ≫= λ _, rest) r Post.
Proof.
  intros Hst Hv Hrest h cps Hh Hfr Hcr Hcps.
  destruct (Hv h Hh) as [<- Hvt]. rewrite M_bind_unfold.
  pose proof (lookup_lt_Some _ _ _ Hcr) as Hlt.
  destruct c; simpl; [|by eapply Hrest].
  rewrite M_bind_unfold. unfold Store.read. rewrite Hcr. simpl.
  set (h1 := <[cr := Store.CObj (set_prop key v cps)]> h).
  pose proof (preserved_insert h (Store.CObj (set_prop key v cps))) as Hp.
  fold h1 in Hp.
  destruct (Hrest h1 (set_prop key v cps)) as (Hf2 & Hp2 & Hr2).
  - by eapply Hst.
  - by eapply fresh_preserved.
  - by apply list_lookup_insert_eq.
  - eapply rep_props_frame; [apply Hp|]. by apply rep_props_set_prop.
  - split_and!; [|by eapply preserved_trans | done].
    intros l Hl. rewrite Hf2 by done. apply list_lookup_insert_ne. lia.
Qed.

Lemma body_ret Pre o :
  Store.body Q cr Pre o (mret (Store.RRef cr)) (Ok (JObj o))
    (λ a b h, Store.rep (λ l, Q l ∨ l = cr) h a b).
Proof.
  intros h cps Hh Hfr Hcr Hcps. split_and!; [done | apply preserved_refl |].
  simpl. eapply Store.rep_obj; [by right | done |].
  eapply rep_props_mono; [|done]. by left.
Qed.
End body_rules.

Ltac body_step lem :=
  eapply body_op; [solve_stable | eapply op_pre; [|apply lem]; by pre_facts |].

Ltac body_step_l lem :=
  eapply body_op_l; [solve_stable | eapply op_pre; [|apply lem]; by pre_facts |].

Section body_clean_rule.
Context (Q : Store.loc → Prop) (cr : Store.loc).
Hypothesis HQ : ∀ l, Q l → l ≠ cr.
Context (rule : Store.rvalue) (t : value).

Lemma body_copy_other_fields {A B} keys (rest : Store.M A)
  (g : list (string * value) → result B) Post :
  ∀ Pre o,
  Store.stable Q Pre →
  (∀ h, Pre h → Store.rep Q h rule t) →
  (∀ Pre' o', Store.stable Q Pre' → (∀ h, Pre' h → Pre h) →
     Store.body Q cr Pre' o' rest (g o') Post) →
  Store.body Q cr Pre o
    (Store.copy_other_fields rule (Store.RRef cr) keys ≫= λ _, rest)
    (copy_other_fields t keys o ≫= g) Post.
Proof.
  induction keys as [|key keys IH]; intros Pre o Hst Hrule Hrest.
  - simpl. eapply body_equiv; [intros h; reflexivity|]. by apply Hrest.
  - cbn [Store.copy_other_fields copy_other_fields].
    eapply body_equiv; [intros h; apply M_bind_assoc|].
    case_bool_decide.
    + eapply body_equiv; [intros h; reflexivity|]. by apply IH.
    + eapply body_equiv; [intros h; apply M_bind_assoc|].
      rewrite result_bind_assoc.
      eapply body_op; [done | eapply op_pre; [|apply op_get_prop]; done |].
      intros v v'. unfold assign_key.
      destruct (bool_decide (key = "__proto__")).
      * apply (body_assign_if Q cr HQ _ o false false key v v').
        { solve_stable. done. }
        { by intros h [_ ?]. }
        apply IH.
        -- solve_stable. done.
        -- intros h [? _]. by apply Hrule.
        -- intros Pre' o' Hst' HPre'. apply Hrest; [done|].
           intros h Hh. by destruct (HPre' h Hh).
      * apply (body_assign_if Q cr HQ _ o true true key v v').
        { solve_stable. done. }
        { by intros h [_ ?]. }
        apply IH.
        -- solve_stable. done.
        -- intros h [? _]. by apply Hrule.
        -- intros Pre' o' Hst' HPre'. apply Hrest; [done|].
           intros h Hh. by destruct (HPre' h Hh).
Qed.

Lemma body_clean_rule :
  Store.body Q cr (λ h, Store.rep Q h rule t) []
    (groupName ← Store.get_prop rule "groupName";
     Store.assign_if (Store.truthy groupName) (Store.RRef cr) "groupName"
       groupName;;
     matchManagers ← Store.get_prop rule "matchManagers";
     matchManagers ← Store.or_else matchManagers (Store.alloc (Store.CArr []));
     managers ← Store.cleanArray matchManagers;
     matchDatasources ← Store.get_prop rule "matchDatasources";
     matchDatasources ← Store.or_else matchDatasources (Store.alloc (Store.CArr []));
     datasources ← Store.cleanArray matchDatasources;
     matchFileNames ← Store.get_prop rule "matchFileNames";
     matchFileNames ← Store.or_else matchFileNames (Store.alloc (Store.CArr []));
     fileNames ← Store.cleanArray matchFileNames;
     matchUpdateTypes ← Store.get_prop rule "matchUpdateTypes";
     matchUpdateTypes ← Store.or_else matchUpdateTypes (Store.alloc (Store.CArr []));
     updateTypes ← Store.cleanArray matchUpdateTypes;
     matchDepTypes ← Store.get_prop rule "matchDepTypes";
     matchDepTypes ← Store.or_else matchDepTypes (Store.alloc (Store.CArr []));
     depTypes ← Store.cleanArray matchDepTypes;
     Store.assign_if (Store.nonempty managers.2) (Store.RRef cr)
       "matchManagers" managers.1;;
     Store.assign_if (Store.nonempty datasources.2) (Store.RRef cr)
       "matchDatasources" datasources.1;;
     Store.assign_if (Store.nonempty fileNames.2) (Store.RRef cr)
       "matchFileNames" fileNames.1;;
     Store.assign_if (Store.nonempty updateTypes.2) (Store.RRef cr)
       "matchUpdateTypes" updateTypes.1;;
     Store.assign_if (Store.nonempty depTypes.2) (Store.RRef cr)
       "matchDepTypes" depTypes.1;;
     matchCurrentVersion ← Store.get_prop rule "matchCurrentVersion";
     Store.assign_if (Store.truthy matchCurrentVersion) (Store.RRef cr)
       "matchCurrentVersion" matchCurrentVersion;;
     automerge ← Store.get_prop rule "automerge";
     Store.assign_if (negb (Store.is_undefined automerge)) (Store.RRef cr)
       "automerge" automerge;;
     automergeType ← Store.get_prop rule "automergeType";
     Store.assign_if (Store.is_true automerge && Store.truthy automergeType)
       (Store.RRef cr) "automergeType" automergeType;;
     props ← Store.own_props rule;
     Store.copy_other_fields rule (Store.RRef cr) props.*1;;
     mret (Store.RRef cr))
    (clean_rule t)
    (λ a b h, Store.rep (λ l, Q l ∨ l = cr) h a b).
Proof.
  unfold clean_rule. cbv zeta.
  body_step op_get_prop. intros groupName groupName'.
  eapply (body_assign_if Q cr HQ); [solve_stable | |].
  { pre_facts. split; [by eapply truthy_rep | done]. }
  body_step op_get_prop. intros matchManagers0 matchManagers'.
  body_step_l op_or_else. intros matchManagers.
  body_step op_cleanArray. intros managers managers'.
  body_step op_get_prop. intros matchDatasources0 matchDatasources'.
  body_step_l op_or_else. intros matchDatasources.
  body_step op_cleanArray. intros datasources datasources'.
  body_step op_get_prop. intros matchFileNames0 matchFileNames'.
  body_step_l op_or_else. intros matchFileNames.
  body_step op_cleanArray. intros fileNames fileNames'.
  body_step op_get_prop. intros matchUpdateTypes0 matchUpdateTypes'.
  body_step_l op_or_else. intros matchUpdateTypes.
  body_step op_cleanArray. intros updateTypes updateTypes'.
  body_step op_get_prop. intros matchDepTypes0 matchDepTypes'.
  body_step_l op_or_else. intros matchDepTypes.
  body_step op_cleanArray. intros depTypes depTypes'.
  do 5 (eapply (body_assign_if Q cr HQ); [solve_stable | |];
        [pre_facts; split; [by apply nonempty_length | done] |]).
  body_step op_get_prop. intros matchCurrentVersion matchCurrentVersion'.
  eapply (body_assign_if Q cr HQ); [solve_stable | |].
  { pre_facts. split; [by eapply truthy_rep | done]. }
  body_step op_get_prop. intros automerge automerge'.
  eapply (body_assign_if Q cr HQ); [solve_stable | |].
  { pre_facts. split; [|done]. erewrite is_undefined_rep by done. reflexivity. }
  body_step op_get_prop. intros automergeType automergeType'.
  eapply (body_assign_if Q cr HQ); [solve_stable | |].
  { pre_facts. split; [|done].
    erewrite is_true_rep by done. erewrite truthy_rep by done. reflexivity. }
  body_step_l op_own_props. intros props.
  eapply body_pure with (φ := props.*1 = object_keys t).
  { pre_facts. by eapply rep_props_keys. }
  intros ->.
  apply (body_copy_other_fields _ _ (λ o, Ok (JObj o))).
  - solve_stable.
  - by pre_facts.
  - intros Pre' o' _ _. apply body_ret.
Qed.
End body_clean_rule.

Lemma rep_bound (P : Store.loc → Prop) h v t :
  Store.rep P h v t → Store.rep (λ l, P l ∧ l < length h) h v t.
Proof.
  induction 1 as [| | | | |l items ts Hl Hc _ IH|l ps ts Hl Hc _ IH]
    using rep_ind; try by constructor.
  - eapply Store.rep_arr; [|done..]. split; [done|]. by eapply lookup_lt_Some.
  - eapply Store.rep_obj; [|done..]. split; [done|]. by eapply lookup_lt_Some.
Qed.

Lemma frame_prefix {A} (h h2 : list A) :
  (∀ l, (l < length h)%nat → h2 !! l = h !! l) →
  (length h ≤ length h2)%nat →
  ∃ k, h2 = h ++ k.
Proof.
  intros Hf Hl. exists (drop (length h) h2).
  rewrite <- (take_drop (length h) h2) at 1. f_equal.
  apply list_eq. intros i. destruct (decide (i < length h)) as [Hi|Hi].
  - rewrite lookup_take_lt by done. by apply Hf.
  - rewrite !lookup_ge_None_2; [done|lia|]. rewrite length_take. lia.
Qed.

Section op_clean.
Context (P : Store.loc → Prop).

(** The callback of the export on the store computes what the callback
    on trees computes, and changes no cell that was there. *)
Lemma op_clean_rule rule t :
  Store.op P (λ h, Store.rep P h rule t) (Store.clean_rule rule)
    (clean_rule t) (λ a b h, Store.rep P h a b).
Proof.
  intros h Hrule Hfresh. unfold Store.clean_rule. rewrite M_bind_unfold.
  unfold Store.alloc at 1. cbv beta iota.
  set (cr := length h). set (Q := λ l, P l ∧ l ≠ cr).
  assert (HQ : ∀ l, Q l → l ≠ cr) by (by intros l [_ ?]).
  destruct (body_clean_rule Q cr HQ rule t (h ++ [Store.CObj []]) [])
    as (Hf & [Hlen Hp] & Hr).
  - apply rep_app. eapply rep_mono; [|by apply rep_bound].
    intros l [? ?]. split; [done|]. unfold cr. lia.
  - intros l Hl. rewrite length_app in Hl. simpl in Hl. split.
    + apply Hfresh. lia.
    + unfold cr. lia.
  - apply lookup_new.
  - constructor.
  - match type of Hf with
    | Store.frame _ _ (?m _).2 => set (run := m (h ++ [Store.CObj []])) in *
    end.
    destruct (frame_prefix h run.2) as [k Hk].
    + intros l Hl. rewrite Hf by done. by apply lookup_app_l.
    + rewrite length_app in Hlen. lia.
    + exists k. split; [done|]. rewrite <- Hk.
      eapply res_rel_impl; [|exact Hr]. intros a b Hab.
      eapply rep_mono; [|exact Hab]. intros l [[? _]| ->]; [done|].
      by apply Hfresh.
Qed.
End op_clean.

(** ** Index keys

    The spelling of an index starts with a digit, so no array or string
    has [packageRules] among its own keys. *)
Lemma pretty_N_go_not_p x s :
  (∀ s', s ≠ String "p" s') → ∀ s', pretty_N_go x s ≠ String "p" s'.
Proof.
  revert s. induction (N.lt_wf_0 x) as [x _ IH]; intros s Hs s'.
  destruct (decide (0 < x)%N) as [Hx|Hx].
  - rewrite pretty_N_go_step by done. apply IH.
    + apply N.div_lt; [done|lia].
    + intros s''. unfold pretty_N_char. by repeat case_match.
  - replace x with 0%N by lia. rewrite pretty_N_go_0. apply Hs.
Qed.

Lemma index_key_packageRules i : index_key i ≠ "packageRules".
Proof.
  unfold index_key, pretty, pretty_nat, pretty, pretty_N.
  case_decide; [done|]. by apply pretty_N_go_not_p.
Qed.

Lemma find_index_packageRules n i : find_index "packageRules" n i = None.
Proof.
  revert i. induction n as [|n IH]; intros i; [done|]. simpl.
  rewrite bool_decide_eq_false_2 by apply index_key_packageRules. apply IH.
Qed.

Lemma get_prop_packageRules t v :
  (∀ ps, t ≠ JObj ps) → get_prop t "packageRules" = Ok v → truthy v = false.
Proof.
  intros Ht. destruct t as [| | | |s|items|ps]; simpl; try done.
  - by intros [= <-].
  - by intros [= <-].
  - unfold get_indexed. rewrite find_index_packageRules. by intros [= <-].
  - unfold get_indexed. rewrite find_index_packageRules. by intros [= <-].
  - by destruct (Ht ps).
Qed.

(** ** The deep copy on the store *)

Lemma alloc_tree_obj cps (h : list Store.cell) :
  ∃ rps k,
    Store.alloc_tree (JObj cps) h =
      (Ok (Store.RRef (length (h ++ k))), (h ++ k) ++ [Store.CObj rps]) ∧
    Store.rep_props (Store.between (length h) (length (h ++ k))) (h ++ k) rps cps.
Proof.
  destruct (alloc_props_rep cps) with (h := h) as (rps & k & Hps & Hr).
  { apply Forall_forall. intros kt _ h'. apply alloc_tree_rep. }
  exists rps, k. cbn [Store.alloc_tree]. rewrite (M_bind_ok _ _ _ _ _ Hps).
  split; [done|]. by rewrite length_app.
Qed.

Lemma deep_copy_undefined P h v fuel :
  Store.rep P h v JUndef → Store.deep_copy fuel v h = (SyntaxError, h).
Proof. intros Hv. inversion Hv; subst. by destruct fuel. Qed.

Lemma deep_copy_defined P h v t fuel :
  Store.rep P h v t → Store.depth t < fuel → is_undefined t = false →
  Store.deep_copy fuel v h = Store.alloc_tree (clone t) h ∧
  json_roundtrip t = Ok (clone t).
Proof.
  intros Hv Hfuel Hu. unfold Store.deep_copy. rewrite M_bind_unfold.
  rewrite (read_tree_rep P h v t fuel Hv Hfuel). rewrite M_bind_unfold.
  by destruct t.
Qed.

Section body_root.
Context (Q : Store.loc → Prop) (cr : Store.loc).
Hypothesis HQ : ∀ l, Q l → l ≠ cr.

(** A read of the object that is written to. *)
Lemma body_get_cr {A B} Pre o key (f : Store.rvalue → Store.M A)
  (r : result B) Post :
  (∀ a, Store.body Q cr (λ h, Pre h ∧ Store.rep Q h a (get o key)) o (f a) r Post) →
  Store.body Q cr Pre o (Store.get_prop (Store.RRef cr) key ≫= f) r Post.
Proof.
  intros Hf h cps Hh Hfr Hcr Hcps. rewrite M_bind_unfold. simpl.
  rewrite M_bind_unfold. unfold Store.read. rewrite Hcr. simpl.
  eapply (Hf _ h cps); [|done..]. split; [done|]. by apply rep_props_lookup.
Qed.

(** The part of Load and of Export after the copy, on an object: the
    callback over [packageRules], stored in the copy. *)
Lemma body_map_rules (f : Store.rvalue → Store.M Store.rvalue)
  (g : value → result value) cps :
  (∀ v t, Store.op Q (λ h, Store.rep Q h v t) (f v) (g t)
            (λ a b h, Store.rep Q h a b)) →
  Store.body Q cr (λ _, True) cps
    (packageRules ← Store.get_prop (Store.RRef cr) "packageRules";
     (if Store.truthy packageRules then
        rules ← Store.js_map f packageRules;
        Store.assign (Store.RRef cr) "packageRules" rules
      else Store.skip);;
     mret (Store.RRef cr))
    (packageRules ← get_prop (JObj cps) "packageRules";
     if truthy packageRules then
       rules ← js_map g packageRules;
       assign (JObj cps) "packageRules" rules
     else Ok (JObj cps))
    (λ a b h, Store.rep (λ l, Q l ∨ l = cr) h a b).
Proof.
  intros Hfg. rewrite get_prop_obj. cbn [mbind result_bind].
  apply body_get_cr. intros packageRules.
  eapply body_pure with (φ := Store.truthy packageRules = truthy (get cps "packageRules")).
  { intros h [_ Hpr]. by eapply truthy_rep. }
  intros ->. destruct (truthy (get cps "packageRules")).
  - eapply body_equiv; [intros h; apply M_bind_assoc|].
    eapply body_op; [solve_stable | |].
    { eapply op_pre; [|by apply op_js_map]. by intros h [_ ?]. }
    intros rules rules'.
    apply (body_assign_if Q cr HQ _ cps true true "packageRules" rules rules').
    + solve_stable.
    + by intros h [_ ?].
    + apply body_ret.
  - eapply body_equiv; [intros h; reflexivity|]. apply body_ret.
Qed.
End body_root.

Section copy_map_rules.
Context (f : Store.rvalue → Store.M Store.rvalue) (g : value → result value).
Hypothesis Hfg : ∀ Q v t,
  Store.op Q (λ h, Store.rep Q h v t) (f v) (g t) (λ a b h, Store.rep Q h a b).

#[local] Abbreviation on_store t' :=
  (Store.alloc_tree t' ≫= λ config,
     packageRules ← Store.get_prop config "packageRules";
     (if Store.truthy packageRules then
        rules ← Store.js_map f packageRules;
        Store.assign config "packageRules" rules
      else Store.skip);;
     mret config).

#[local] Abbreviation on_tree t' :=
  (packageRules ← get_prop t' "packageRules";
   if truthy packageRules then
     rules ← js_map g packageRules;
     assign t' "packageRules" rules
   else Ok t').

Lemma copy_map_rules_other t' (h : list Store.cell) :
  (∀ ps, t' ≠ JObj ps) →
  ∃ k, (on_store t' h).2 = h ++ k ∧
       Store.res_rel (Store.rep (λ l, (length h ≤ l)%nat) (h ++ k))
         (on_store t' h).1 (on_tree t').
Proof.
  intros Ht'. destruct (alloc_tree_rep t' h) as (v & k & Hv & Hrep).
  rewrite M_bind_unfold, Hv.
  assert (Hrep' : Store.rep (λ l, (length h ≤ l)%nat) (h ++ k) v t').
  { eapply rep_mono; [|exact Hrep]. by intros l [? _]. }
  destruct (op_get_prop _ v t' "packageRules" (h ++ k) Hrep')
    as (k2 & Hk2 & Hr2).
  { intros l. rewrite length_app. lia. }
  rewrite M_bind_unfold.
  destruct (Store.get_prop v "packageRules" (h ++ k)) as [[a| | |] h2];
    destruct (get_prop t' "packageRules") as [b| | |] eqn:Hg; simpl in *;
    try done; subst h2; exists (k ++ k2); rewrite (assoc_L (++));
    try (split; done).
  rewrite (truthy_rep _ _ _ _ Hr2), (get_prop_packageRules t' b Ht' Hg).
  split; [done|]. simpl. by apply rep_app.
Qed.

Lemma copy_map_rules_obj cps (h : list Store.cell) :
  ∃ k, (on_store (JObj cps) h).2 = h ++ k ∧
       Store.res_rel (Store.rep (λ l, (length h ≤ l)%nat) (h ++ k))
         (on_store (JObj cps) h).1 (on_tree (JObj cps)).
Proof.
  destruct (alloc_tree_obj cps h) as (rps & k & Halloc & Hrps).
  rewrite M_bind_unfold, Halloc. cbv beta iota.
  set (root := length (h ++ k)) in *.
  set (h1 := (h ++ k) ++ [Store.CObj rps]).
  set (Q := λ l, (length h ≤ l)%nat ∧ l ≠ root).
  assert (Hroot : (length h ≤ root)%nat) by (unfold root; rewrite length_app; lia).
  assert (HQ : ∀ l, Q l → l ≠ root) by (by intros l [_ ?]).
  destruct (body_map_rules Q root HQ f g cps (Hfg Q) h1 rps)
    as (Hf & [Hlen Hp] & Hr); [done| | | |].
  - intros l. unfold h1, Q. rewrite length_app. fold root. simpl. lia.
  - apply lookup_new.
  - apply rep_props_frame with (h := h ++ k).
    { intros l _ Hl. by apply lookup_app_l. }
    eapply rep_props_mono; [|exact Hrps]. intros l [? ?]. split; [done|lia].
  - match type of Hf with
    | Store.frame _ _ (?m _).2 => set (run := m h1) in *
    end.
    destruct (frame_prefix h run.2) as [k' Hk'].
    + intros l Hl. rewrite Hf by lia. unfold h1.
      rewrite <- (assoc_L (++)). by apply lookup_app_l.
    + unfold h1 in Hlen. rewrite !length_app in Hlen. lia.
    + exists k'. split; [done|]. rewrite <- Hk'.
      eapply res_rel_impl; [|exact Hr]. intros a b Hab.
      eapply rep_mono; [|exact Hab]. intros l [[? _]| ->]; done.
Qed.

Lemma copy_map_rules t' (h : list Store.cell) :
  ∃ k, (on_store t' h).2 = h ++ k ∧
       Store.res_rel (Store.rep (λ l, (length h ≤ l)%nat) (h ++ k))
         (on_store t' h).1 (on_tree t').
Proof.
  destruct t' as [| | | | | |cps]; try by apply copy_map_rules_other.
  apply copy_map_rules_obj.
Qed.
End copy_map_rules.

(** ** Export on the store *)

Lemma cleanConfig_store P (h : list Store.cell) config t fuel :
  Store.rep P h config t → Store.depth t < fuel →
  ∃ k, (Store.cleanConfig fuel config h).2 = h ++ k ∧
       Store.res_rel (Store.rep (λ l, (length h ≤ l)%nat) (h ++ k))
         (Store.cleanConfig fuel config h).1 (cleanConfig t).
Proof.
  intros Hrep Hfuel. destruct (is_undefined t) eqn:Hu.
  - destruct t; try done. unfold Store.cleanConfig.
    rewrite M_bind_unfold, (deep_copy_undefined P h config fuel Hrep).
    exists []. by rewrite app_nil_r.
  - destruct (deep_copy_defined P h config t fuel Hrep Hfuel Hu) as [Hdc Hjr].
    unfold cleanConfig. rewrite Hjr. cbn [mbind result_bind].
    pose proof (copy_map_rules Store.clean_rule clean_rule op_clean_rule
                  (clone t) h) as Hsim.
    rewrite M_bind_unfold in Hsim. unfold Store.cleanConfig.
    rewrite M_bind_unfold, Hdc. exact Hsim.
Qed.

(** The export of an object keeps the top-level keys of the copy other
    than [packageRules]. *)
Lemma cleanConfig_top_level props t' :
  cleanConfig (JObj props) = Ok t' →
  ∃ props', t' = JObj props' ∧
    ∀ key, key ≠ "packageRules" →
      lookup_prop key props' = lookup_prop key (clone_props props).
Proof.
  unfold cleanConfig, json_roundtrip. rewrite clone_obj, bind_Ok, get_prop_obj, bind_Ok.
  destruct (truthy _).
  - destruct (js_map _ _) as [rules| | |]; try done. simpl. intros [= <-].
    eexists; split; [done|]. intros key Hkey. by apply lookup_set_prop_ne.
  - intros [= <-]. by eexists.
Qed.



(** ** Load *)

Lemma map_result_inv {A B} (f : A → result B) l l' :
  map_result f l = Ok l' → Forall2 (λ a b, f a = Ok b) l l'.
Proof.
  revert l'. induction l as [|a l IH]; intros l'; simpl.
  - intros [= <-]. constructor.
  - destruct (f a) as [b| | |] eqn:Hb; try done. simpl.
    destruct (map_result f l) as [bs| | |]; try done. simpl.
    intros [= <-]. constructor; [done|]. by apply IH.
Qed.

Lemma normalize_rule_fields m rule' :
  NoDup m.*1 → normalize_rule (JObj m) = Ok rule' →
  ∃ m', rule' = JObj m' ∧
    (∀ k v, lookup_prop k m = Some v → get m' k = v) ∧
    (∀ k, k ∉ rule_fields → lookup_prop k m' = lookup_prop k m) ∧
    Forall (λ kd, lookup_prop kd.1 m = None → get m' kd.1 = kd.2)
      rule_defaults.
Proof.
  intros Hnd. rewrite normalize_rule_obj by done. intros [= <-].
  exists (normalized_props m). split; [done|]. split_and!.
  - intros k v Hk. unfold get. rewrite lookup_normalized_props.
    case_bool_decide; [|by rewrite Hk]. unfold normalized_field. by rewrite Hk.
  - intros k Hk. rewrite lookup_normalized_props.
    by rewrite bool_decide_eq_false_2.
  - unfold rule_defaults.
    repeat (constructor;
      [intros Hk; simpl in Hk; unfold get; rewrite lookup_normalized_props;
       unfold normalized_field; simpl in *; by rewrite Hk|]).
    constructor.
Qed.

Lemma normalize_object props t' :
  normalize (JObj props) = Ok t' →
  ∃ props', t' = JObj props' ∧
    (∀ key, key ≠ "packageRules" →
       lookup_prop key props' = lookup_prop key (clone_props props)) ∧
    (truthy (get (clone_props props) "packageRules") = false →
       props' = clone_props props) ∧
    (truthy (get (clone_props props) "packageRules") = true →
       ∃ rules rules',
         get (clone_props props) "packageRules" = JArr rules ∧
         get props' "packageRules" = JArr rules' ∧
         Forall2 normalized rules rules').
Proof.
  unfold normalize, json_roundtrip.
  rewrite clone_obj, bind_Ok, get_prop_obj, bind_Ok.
  destruct (truthy _) eqn:Htr.
  - destruct (get (clone_props props) "packageRules") as [| | | | |rules|];
      try done.
    cbn [js_map]. destruct (map_result normalize_rule rules) as [rules'| | |] eqn:Hm;
      try done.
    simpl. intros [= <-]. eexists; split; [done|]. split_and!; [|done|].
    + intros key Hkey. by apply lookup_set_prop_ne.
    + intros _. exists rules, rules'. split; [done|]. split.
      * unfold get. by rewrite lookup_set_prop_eq.
      * eapply Forall2_impl; [by apply map_result_inv|].
        intros rule rule' Hr m -> Hnd. by apply normalize_rule_fields.
  - intros [= <-]. eexists; split; [done|]. by split_and!.
Qed.

Section load_store.
Context (stringify : value → string).

Lemma load_unfold P (h : list Store.cell) src t e fuel :
  Store.rep P h src t → Store.depth t < fuel → is_undefined t = false →
  Store.load stringify fuel e src h =
  match (Store.alloc_tree (clone t) ≫= λ config,
           packageRules ← Store.get_prop config "packageRules";
           (if Store.truthy packageRules then
              rules ← Store.js_map Store.normalize_rule packageRules;
              Store.assign config "packageRules" rules
            else Store.skip);;
           mret config) h with
  | (Ok config, h') =>
      Store.updateJsonText stringify fuel
        (Store.Editor config (Store.viewMode e) (Store.jsonText e)) h'
  | (TypeError, h') => (TypeError, h')
  | (SyntaxError, h') => (SyntaxError, h')
  | (OutOfModel, h') => (OutOfModel, h')
  end.
Proof.
  intros Hrep Hfuel Hu.
  destruct (deep_copy_defined P h src t fuel Hrep Hfuel Hu) as [Hdc _].
  unfold Store.load. rewrite M_bind_unfold, Hdc.
  rewrite (M_bind_unfold (Store.alloc_tree (clone t))).
  destruct (Store.alloc_tree (clone t) h) as [[config| | |] h1]; try done.
  rewrite !(M_bind_unfold (Store.get_prop config "packageRules")).
  destruct (Store.get_prop config "packageRules" h1) as [[pr| | |] h2]; try done.
  rewrite !M_bind_unfold.
  by destruct (Store.truthy pr);
    match goal with |- context [?m h2] => destruct (m h2) as [[[]| | |] h3] end.
Qed.

Lemma load_store P (h : list Store.cell) src t e fuel :
  Store.rep P h src t → Store.depth t < fuel →
  (∀ t', normalize t = Ok t' → Store.depth t' < fuel) →
  ∃ k, (Store.load stringify fuel e src h).2 = h ++ k ∧
       Store.res_rel
         (λ e' t',
            Store.rep (λ l, (length h ≤ l)%nat) (h ++ k)
              (Store.editableConfig e') t' ∧
            Store.jsonText e' = stringify t' ∧
            Store.viewMode e' = Store.viewMode e)
         (Store.load stringify fuel e src h).1 (normalize t).
Proof.
  intros Hrep Hfuel Hfuel'. destruct (is_undefined t) eqn:Hu.
  - destruct t; try done. unfold Store.load.
    rewrite M_bind_unfold, (deep_copy_undefined P h src fuel Hrep).
    exists []. by rewrite app_nil_r.
  - rewrite (load_unfold P h src t e fuel Hrep Hfuel Hu).
    destruct (deep_copy_defined P h src t fuel Hrep Hfuel Hu) as [_ Hjr].
    unfold normalize in *. rewrite Hjr in *. cbn [mbind result_bind] in *.
    destruct (copy_map_rules Store.normalize_rule normalize_rule
                op_normalize_rule (clone t) h) as (k & Hk & Hr).
    match goal with |- context [match ?run with _ => _ end] =>
      destruct run as [[config| | |] h1] end;
      match type of Hr with Store.res_rel _ _ ?r =>
        destruct r as [t'| | |] end;
      simpl in *; try done; subst h1; try (by exists k).
    exists k. unfold Store.updateJsonText. rewrite M_bind_unfold.
    cbv beta. cbn [Store.editableConfig Store.viewMode Store.jsonText].
    rewrite (read_tree_rep _ _ _ _ fuel Hr) by by apply Hfuel'.
    simpl. by split_and!.
Qed.
End load_store.



(** * Further properties *)

(** ** The resolver and the page *)

Section resolver_runs.
Context (fetch : string → fetch_outcome) (JSON5_parse : string → value + string).

Lemma try_urls_cases urls e :
  (Forall (λ u, accepted fetch JSON5_parse u = false) urls ∧
   try_urls fetch JSON5_parse urls e
   = (urls, None, last_error fetch JSON5_parse urls e)) ∨
  (∃ pre u post e',
     urls = pre ++ u :: post ∧
     Forall (λ u', accepted fetch JSON5_parse u' = false) pre ∧
     accepted fetch JSON5_parse u = true ∧
     try_urls fetch JSON5_parse urls e
     = (pre ++ [u], Some (data (tryFetch fetch JSON5_parse u)), e')).
Proof.
  revert e. induction urls as [|u urls IH]; intros e.
  - left. by split; [constructor|].
  - destruct (accepted fetch JSON5_parse u) eqn:Hu.
    + right. exists [], u, urls, e. split_and!; [done|constructor|done|].
      by rewrite try_urls_cons, Hu.
    + destruct (IH (error_or_unknown (error (tryFetch fetch JSON5_parse u))))
        as [[Hall Hrun]|(pre & u' & post & e' & -> & Hpre & Hu' & Hrun)].
      * left. split; [by constructor|]. by rewrite try_urls_cons, Hu, Hrun.
      * right. exists (u :: pre), u', post, e'.
        split_and!; [done|by constructor|done|].
        by rewrite try_urls_cons, Hu, Hrun.
Qed.
End resolver_runs.

(** X1: every run of [loadConfig] on an input that is not blank emits
    the same four events, loading on, the error cleared, one outcome,
    loading off, and fetches a prefix of the candidates in their order.
    Either no candidate is accepted: then all were fetched and the
    outcome is an error message; or the candidates up to and including
    the first accepted one were fetched, nothing after it, and the
    outcome is the document that candidate parsed to, a truthy value. *)
Theorem loadConfig_runs
    (fetch : string → fetch_outcome) (JSON5_parse : string → value + string)
    (url : string) :
  blank url = false →
  ∃ outcome,
    (loadConfig fetch JSON5_parse url).2
    = [Loading true; Error ""; outcome; Loading false] ∧
    (loadConfig fetch JSON5_parse url).1 `prefix_of` candidates url ∧
    ((Forall (λ u, accepted fetch JSON5_parse u = false) (candidates url) ∧
      (loadConfig fetch JSON5_parse url).1 = candidates url ∧
      ∃ message, outcome = Error ("Error loading config: " +:+ message)) ∨
     (∃ pre u post,
        candidates url = pre ++ u :: post ∧
        Forall (λ u', accepted fetch JSON5_parse u' = false) pre ∧
        accepted fetch JSON5_parse u = true ∧
        (loadConfig fetch JSON5_parse url).1 = pre ++ [u] ∧
        outcome = ConfigLoaded (data (tryFetch fetch JSON5_parse u)) ∧
        truthy (data (tryFetch fetch JSON5_parse u)) = true)).
Proof.
  intros Hb.
  destruct (try_urls_cases fetch JSON5_parse (candidates url) "")
    as [[Hall Hrun]|(pre & u & post & e' & Hc & Hpre & Hu & Hrun)].
  - rewrite (loadConfig_all_fail fetch JSON5_parse url Hb Hall).
    eexists. split; [done|]. split; [done|]. left. split_and!; [done..|].
    by eexists.
  - rewrite (loadConfig_first_match fetch JSON5_parse url pre u post Hb Hc Hpre Hu).
    eexists. split; [done|]. split.
    + rewrite Hc. simpl. apply prefix_app, prefix_cons, prefix_nil.
    + right. exists pre, u, post. split_and!; try done.
      unfold accepted in Hu. by apply andb_true_iff in Hu as [_ ?].
Qed.

Lemma loadConfig_runs_witness :
  ∃ outcome,
    (loadConfig only_master_github parse_examples "https://github.com/acme/widgets").2
    = [Loading true; Error ""; outcome; Loading false] ∧
    (loadConfig only_master_github parse_examples "https://github.com/acme/widgets").1
      `prefix_of` candidates "https://github.com/acme/widgets" ∧
    ((Forall (λ u, accepted only_master_github parse_examples u = false)
        (candidates "https://github.com/acme/widgets") ∧
      (loadConfig only_master_github parse_examples "https://github.com/acme/widgets").1
      = candidates "https://github.com/acme/widgets" ∧
      ∃ message, outcome = Error ("Error loading config: " +:+ message)) ∨
     (∃ pre u post,
        candidates "https://github.com/acme/widgets" = pre ++ u :: post ∧
        Forall (λ u', accepted only_master_github parse_examples u' = false) pre ∧
        accepted only_master_github parse_examples u = true ∧
        (loadConfig only_master_github parse_examples "https://github.com/acme/widgets").1
        = pre ++ [u] ∧
        outcome = ConfigLoaded (data (tryFetch only_master_github parse_examples u)) ∧
        truthy (data (tryFetch only_master_github parse_examples u)) = true)).
Proof. apply loadConfig_runs. reflexivity. Defined.

(** X2: the page after a load attempt, whatever it showed before.  On a
    blank input it holds no document and shows [Please enter a URL]; the
    loading flag is not touched.  On any other input it is not loading
    afterwards; when a candidate was accepted it holds that candidate's
    document, has no error and shows the editor; when none was, it holds
    no document, so a document loaded earlier is gone, the editor is
    hidden and the error banner is shown. *)
Theorem page_after_loadConfig
    (fetch : string → fetch_outcome) (JSON5_parse : string → value + string)
    (url : string) (s : HomeView.state) :
  let s' := foldl HomeView.on_event s (loadConfig fetch JSON5_parse url).2 in
  (blank url = true →
     s' = HomeView.State None (HomeView.isLoading s) (Some "Please enter a URL")) ∧
  (blank url = false →
     HomeView.isLoading s' = false ∧
     (Forall (λ u, accepted fetch JSON5_parse u = false) (candidates url) →
        HomeView.renovateConfig s' = None ∧
        HomeView.shows_editor s' = false ∧
        HomeView.shows_error s' = true) ∧
     (∀ pre u post,
        candidates url = pre ++ u :: post →
        Forall (λ u', accepted fetch JSON5_parse u' = false) pre →
        accepted fetch JSON5_parse u = true →
        s' = HomeView.State (Some (data (tryFetch fetch JSON5_parse u))) false None ∧
        HomeView.shows_editor s' = true ∧
        HomeView.shows_error s' = false)).
Proof.
  intros s'. split.
  - intros Hb. unfold s', loadConfig. by rewrite Hb.
  - intros Hb. split_and!.
    + unfold s'.
      destruct (try_urls_cases fetch JSON5_parse (candidates url) "")
        as [[Hall _]|(pre & u & post & e' & Hc & Hpre & Hu & _)].
      * by rewrite (loadConfig_all_fail fetch JSON5_parse url Hb Hall).
      * by rewrite (loadConfig_first_match fetch JSON5_parse url pre u post
                      Hb Hc Hpre Hu).
    + intros Hall. unfold s'.
      rewrite (loadConfig_all_fail fetch JSON5_parse url Hb Hall). done.
    + intros pre u post Hc Hpre Hu. unfold s'.
      rewrite (loadConfig_first_match fetch JSON5_parse url pre u post Hb Hc Hpre Hu).
      split_and!; [done| |done]. unfold HomeView.shows_editor. simpl.
      unfold accepted in Hu. apply andb_true_iff in Hu as [_ ->]. done.
Qed.

(** ** Repository URLs *)

Lemma segment_slash_free a rest :
  slash_free a →
  segment (a +:+ String "/" rest) = (a, String "/" rest).
Proof.
  unfold slash_free. induction a as [|c a IH]; simpl; [done|].
  intros Hc. rewrite not_elem_of_cons in Hc. destruct Hc as [Hc Ha].
  rewrite bool_decide_eq_false_2 by done. by rewrite IH.
Qed.

Lemma segment_slash_free_end a :
  slash_free a → segment a = (a, "").
Proof.
  unfold slash_free. induction a as [|c a IH]; simpl; [done|].
  intros Hc. rewrite not_elem_of_cons in Hc. destruct Hc as [Hc Ha].
  rewrite bool_decide_eq_false_2 by done. by rewrite IH.
Qed.

Lemma append_empty_r (s : string) : s +:+ "" = s.
Proof.
  induction s as [|c s IH]; [done|].
  change (String c s +:+ "") with (String c (s +:+ "")). by rewrite IH.
Qed.

Lemma length_append (a b : string) :
  String.length (a +:+ b) = String.length a + String.length b.
Proof.
  induction a as [|c a IH]; [done|].
  change (String c a +:+ b) with (String c (a +:+ b)). simpl. by rewrite IH.
Qed.

Lemma owner_repo_at_names owner repo rest :
  slash_free owner → slash_free repo → owner ≠ "" → repo ≠ "" →
  (rest = "" ∨ ∃ rest', rest = String "/" rest') →
  owner_repo_at (owner +:+ "/" +:+ repo +:+ rest) = Some (owner, repo, rest).
Proof.
  intros Ho Hr Hno Hnr Hrest. unfold owner_repo_at.
  change ("/" +:+ repo +:+ rest) with (String "/" (repo +:+ rest)).
  rewrite (segment_slash_free owner _ Ho).
  rewrite bool_decide_eq_false_2 by done.
  destruct Hrest as [->|[rest' ->]].
  - rewrite append_empty_r.
    rewrite (segment_slash_free_end repo Hr).
    by rewrite bool_decide_eq_false_2.
  - rewrite (segment_slash_free repo _ Hr). by rewrite bool_decide_eq_false_2.
Qed.

Lemma github_match_here s owner repo rest :
  starts_with "github.com/" s = true →
  owner_repo_at (drop_chars 11 s) = Some (owner, repo, rest) →
  github_match s = Some (owner, repo).
Proof. intros Hs Ha. destruct s; cbn [github_match]; by rewrite Hs, Ha. Qed.

Lemma github_match_skip c s :
  starts_with "github.com/" (String c s) = false →
  github_match (String c s) = github_match s.
Proof. intros Hs. cbn [github_match]. by rewrite Hs. Qed.

Lemma strip_git_suffix repo : strip_git (repo +:+ ".git") = repo.
Proof.
  induction repo as [|c repo IH]; [done|].
  change (String c repo +:+ ".git") with (String c (repo +:+ ".git")).
  cbn [strip_git]. rewrite IH. case_bool_decide as Hs; [|done].
  exfalso. injection Hs as _ Hs. apply (f_equal String.length) in Hs.
  rewrite length_append in Hs. simpl in Hs. lia.
Qed.

Lemma slash_free_app a b : slash_free a → slash_free b → slash_free (a +:+ b).
Proof.
  unfold slash_free. induction a as [|c a IH]; simpl; [done|].
  rewrite !not_elem_of_cons. intros [??] ?. auto.
Qed.

(** X3: for a repository address [https://github.com/OWNER/REPO], alone
    or followed by a slash and anything (a [tree] path, say), the URLs
    are the eight raw ones of that owner and repository, the four paths
    on [main] before the four on [master], with one closing [.git] of the
    repository name left out; so the clone address
    [https://github.com/OWNER/REPO.git] gives the URLs of [REPO]. *)
Theorem getGitHubRawUrls_repository (owner repo rest : string) :
  slash_free owner → slash_free repo → owner ≠ "" → repo ≠ "" →
  (rest = "" ∨ ∃ rest', rest = String "/" rest') →
  getGitHubRawUrls ("https://github.com/" +:+ owner +:+ "/" +:+ repo +:+ rest)
  = repository_urls owner (strip_git repo) ∧
  getGitHubRawUrls ("https://github.com/" +:+ owner +:+ "/" +:+ repo +:+ ".git")
  = repository_urls owner repo.
Proof.
  intros Ho Hr Hno Hnr Hrest.
  assert (Hm : ∀ repo' rest', slash_free repo' → repo' ≠ "" →
    (rest' = "" ∨ ∃ r, rest' = String "/" r) →
    github_match ("https://github.com/" +:+ owner +:+ "/" +:+ repo' +:+ rest')
    = Some (owner, repo')).
  { intros repo' rest' Hr' Hnr' Hrest'.
    change ("https://github.com/" +:+ owner +:+ "/" +:+ repo' +:+ rest')
      with ("https://" +:+ "github.com/" +:+ (owner +:+ "/" +:+ repo' +:+ rest')).
    pose proof (owner_repo_at_names owner repo' rest' Ho Hr' Hno Hnr' Hrest') as Ha.
    revert Ha. generalize (owner +:+ "/" +:+ repo' +:+ rest'). intros x Ha.
    change ("https://" +:+ "github.com/" +:+ x)
      with (String "h" (String "t" (String "t" (String "p" (String "s"
             (String ":" (String "/" (String "/" ("github.com/" +:+ x))))))))).
    rewrite !github_match_skip by done.
    by apply (github_match_here _ owner repo' rest'). }
  split.
  - unfold getGitHubRawUrls. by rewrite Hm.
  - unfold getGitHubRawUrls.
    rewrite <- (append_empty_r (repo +:+ ".git")).
    rewrite Hm; [by rewrite strip_git_suffix | | |by left].
    + apply slash_free_app; [done|]. unfold slash_free. simpl.
      rewrite !not_elem_of_cons. split_and!; try done. apply not_elem_of_nil.
    + by destruct repo.
Qed.

Lemma getGitHubRawUrls_repository_witness :
  getGitHubRawUrls ("https://github.com/" +:+ "acme" +:+ "/" +:+ "widgets.git"
                      +:+ "/tree/main")
  = repository_urls "acme" (strip_git "widgets.git") ∧
  getGitHubRawUrls ("https://github.com/" +:+ "acme" +:+ "/" +:+ "widgets.git"
                      +:+ ".git")
  = repository_urls "acme" "widgets.git".
Proof.
  apply getGitHubRawUrls_repository; try done.
  - unfold slash_free. simpl. rewrite !not_elem_of_cons.
    split_and!; try done. apply not_elem_of_nil.
  - unfold slash_free. simpl. rewrite !not_elem_of_cons.
    split_and!; try done. apply not_elem_of_nil.
  - right. by eexists.
Defined.

(** ** List edits, composed *)

Lemma delete_last {A} (l : list A) (x : A) : delete (length l) (l ++ [x]) = l.
Proof. induction l as [|a l IH]; [done|]. simpl. by rewrite IH. Qed.

Lemma splice1_last items x :
  splice1 (items ++ [x]) (Z.of_nat (length items)) = items ∧
  splice1 (items ++ [x]) (-1) = items.
Proof.
  split.
  - rewrite splice1_in_range by (rewrite length_app; simpl; lia).
    rewrite Nat2Z.id. apply delete_last.
  - rewrite splice1_negative by lia. rewrite length_app. simpl.
    replace (Z.to_nat _) with (length items) by lia. apply delete_last.
Qed.

(** X4: removing the item that [addToArray] has just appended gives the
    document back, by its index or by [-1], for a list at the top level
    and for a list inside a parent object.  When the key was absent the
    document is not given back: the list that [addToArray] created stays,
    empty.  The keys are [plain_key]s. *)
Theorem addToArray_then_removeFromArray (ps : list (string * value)) :
  (∀ key items index, plain_key key = true → includes_dot key = false →
     lookup_prop key ps = Some (JArr items) →
     index = Z.of_nat (length items) ∨ index = (-1)%Z →
     (d ← addToArray (JObj ps) key; removeFromArray d key index)
     = Ok (JObj ps)) ∧
  (∀ parent child qs items index,
     plain_key parent = true → plain_key child = true →
     includes_dot parent = false → includes_dot child = false →
     parent ≠ "" → child ≠ "" →
     lookup_prop parent ps = Some (JObj qs) →
     lookup_prop child qs = Some (JArr items) →
     index = Z.of_nat (length items) ∨ index = (-1)%Z →
     (d ← addToArray (JObj ps) (parent +:+ "." +:+ child);
      removeFromArray d (parent +:+ "." +:+ child) index)
     = Ok (JObj ps)) ∧
  (∀ key index, plain_key key = true → includes_dot key = false →
     lookup_prop key ps = None →
     index = 0%Z ∨ index = (-1)%Z →
     (d ← addToArray (JObj ps) key; removeFromArray d key index)
     = Ok (JObj (ps ++ [(key, JArr [])]))).
Proof.
  split_and!.
  - intros key items index _ Hdot Hk Hi.
    rewrite (addToArray_top_list ps key items Hdot Hk), bind_Ok.
    rewrite removeFromArray_top by done. rewrite lookup_set_prop_eq.
    rewrite set_prop_twice.
    destruct (splice1_last items empty_item) as [H1 H2].
    destruct Hi as [-> | ->]; rewrite ?H1, ?H2; by rewrite set_prop_same.
  - intros parent child qs items index _ _ Hp Hc Hpne Hcne Hk Hq Hi.
    rewrite (addToArray_nested_list ps parent child Hp Hc Hpne Hcne qs items Hk Hq).
    rewrite bind_Ok.
    rewrite (removeFromArray_nested _ parent child index
               (set_prop child (JArr (items ++ [empty_item])) qs))
      by (done || apply lookup_set_prop_eq).
    rewrite lookup_set_prop_eq, !set_prop_twice.
    destruct (splice1_last items empty_item) as [H1 H2].
    destruct Hi as [-> | ->]; rewrite ?H1, ?H2;
      by rewrite (set_prop_same child), set_prop_same.
  - intros key index _ Hdot Hk Hi.
    rewrite (addToArray_top_absent ps key Hdot Hk), bind_Ok.
    rewrite removeFromArray_top by done.
    rewrite <- (set_prop_fresh key (JArr [empty_item]) ps Hk).
    rewrite lookup_set_prop_eq, set_prop_twice.
    rewrite <- (set_prop_fresh key (JArr []) ps Hk).
    by destruct Hi as [-> | ->].
Qed.

Lemma split_dot_trailing p :
  includes_dot p = false →
  part (split_dot (p +:+ ".")) 0 = p ∧ part (split_dot (p +:+ ".")) 1 = "".
Proof.
  intros Hp. destruct (path_parts p "" Hp eq_refl) as [H0 H1].
  rewrite append_empty_r in H0, H1. by rewrite H0, H1.
Qed.

(** X5: what [addToArray] does when the key does not lead to a list.  At
    the top level a value that is there and is not a list (a string, a
    number, an object, [null]) is left alone and nothing is added.  Under
    a parent the code does not test for a list: a truthy child that is
    not a list makes [push] throw, and so does a parent that is a truthy
    primitive.  A key with a dot and nothing before or after it changes
    nothing. *)
Theorem addToArray_without_list (ps : list (string * value)) :
  (∀ key v, includes_dot key = false → lookup_prop key ps = Some v →
     is_undefined v = false → is_array v = false →
     addToArray (JObj ps) key = Ok (JObj ps)) ∧
  (∀ parent child qs v,
     includes_dot parent = false → includes_dot child = false →
     parent ≠ "" → child ≠ "" →
     lookup_prop parent ps = Some (JObj qs) →
     lookup_prop child qs = Some v → truthy v = true → is_array v = false →
     addToArray (JObj ps) (parent +:+ "." +:+ child) = TypeError) ∧
  (∀ parent child v,
     includes_dot parent = false → includes_dot child = false →
     parent ≠ "" → child ≠ "" →
     lookup_prop parent ps = Some v → truthy v = true →
     (∃ b, v = JBool b) ∨ (∃ n, v = JNum n) →
     addToArray (JObj ps) (parent +:+ "." +:+ child) = TypeError) ∧
  (∀ name, includes_dot name = false →
     addToArray (JObj ps) (name +:+ ".") = Ok (JObj ps) ∧
     addToArray (JObj ps) ("." +:+ name) = Ok (JObj ps)).
Proof.
  split_and!.
  - intros key v Hdot Hk Hu Ha. unfold addToArray. rewrite Hdot. simpl.
    rewrite Hk. simpl. rewrite Hu. simpl. rewrite Hk. simpl. by destruct v.
  - intros parent child qs v Hp Hc Hpne Hcne Hk Hq Ht Ha.
    rewrite (addToArray_nested_unfold ps parent child Hp Hc Hpne Hcne).
    simpl. rewrite Hk. simpl. rewrite Hk. simpl. rewrite Hq. simpl.
    rewrite Ht. simpl. rewrite Hq. simpl. by destruct v.
  - intros parent child v Hp Hc Hpne Hcne Hk Ht Hv.
    rewrite (addToArray_nested_unfold ps parent child Hp Hc Hpne Hcne).
    simpl. rewrite Hk. simpl. rewrite Ht. simpl. rewrite Hk. simpl.
    by destruct Hv as [[b ->]|[n ->]].
  - intros name Hdot. split.
    + unfold addToArray. pose proof (includes_dot_path name "") as Hd.
      rewrite append_empty_r in Hd. rewrite Hd.
      destruct (split_dot_trailing name Hdot) as [_ ->].
      by rewrite orb_true_r.
    + unfold addToArray.
      change ("." +:+ name) with ("" +:+ "." +:+ name).
      rewrite (includes_dot_path "" name).
      by destruct (path_parts "" name eq_refl Hdot) as [-> _].
Qed.

(** ** What Export writes *)

Lemma keep_item_filter items :
  Forall (λ w, w ≠ JStr "" ∧ w ≠ JNull ∧ w ≠ JUndef)
    (filter (λ w, Is_true (keep_item w)) items).
Proof.
  apply Forall_forall. intros w [Hw _]%list_elem_of_filter.
  destruct w as [| | | |s| |]; simpl in Hw; try done.
  split_and!; try done. intros [= ->]. done.
Qed.

(** X6: [cleanArray] on a list keeps exactly the items that are not the
    empty string, [null] or [undefined], in their order; cleaning again
    changes nothing; a list without such items is returned as it is; and
    on anything that is not a list ([filter] is an array method) it
    throws. *)
Theorem cleanArray_keeps_filled_items (items : list value) :
  ∃ kept,
    cleanArray (JArr items) = Ok kept ∧
    kept `sublist_of` items ∧
    (∀ w, w ∈ kept ↔ w ∈ items ∧ w ≠ JStr "" ∧ w ≠ JNull ∧ w ≠ JUndef) ∧
    cleanArray (JArr kept) = Ok kept ∧
    (Forall (λ w, w ≠ JStr "" ∧ w ≠ JNull ∧ w ≠ JUndef) items → kept = items) ∧
    (∀ v, is_array v = false → cleanArray v = TypeError).
Proof.
  exists (filter (λ w, Is_true (keep_item w)) items). split_and!.
  - done.
  - apply sublist_filter.
  - intros w. rewrite list_elem_of_filter. split.
    + intros [Hw ?]. split; [done|].
      destruct w as [| | | |s| |]; simpl in Hw; try done.
      split_and!; try done. intros [= ->]. done.
    + intros (? & Hs & Hn & Hu). split; [|done].
      destruct w as [| | | |s| |]; simpl; try done.
      case_bool_decide; [by subst|done].
  - simpl. f_equal. apply list_filter_filter_l. done.
  - intros Hall. induction Hall as [|w items (Hs & Hn & Hu) _ IH]; [done|].
    rewrite filter_cons_True; [by rewrite IH|].
    destruct w as [| | | |s| |]; simpl; try done.
    case_bool_decide; [by subst|done].
  - by intros [].
Qed.

Lemma cleaned_list_filled v :
  Forall (λ w, w ≠ JStr "" ∧ w ≠ JNull ∧ w ≠ JUndef) (cleaned_list v).
Proof.
  unfold cleaned_list. destruct (js_or v (JArr [])); try by constructor.
  apply keep_item_filter.
Qed.

Lemma cleaned_list_absent N k :
  lookup_prop k N = None → nonempty (cleaned_list (get N k)) = false.
Proof. unfold get. by intros ->. Qed.

Section cleaned_rule.
Context (N : list (string * value)).

#[local] Abbreviation cleaned_rule :=
  (emitted_fields N
     (cleaned_list (get N "matchManagers"))
     (cleaned_list (get N "matchDatasources"))
     (cleaned_list (get N "matchFileNames"))
     (cleaned_list (get N "matchUpdateTypes"))
     (cleaned_list (get N "matchDepTypes"))
   ++ copied_fields N).

Lemma lookup_cleaned_rule_other k :
  k ∉ rule_fields →
  lookup_prop k cleaned_rule
  = if bool_decide (k = "__proto__") then None else lookup_prop k N.
Proof.
  intros Hk. rewrite lookup_prop_app, lookup_copied_fields.
  rewrite bool_decide_eq_false_2 by done.
  destruct (lookup_prop k (emitted_fields _ _ _ _ _ _)) eqn:Hl; [|done].
  exfalso. apply Hk, (exported_fixed_keys N).
  apply lookup_prop_Some_elem in Hl. by apply (list_elem_of_fmap_2 fst) in Hl.
Qed.

Lemma lookup_cleaned_rule_list k :
  k ∈ match_fields →
  lookup_prop k cleaned_rule =
  if nonempty (cleaned_list (get N k))
  then Some (JArr (cleaned_list (get N k))) else None.
Proof.
  intros Hk. rewrite lookup_prop_app, lookup_copied_fields.
  unfold match_fields in Hk.
  repeat (apply elem_of_cons in Hk as [->|Hk]); [..|by apply elem_of_nil in Hk];
    unfold emitted_fields; rewrite !lookup_set_if; decide_keys;
    rewrite ?andb_false_r, ?andb_true_r; by destruct (nonempty _).
Qed.

Lemma lookup_cleaned_rule_text k :
  k = "groupName" ∨ k = "matchCurrentVersion" →
  lookup_prop k cleaned_rule =
  if truthy (get N k) then Some (get N k) else None.
Proof.
  rewrite lookup_prop_app, lookup_copied_fields.
  intros [-> | ->]; unfold emitted_fields; rewrite !lookup_set_if; decide_keys;
    rewrite ?andb_false_r, ?andb_true_r; by destruct (truthy _).
Qed.

Lemma lookup_cleaned_rule_automerge :
  lookup_prop "automerge" cleaned_rule =
  (if is_undefined (get N "automerge") then None else Some (get N "automerge")) ∧
  lookup_prop "automergeType" cleaned_rule =
  (if is_true (get N "automerge") && truthy (get N "automergeType")
   then Some (get N "automergeType") else None).
Proof.
  rewrite !lookup_prop_app, !lookup_copied_fields.
  rewrite lookup_emitted_automerge, lookup_emitted_automergeType. decide_keys.
  split; [by destruct (is_undefined _)|by destruct (_ && _)].
Qed.

Lemma cleaned_rule_keys k : k ∈ cleaned_rule.*1 → k ∈ N.*1.
Proof.
  intros Hk. apply dec_stable. intros Hn.
  apply lookup_prop_None in Hn as Hnone.
  assert (Hget : get N k = JUndef) by (unfold get; by rewrite Hnone).
  apply (proj1 (lookup_prop_None k cleaned_rule)); [|done].
  destruct (decide (k ∈ rule_fields)) as [Hf|Hf];
    [|rewrite lookup_cleaned_rule_other by done; by case_bool_decide].
  unfold rule_fields in Hf.
  repeat (apply elem_of_cons in Hf as [->|Hf]); [..|by apply elem_of_nil in Hf].
  - rewrite lookup_cleaned_rule_text by auto. by rewrite Hget.
  - rewrite lookup_cleaned_rule_list by (unfold match_fields; repeat constructor).
    by rewrite Hget.
  - rewrite lookup_cleaned_rule_list by (unfold match_fields; repeat constructor).
    by rewrite Hget.
  - rewrite lookup_cleaned_rule_list by (unfold match_fields; repeat constructor).
    by rewrite Hget.
  - rewrite lookup_cleaned_rule_list by (unfold match_fields; repeat constructor).
    by rewrite Hget.
  - rewrite lookup_cleaned_rule_list by (unfold match_fields; repeat constructor).
    by rewrite Hget.
  - rewrite lookup_cleaned_rule_text by auto. by rewrite Hget.
  - destruct lookup_cleaned_rule_automerge as [-> _]. by rewrite Hget.
  - destruct lookup_cleaned_rule_automerge as [_ ->]. rewrite Hget.
    by rewrite andb_false_r.
Qed.
End cleaned_rule.

(** X7: what the export of a rule holds.  For a rule with distinct keys
    whose match fields are lists or falsy, [clean_rule] returns an
    object in which a match field is present exactly when its list keeps
    an item after the empty strings, [null]s and [undefined]s are taken
    out, and then holds the kept items; [groupName] and
    [matchCurrentVersion] are present exactly when truthy, with their
    value; every field outside [rule_fields] other than [__proto__] is
    as in the rule, empty or not; [__proto__] is never there; and no key
    is there that the rule did not have. *)
Theorem clean_rule_minimal (N : list (string * value)) :
  NoDup N.*1 → Forall (λ k, list_or_falsy (get N k) = true) match_fields →
  ∃ o, clean_rule (JObj N) = Ok (JObj o) ∧
    (∀ k, k ∈ match_fields →
       lookup_prop k o =
         (if nonempty (cleaned_list (get N k))
          then Some (JArr (cleaned_list (get N k))) else None) ∧
       Forall (λ w, w ≠ JStr "" ∧ w ≠ JNull ∧ w ≠ JUndef)
         (cleaned_list (get N k))) ∧
    (∀ k, k = "groupName" ∨ k = "matchCurrentVersion" →
       lookup_prop k o = if truthy (get N k) then Some (get N k) else None) ∧
    (∀ k, k ∉ rule_fields → k ≠ "__proto__" →
       lookup_prop k o = lookup_prop k N) ∧
    lookup_prop "__proto__" o = None ∧
    (∀ k, k ∈ o.*1 → k ∈ N.*1).
Proof.
  intros Hnd Hall. rewrite (clean_rule_closed N Hnd Hall).
  eexists. split; [done|]. split_and!.
  - intros k Hk. split; [by apply lookup_cleaned_rule_list|].
    apply cleaned_list_filled.
  - apply lookup_cleaned_rule_text.
  - intros k Hk Hp. rewrite lookup_cleaned_rule_other by done.
    by rewrite bool_decide_eq_false_2.
  - by rewrite lookup_cleaned_rule_other by (by apply (bool_decide_unpack _)).
  - apply cleaned_rule_keys.
Qed.

Lemma clean_rule_minimal_witness :
  ∃ o, clean_rule (JObj sparse_rule) = Ok (JObj o) ∧
    (∀ k, k ∈ match_fields →
       lookup_prop k o =
         (if nonempty (cleaned_list (get sparse_rule k))
          then Some (JArr (cleaned_list (get sparse_rule k))) else None) ∧
       Forall (λ w, w ≠ JStr "" ∧ w ≠ JNull ∧ w ≠ JUndef)
         (cleaned_list (get sparse_rule k))) ∧
    (∀ k, k = "groupName" ∨ k = "matchCurrentVersion" →
       lookup_prop k o
       = if truthy (get sparse_rule k) then Some (get sparse_rule k) else None) ∧
    (∀ k, k ∉ rule_fields → k ≠ "__proto__" →
       lookup_prop k o = lookup_prop k sparse_rule) ∧
    lookup_prop "__proto__" o = None ∧
    (∀ k, k ∈ o.*1 → k ∈ sparse_rule.*1).
Proof.
  apply clean_rule_minimal.
  - by apply (bool_decide_unpack _).
  - repeat constructor.
Defined.

Example clean_rule_drops_proto :
  clean_rule (JObj [("__proto__", JObj [("polluted", JBool true)]);
                    ("description", JStr "d")])
  = Ok (JObj [("description", JStr "d")]).
Proof. reflexivity. Qed.

Example clean_rule_sparse :
  clean_rule (JObj sparse_rule)
  = Ok (JObj [("matchManagers", JArr [JStr "npm"]); ("description", JStr "")]).
Proof. reflexivity. Qed.

(** ** Rules that make Load or Export throw *)

Lemma cleanArray_cases v : (∃ l, cleanArray v = Ok l) ∨ cleanArray v = TypeError.
Proof. destruct v; simpl; eauto. Qed.

Lemma cleanArray_not_list v :
  truthy v = true → is_array v = false →
  cleanArray (js_or v (JArr [])) = TypeError.
Proof. unfold js_or. intros -> Ha. by destruct v. Qed.

Lemma clean_rule_bad_list m k :
  k ∈ match_fields → truthy (get m k) = true → is_array (get m k) = false →
  clean_rule (JObj m) = TypeError.
Proof.
  intros Hk Ht Ha. rewrite clean_rule_obj.
  pose proof (cleanArray_not_list _ Ht Ha) as Hbad. unfold match_fields in Hk.
  destruct (cleanArray_cases (js_or (get m "matchManagers") (JArr [])))
    as [[l1 H1]| H1];
  destruct (cleanArray_cases (js_or (get m "matchDatasources") (JArr [])))
    as [[l2 H2]| H2];
  destruct (cleanArray_cases (js_or (get m "matchFileNames") (JArr [])))
    as [[l3 H3]| H3];
  destruct (cleanArray_cases (js_or (get m "matchUpdateTypes") (JArr [])))
    as [[l4 H4]| H4];
  destruct (cleanArray_cases (js_or (get m "matchDepTypes") (JArr [])))
    as [[l5 H5]| H5];
  rewrite ?H1, ?H2, ?H3, ?H4, ?H5; try done.
  exfalso.
  repeat (apply elem_of_cons in Hk as [->|Hk]); [..|by apply elem_of_nil in Hk];
    congruence.
Qed.

Lemma map_result_throws {A B} (f : A → result B) l a :
  (∀ x, (∃ b, f x = Ok b) ∨ f x = TypeError) →
  a ∈ l → f a = TypeError → map_result f l = TypeError.
Proof.
  intros Hf Ha Hfa. induction Ha as [a l|a a' l _ IH]; simpl.
  - by rewrite Hfa.
  - destruct (Hf a') as [[b ->]| ->]; [|done]. simpl. by rewrite IH.
Qed.

Lemma copy_other_fields_returns rule keys o :
  rule ≠ JNull → rule ≠ JUndef → ∃ o', copy_other_fields rule keys o = Ok o'.
Proof.
  intros Hn Hu. revert o. induction keys as [|key keys IH]; intros o; simpl;
    [eauto|].
  case_bool_decide; [apply IH|].
  destruct rule; try done; simpl; apply IH.
Qed.

Lemma clean_rule_cases rule :
  (∃ c, clean_rule rule = Ok c) ∨ clean_rule rule = TypeError.
Proof.
  assert (Hn : rule = JNull ∨ rule = JUndef ∨ (rule ≠ JNull ∧ rule ≠ JUndef)).
  { destruct rule; auto. }
  destruct Hn as [->|[->|[Hn Hu]]]; [by right..|].
  unfold clean_rule.
  assert (Hg : ∀ k, get_prop rule k = Ok (match get_prop rule k with
                                          | Ok v => v | _ => JUndef end)).
  { intros k. by destruct rule. }
  rewrite (Hg "groupName"), (Hg "matchManagers"), (Hg "matchDatasources"),
    (Hg "matchFileNames"), (Hg "matchUpdateTypes"), (Hg "matchDepTypes"),
    (Hg "matchCurrentVersion"), (Hg "automerge"), (Hg "automergeType").
  cbn [mbind result_bind].
  repeat match goal with
  | |- context [cleanArray ?v] =>
      destruct (cleanArray_cases v) as [[? ->]| ->]; cbn [mbind result_bind];
      [|by right]
  end.
  match goal with
  | |- context [copy_other_fields rule ?keys ?o] =>
      destruct (copy_other_fields_returns rule keys o Hn Hu) as [o' ->]
  end.
  left. by eexists.
Qed.

Lemma normalize_rule_returns rule :
  rule ≠ JNull → rule ≠ JUndef → ∃ r, normalize_rule rule = Ok r.
Proof. intros Hn Hu. destruct rule; try done; by eexists. Qed.

Lemma map_result_returns {A B} (f : A → result B) l :
  Forall (λ a, ∃ b, f a = Ok b) l → ∃ l', map_result f l = Ok l'.
Proof.
  induction 1 as [|a l [b Hb] _ [l' IH]]; simpl; [eauto|].
  rewrite Hb, IH. simpl. eauto.
Qed.

Lemma normalize_rule_cases rule :
  (∃ r, normalize_rule rule = Ok r) ∨ normalize_rule rule = TypeError.
Proof. destruct rule; simpl; eauto. Qed.

(** X8: Load and Export by the shape of [packageRules] in the copy of an
    object.  When it is absent or falsy ([null], [0], the empty string)
    both return the copy.  When it is truthy and not a list ([map] is an
    array method) both throw.  When it is a list, a [null] among the
    rules makes both throw; Load returns for every list without [null];
    Export also throws on a rule with a match field that is truthy and
    not a list, such as [matchManagers: "npm"], which Load accepts. *)
Theorem packageRules_shapes (ps : list (string * value)) :
  let packageRules := get (clone_props ps) "packageRules" in
  (truthy packageRules = false →
     cleanConfig (JObj ps) = Ok (JObj (clone_props ps)) ∧
     normalize (JObj ps) = Ok (JObj (clone_props ps))) ∧
  (truthy packageRules = true → is_array packageRules = false →
     cleanConfig (JObj ps) = TypeError ∧ normalize (JObj ps) = TypeError) ∧
  (∀ rules, packageRules = JArr rules →
     (JNull ∈ rules →
        cleanConfig (JObj ps) = TypeError ∧ normalize (JObj ps) = TypeError) ∧
     (Forall (λ r, r ≠ JNull ∧ r ≠ JUndef) rules →
        ∃ t', normalize (JObj ps) = Ok t') ∧
     (∀ m k, JObj m ∈ rules → k ∈ match_fields →
        truthy (get m k) = true → is_array (get m k) = false →
        cleanConfig (JObj ps) = TypeError)).
Proof.
  intros packageRules. unfold cleanConfig, normalize, json_roundtrip.
  rewrite clone_obj, !bind_Ok, get_prop_obj, !bind_Ok. fold packageRules.
  split_and!.
  - by intros ->.
  - intros -> Ha. by destruct packageRules.
  - intros rules ->. cbn [truthy js_map]. split_and!.
    + intros Hnull. split.
      * by rewrite (map_result_throws clean_rule rules JNull clean_rule_cases).
      * by rewrite (map_result_throws normalize_rule rules JNull
                      normalize_rule_cases).
    + intros Hall. destruct (map_result_returns normalize_rule rules) as [l' ->].
      * eapply Forall_impl; [exact Hall|]. intros r [??].
        by apply normalize_rule_returns.
      * simpl. eauto.
    + intros m k Hm Hk Ht Ha.
      rewrite (map_result_throws clean_rule rules (JObj m) clean_rule_cases);
        [done..|]. by eapply clean_rule_bad_list.
Qed.

(** X9: a Load or an Export that returns keeps the number and the
    order of the rules: the list under [packageRules] in the result has
    one rule for each rule of the copy, made from that rule by
    [normalize_rule] or [clean_rule]; no rule is dropped, not even one
    that exports as the empty object. *)
Theorem rules_kept_one_for_one (ps : list (string * value)) (rules : list value) :
  get (clone_props ps) "packageRules" = JArr rules →
  (∀ t', normalize (JObj ps) = Ok t' →
     ∃ ps' rules', t' = JObj ps' ∧ get ps' "packageRules" = JArr rules' ∧
       length rules' = length rules ∧
       Forall2 (λ rule rule', normalize_rule rule = Ok rule') rules rules') ∧
  (∀ t', cleanConfig (JObj ps) = Ok t' →
     ∃ ps' rules', t' = JObj ps' ∧ get ps' "packageRules" = JArr rules' ∧
       length rules' = length rules ∧
       Forall2 (λ rule rule', clean_rule rule = Ok rule') rules rules') ∧
  clean_rule (JObj [("groupName", JStr ""); ("matchManagers", JArr [])])
  = Ok (JObj []).
Proof.
  intros Hpr. unfold cleanConfig, normalize, json_roundtrip.
  rewrite clone_obj, !bind_Ok, get_prop_obj, !bind_Ok, Hpr.
  cbn [truthy js_map]. split_and!; [| |done].
  - intros t'. destruct (map_result normalize_rule rules) as [rules'| | |] eqn:Hm;
      try done.
    simpl. intros [= <-]. eexists _, rules'. split; [done|].
    apply map_result_inv in Hm. split_and!; [|by erewrite <- Forall2_length|done].
    unfold get. by rewrite lookup_set_prop_eq.
  - intros t'. destruct (map_result clean_rule rules) as [rules'| | |] eqn:Hm;
      try done.
    simpl. intros [= <-]. eexists _, rules'. split; [done|].
    apply map_result_inv in Hm. split_and!; [|by erewrite <- Forall2_length|done].
    unfold get. by rewrite lookup_set_prop_eq.
Qed.

Lemma rules_kept_one_for_one_witness :
  (∀ t', normalize loaded_document = Ok t' →
     ∃ ps' rules', t' = JObj ps' ∧ get ps' "packageRules" = JArr rules' ∧
       length rules' = length loaded_rules ∧
       Forall2 (λ rule rule', normalize_rule rule = Ok rule') loaded_rules rules') ∧
  (∀ t', cleanConfig loaded_document = Ok t' →
     ∃ ps' rules', t' = JObj ps' ∧ get ps' "packageRules" = JArr rules' ∧
       length rules' = length loaded_rules ∧
       Forall2 (λ rule rule', clean_rule rule = Ok rule') loaded_rules rules') ∧
  clean_rule (JObj [("groupName", JStr ""); ("matchManagers", JArr [])])
  = Ok (JObj []).
Proof.
  apply (rules_kept_one_for_one
           [("timezone", JStr "Europe/Berlin");
            ("packageRules", JArr loaded_rules)] loaded_rules).
  reflexivity.
Defined.

(** ** Edits on the store *)

Section runs.
Implicit Types (h : list Store.cell) (l : Store.loc) (v : Store.rvalue).

Lemma run_get_obj h l ps k :
  h !! l = Some (Store.CObj ps) →
  Store.get_prop (Store.RRef l) k h
  = (Ok (default Store.RUndef (lookup_prop k ps)), h).
Proof. intros Hl. simpl. rewrite M_bind_unfold. unfold Store.read. by rewrite Hl. Qed.

Lemma run_get_arr h l items k :
  h !! l = Some (Store.CArr items) →
  Store.get_prop (Store.RRef l) k h = (Ok (Store.get_indexed k items), h).
Proof. intros Hl. simpl. rewrite M_bind_unfold. unfold Store.read. by rewrite Hl. Qed.

Lemma run_assign_obj h l ps k v :
  h !! l = Some (Store.CObj ps) →
  Store.assign (Store.RRef l) k v h
  = (Ok (), <[l := Store.CObj (set_prop k v ps)]> h).
Proof. intros Hl. simpl. rewrite M_bind_unfold. unfold Store.read. by rewrite Hl. Qed.

Lemma run_push h l items v :
  h !! l = Some (Store.CArr items) →
  Store.js_push (Store.RRef l) v h
  = (Ok (), <[l := Store.CArr (items ++ [v])]> h).
Proof. intros Hl. simpl. rewrite M_bind_unfold. unfold Store.read. by rewrite Hl. Qed.

Lemma run_splice h l items index :
  h !! l = Some (Store.CArr items) →
  Store.js_splice1 (Store.RRef l) index h
  = (Ok (), <[l := Store.CArr (delete (splice_start (length items) index) items)]> h).
Proof. intros Hl. simpl. rewrite M_bind_unfold. unfold Store.read. by rewrite Hl. Qed.

Lemma run_if_array_list h l items (m : Store.M ()) :
  h !! l = Some (Store.CArr items) →
  Store.if_array (Store.RRef l) m h = m h.
Proof.
  intros Hl. unfold Store.if_array. rewrite M_bind_unfold. simpl.
  rewrite M_bind_unfold. unfold Store.read. by rewrite Hl.
Qed.

Lemma run_delete_obj h l ps k :
  h !! l = Some (Store.CObj ps) →
  Store.delete_field (Store.RRef l) k h
  = (Ok (), <[l := Store.CObj (delete_prop k ps)]> h).
Proof. intros Hl. simpl. rewrite M_bind_unfold. unfold Store.read. by rewrite Hl. Qed.
End runs.

Lemma run_new_rule (h : list Store.cell) (f : Store.rvalue → Store.M ()) :
  (matchManagers ← Store.alloc (Store.CArr []);
   matchDatasources ← Store.alloc (Store.CArr []);
   matchFileNames ← Store.alloc (Store.CArr []);
   matchUpdateTypes ← Store.alloc (Store.CArr []);
   matchDepTypes ← Store.alloc (Store.CArr []);
   rule ← Store.alloc (Store.CObj
     [("groupName", Store.RStr "");
      ("matchManagers", matchManagers);
      ("matchDatasources", matchDatasources);
      ("matchFileNames", matchFileNames);
      ("matchUpdateTypes", matchUpdateTypes);
      ("matchDepTypes", matchDepTypes);
      ("matchCurrentVersion", Store.RStr "");
      ("automergeType", Store.RStr "branch")]);
   f rule) h
  = f (Store.RRef (length h + 5)) (h ++ Store.new_rule_cells (length h)).
Proof.
  rewrite !M_bind_unfold. unfold Store.alloc. cbv beta iota.
  rewrite !M_bind_unfold. cbv beta iota.
  rewrite !length_app. simpl length.
  rewrite <- !(assoc_L (++)). simpl app. unfold Store.new_rule_cells.
  replace (length h + 1 + 1 + 1 + 1 + 1) with (length h + 5) by lia.
  replace (length h + 1 + 1 + 1 + 1) with (length h + 4) by lia.
  replace (length h + 1 + 1 + 1) with (length h + 3) by lia.
  replace (length h + 1 + 1) with (length h + 2) by lia.
  reflexivity.
Qed.

(** X10: [addPackageRule] on a document that is an object.  When
    [packageRules] is a list, the only cell that changes is that list,
    which gets one more item at its end: a new object with the eight
    fields of the source literal, [groupName] and [matchCurrentVersion]
    empty, [automergeType] [branch], no [automerge], and five match lists
    that are five different new empty lists, so a later [push] into one
    of them is not seen in another.  When [packageRules] is absent or
    falsy, a new list is stored under [packageRules] first and holds the
    new rule. *)
Theorem addPackageRule_appends (h : list Store.cell) (l : Store.loc)
    (ps : list (string * Store.rvalue)) :
  h !! l = Some (Store.CObj ps) →
  (∀ a rules,
     lookup_prop "packageRules" ps = Some (Store.RRef a) →
     h !! a = Some (Store.CArr rules) →
     Store.addPackageRule (Store.RRef l) h
     = (Ok (),
        <[a := Store.CArr (rules ++ [Store.RRef (length h + 5)])]>
          (h ++ Store.new_rule_cells (length h)))) ∧
  (Store.truthy (default Store.RUndef (lookup_prop "packageRules" ps)) = false →
     Store.addPackageRule (Store.RRef l) h
     = (Ok (),
        <[length h := Store.CArr [Store.RRef (length h + 6)]]>
          (<[l := Store.CObj (set_prop "packageRules" (Store.RRef (length h)) ps)]>
             (h ++ [Store.CArr []])
           ++ Store.new_rule_cells (length h + 1)))).
Proof.
  intros Hl. split.
  - intros a rules Hpr Ha. unfold Store.addPackageRule.
    rewrite (M_bind_ok _ _ _ _ _ (run_get_obj h l ps "packageRules" Hl)).
    rewrite Hpr. cbn [default Store.truthy].
    rewrite (M_bind_ok _ _ h () h) by done.
    rewrite (M_bind_ok _ _ _ _ _ (run_get_obj h l ps "packageRules" Hl)).
    rewrite Hpr. cbn [default]. rewrite run_new_rule.
    apply run_push. by apply lookup_app_l_Some.
  - intros Hpr. unfold Store.addPackageRule.
    pose proof (lookup_lt_Some _ _ _ Hl) as Hlt.
    rewrite (M_bind_ok _ _ _ _ _ (run_get_obj h l ps "packageRules" Hl)).
    rewrite Hpr.
    set (h1 := <[l := Store.CObj (set_prop "packageRules" (Store.RRef (length h)) ps)]>
                 (h ++ [Store.CArr []])).
    assert (Hh1 : length h1 = length h + 1).
    { unfold h1. rewrite length_insert, length_app. done. }
    assert (Hl1 : h1 !! l = Some (Store.CObj (set_prop "packageRules"
                                     (Store.RRef (length h)) ps))).
    { unfold h1. apply list_lookup_insert_eq. rewrite length_app. lia. }
    rewrite (M_bind_ok _ _ h () h1).
    2:{ rewrite M_bind_unfold. unfold Store.alloc. cbv beta iota.
        apply run_assign_obj. by apply lookup_app_l_Some. }
    rewrite (M_bind_ok _ _ _ _ _ (run_get_obj h1 l _ "packageRules" Hl1)).
    rewrite lookup_set_prop_eq. cbn [default]. rewrite run_new_rule.
    rewrite Hh1. replace (length h + 1 + 5) with (length h + 6) by lia.
    apply (run_push _ _ []). apply lookup_app_l_Some. unfold h1.
    rewrite list_lookup_insert_ne by lia. apply lookup_new.
Qed.

Lemma addPackageRule_appends_witness :
  (∀ a rules,
     lookup_prop "packageRules"
       [("timezone", Store.RStr "Europe/Berlin"); ("packageRules", Store.RRef 2)]
     = Some (Store.RRef a) →
     loaded_store !! a = Some (Store.CArr rules) →
     Store.addPackageRule (Store.RRef 3) loaded_store
     = (Ok (),
        <[a := Store.CArr (rules ++ [Store.RRef (length loaded_store + 5)])]>
          (loaded_store ++ Store.new_rule_cells (length loaded_store)))) ∧
  (Store.truthy (default Store.RUndef (lookup_prop "packageRules"
       [("timezone", Store.RStr "Europe/Berlin"); ("packageRules", Store.RRef 2)]))
   = false →
     Store.addPackageRule (Store.RRef 3) loaded_store
     = (Ok (),
        <[length loaded_store := Store.CArr [Store.RRef (length loaded_store + 6)]]>
          (<[3 := Store.CObj (set_prop "packageRules"
                                (Store.RRef (length loaded_store))
                                [("timezone", Store.RStr "Europe/Berlin");
                                 ("packageRules", Store.RRef 2)])]>
             (loaded_store ++ [Store.CArr []])
           ++ Store.new_rule_cells (length loaded_store + 1)))).
Proof. apply addPackageRule_appends. reflexivity. Defined.

Example addPackageRule_on_loaded_store :
  let run := Store.addPackageRule (Store.RRef 3) loaded_store in
  Store.read_tree 5 run.2 (Store.RRef 3)
  = Ok (JObj [("timezone", JStr "Europe/Berlin");
              ("packageRules",
               JArr [JObj [("matchManagers", JArr [JStr "npm"]);
                           ("enabled", JBool false)];
                     JObj [("groupName", JStr "");
                           ("matchManagers", JArr []);
                           ("matchDatasources", JArr []);
                           ("matchFileNames", JArr []);
                           ("matchUpdateTypes", JArr []);
                           ("matchDepTypes", JArr []);
                           ("matchCurrentVersion", JStr "");
                           ("automergeType", JStr "branch")]])]).
Proof. reflexivity. Qed.

(** ** Index keys, continued *)

Lemma pretty_N_go_first (c : ascii) x s :
  (∀ d, pretty_N_char d ≠ c) →
  (∀ s', s ≠ String c s') → ∀ s', pretty_N_go x s ≠ String c s'.
Proof.
  intros Hc. revert s. induction (N.lt_wf_0 x) as [x _ IH]; intros s Hs s'.
  destruct (decide (0 < x)%N) as [Hx|Hx].
  - rewrite pretty_N_go_step by done. apply IH.
    + apply N.div_lt; [done|lia].
    + intros s'' [= Hd _]. by apply Hc in Hd.
  - replace x with 0%N by lia. rewrite pretty_N_go_0. apply Hs.
Qed.

Lemma index_key_not_length i : index_key i ≠ "length".
Proof.
  unfold index_key, pretty, pretty_nat, pretty, pretty_N.
  case_decide; [done|]. apply pretty_N_go_first; [|done].
  intros d. unfold pretty_N_char. by repeat case_match.
Qed.

Lemma find_index_key i n j :
  find_index (index_key i) n j
  = if bool_decide (j ≤ i < j + n) then Some i else None.
Proof.
  revert j. induction n as [|n IH]; intros j; simpl.
  - rewrite bool_decide_eq_false_2 by lia. done.
  - case_bool_decide as Hk.
    + apply (inj pretty) in Hk as ->. rewrite bool_decide_eq_true_2 by lia. done.
    + rewrite IH. assert (j ≠ i) by (by intros ->).
      repeat case_bool_decide; (done || lia).
Qed.

Lemma get_indexed_key i (items : list Store.rvalue) :
  Store.get_indexed (index_key i) items = default Store.RUndef (items !! i).
Proof.
  unfold Store.get_indexed.
  rewrite bool_decide_eq_false_2 by apply index_key_not_length.
  rewrite find_index_key. case_bool_decide as Hi; [done|].
  rewrite lookup_ge_None_2 by lia. done.
Qed.

Lemma run_rule_at (h : list Store.cell) l ps a rules i :
  h !! l = Some (Store.CObj ps) →
  lookup_prop "packageRules" ps = Some (Store.RRef a) →
  h !! a = Some (Store.CArr rules) →
  Store.rule_at (Store.RRef l) i h
  = (Ok (if Store.truthy (default Store.RUndef (rules !! i))
         then Some (default Store.RUndef (rules !! i)) else None), h).
Proof.
  intros Hl Hpr Ha. unfold Store.rule_at.
  rewrite (M_bind_ok _ _ _ _ _ (run_get_obj h l ps "packageRules" Hl)).
  rewrite Hpr. cbn [default from_option id Store.truthy].
  rewrite (M_bind_ok _ _ _ _ _ (run_get_arr h a rules _ Ha)).
  rewrite get_indexed_key. destruct (Store.truthy _); [|done].
  rewrite (M_bind_ok _ _ _ _ _ (run_get_arr h a rules _ Ha)).
  by rewrite get_indexed_key.
Qed.

Lemma run_rule_at_none (h : list Store.cell) l ps i :
  h !! l = Some (Store.CObj ps) →
  Store.truthy (default Store.RUndef (lookup_prop "packageRules" ps)) = false →
  Store.rule_at (Store.RRef l) i h = (Ok None, h).
Proof.
  intros Hl Hpr. unfold Store.rule_at.
  rewrite (M_bind_ok _ _ _ _ _ (run_get_obj h l ps "packageRules" Hl)).
  by rewrite Hpr.
Qed.

(** X11: [removePackageRule] on a document that is an object.  With a
    list under [packageRules] the only cell that changes is that list,
    from which [splice(index, 1)] takes the rule at [index]: the one at
    that position when the index is in range, none when it is at or past
    the end, and, counted from the end, the last one for [-1].  With
    [packageRules] absent, [undefined] or [null] nothing happens, by the
    optional chaining; with another value that is not a list, such as
    [0] or a string, the call throws. *)
Theorem removePackageRule_splices (h : list Store.cell) (l : Store.loc)
    (ps : list (string * Store.rvalue)) (index : Z) :
  h !! l = Some (Store.CObj ps) →
  (∀ a rules,
     lookup_prop "packageRules" ps = Some (Store.RRef a) →
     h !! a = Some (Store.CArr rules) →
     Store.removePackageRule (Store.RRef l) index h
     = (Ok (), <[a := Store.CArr
                        (delete (splice_start (length rules) index) rules)]> h) ∧
     ((0 ≤ index < Z.of_nat (length rules))%Z →
        splice_start (length rules) index = Z.to_nat index) ∧
     ((Z.of_nat (length rules) ≤ index)%Z →
        delete (splice_start (length rules) index) rules = rules) ∧
     (index = (-1)%Z → splice_start (length rules) index = length rules - 1)) ∧
  (lookup_prop "packageRules" ps = None ∨
   lookup_prop "packageRules" ps = Some Store.RUndef ∨
   lookup_prop "packageRules" ps = Some Store.RNull →
     Store.removePackageRule (Store.RRef l) index h = (Ok (), h)) ∧
  (∀ v, lookup_prop "packageRules" ps = Some v →
     (∃ b, v = Store.RBool b) ∨ (∃ n, v = Store.RNum n) ∨ (∃ s, v = Store.RStr s) →
     Store.removePackageRule (Store.RRef l) index h = (TypeError, h)).
Proof.
  intros Hl. split_and!.
  - intros a rules Hpr Ha. split_and!.
    + unfold Store.removePackageRule.
      rewrite (M_bind_ok _ _ _ _ _ (run_get_obj h l ps "packageRules" Hl)).
      rewrite Hpr. cbn [default from_option id]. by apply run_splice.
    + intros Hi. unfold splice_start. destruct (Z.ltb_spec index 0); lia.
    + intros Hi. apply delete_ge. unfold splice_start.
      destruct (Z.ltb_spec index 0); lia.
    + intros ->. unfold splice_start. simpl. lia.
  - intros Hpr. unfold Store.removePackageRule.
    rewrite (M_bind_ok _ _ _ _ _ (run_get_obj h l ps "packageRules" Hl)).
    by destruct Hpr as [-> | [-> | ->]].
  - intros v Hpr Hv. unfold Store.removePackageRule.
    rewrite (M_bind_ok _ _ _ _ _ (run_get_obj h l ps "packageRules" Hl)).
    rewrite Hpr. by destruct Hv as [[b ->]|[[n ->]|[s ->]]].
Qed.

Lemma removePackageRule_splices_witness :
  (∀ a rules,
     lookup_prop "packageRules"
       [("timezone", Store.RStr "Europe/Berlin"); ("packageRules", Store.RRef 2)]
     = Some (Store.RRef a) →
     loaded_store !! a = Some (Store.CArr rules) →
     Store.removePackageRule (Store.RRef 3) 0 loaded_store
     = (Ok (), <[a := Store.CArr
                        (delete (splice_start (length rules) 0) rules)]>
                 loaded_store) ∧
     ((0 ≤ 0 < Z.of_nat (length rules))%Z →
        splice_start (length rules) 0 = Z.to_nat 0) ∧
     ((Z.of_nat (length rules) ≤ 0)%Z →
        delete (splice_start (length rules) 0) rules = rules) ∧
     (0%Z = (-1)%Z → splice_start (length rules) 0 = length rules - 1)) ∧
  (lookup_prop "packageRules"
     [("timezone", Store.RStr "Europe/Berlin"); ("packageRules", Store.RRef 2)]
   = None ∨
   lookup_prop "packageRules"
     [("timezone", Store.RStr "Europe/Berlin"); ("packageRules", Store.RRef 2)]
   = Some Store.RUndef ∨
   lookup_prop "packageRules"
     [("timezone", Store.RStr "Europe/Berlin"); ("packageRules", Store.RRef 2)]
   = Some Store.RNull →
     Store.removePackageRule (Store.RRef 3) 0 loaded_store = (Ok (), loaded_store)) ∧
  (∀ v, lookup_prop "packageRules"
          [("timezone", Store.RStr "Europe/Berlin"); ("packageRules", Store.RRef 2)]
        = Some v →
     (∃ b, v = Store.RBool b) ∨ (∃ n, v = Store.RNum n) ∨ (∃ s, v = Store.RStr s) →
     Store.removePackageRule (Store.RRef 3) 0 loaded_store
     = (TypeError, loaded_store)).
Proof. apply removePackageRule_splices. reflexivity. Defined.

(** X12: the two edits of a list inside a rule.  When the document has
    no truthy [packageRules], or [ruleIndex] is at or past the end of the
    rules, neither does anything and neither throws.  For a rule in
    range that is an object, and a [key] that is a [plain_key],
    [addToPackageRuleArray] appends the empty string to the list under
    [key], the only cell that changes, and creates that list first when
    the key is absent; [removeFromPackageRuleArray] splices the list at
    [itemIndex], and changes nothing when the key is absent. *)
Theorem rule_list_edits (h : list Store.cell) (l : Store.loc)
    (ps : list (string * Store.rvalue)) (key : string) (itemIndex : Z) :
  h !! l = Some (Store.CObj ps) →
  (Store.truthy (default Store.RUndef (lookup_prop "packageRules" ps)) = false →
     ∀ ruleIndex,
       Store.addToPackageRuleArray (Store.RRef l) ruleIndex key h = (Ok (), h) ∧
       Store.removeFromPackageRuleArray (Store.RRef l) ruleIndex key itemIndex h
       = (Ok (), h)) ∧
  (∀ a rules,
     lookup_prop "packageRules" ps = Some (Store.RRef a) →
     h !! a = Some (Store.CArr rules) →
     (∀ ruleIndex : nat, (length rules ≤ ruleIndex)%nat →
        Store.addToPackageRuleArray (Store.RRef l) ruleIndex key h = (Ok (), h) ∧
        Store.removeFromPackageRuleArray (Store.RRef l) ruleIndex key itemIndex h
        = (Ok (), h)) ∧
     (∀ ruleIndex r rps,
        plain_key key = true →
        rules !! ruleIndex = Some (Store.RRef r) →
        h !! r = Some (Store.CObj rps) →
        (∀ b items,
           lookup_prop key rps = Some (Store.RRef b) →
           h !! b = Some (Store.CArr items) →
           Store.addToPackageRuleArray (Store.RRef l) ruleIndex key h
           = (Ok (), <[b := Store.CArr (items ++ [Store.RStr ""])]> h) ∧
           Store.removeFromPackageRuleArray (Store.RRef l) ruleIndex key itemIndex h
           = (Ok (), <[b := Store.CArr
                              (delete (splice_start (length items) itemIndex)
                                 items)]> h)) ∧
        (lookup_prop key rps = None →
           Store.addToPackageRuleArray (Store.RRef l) ruleIndex key h
           = (Ok (),
              <[length h := Store.CArr [Store.RStr ""]]>
                (<[r := Store.CObj (set_prop key (Store.RRef (length h)) rps)]>
                   (h ++ [Store.CArr []]))) ∧
           Store.removeFromPackageRuleArray (Store.RRef l) ruleIndex key itemIndex h
           = (Ok (), h)))).
Proof.
  intros Hl. split.
  - intros Hpr ruleIndex.
    unfold Store.addToPackageRuleArray, Store.removeFromPackageRuleArray.
    by rewrite !(M_bind_ok _ _ _ _ _ (run_rule_at_none h l ps ruleIndex Hl Hpr)).
  - intros a rules Hpr Ha. split.
    + intros ruleIndex Hi.
      unfold Store.addToPackageRuleArray, Store.removeFromPackageRuleArray.
      rewrite !(M_bind_ok _ _ _ _ _ (run_rule_at h l ps a rules ruleIndex Hl Hpr Ha)).
      by rewrite lookup_ge_None_2.
    + intros ruleIndex r rps _ Hr Hrc.
      unfold Store.addToPackageRuleArray, Store.removeFromPackageRuleArray.
      rewrite !(M_bind_ok _ _ _ _ _ (run_rule_at h l ps a rules ruleIndex Hl Hpr Ha)).
      rewrite Hr. cbn [default from_option id Store.truthy]. split.
      * intros b items Hk Hb.
        rewrite !(M_bind_ok _ _ _ _ _ (run_get_obj h r rps key Hrc)).
        rewrite Hk. cbn [default from_option id Store.truthy]. split.
        -- rewrite (M_bind_ok _ _ h () h) by done.
           rewrite (M_bind_ok _ _ _ _ _ (run_get_obj h r rps key Hrc)).
           rewrite Hk. cbn [default from_option id].
           rewrite (run_if_array_list h b items) by done. by apply run_push.
        -- rewrite (run_if_array_list h b items) by done. by apply run_splice.
      * intros Hk.
        rewrite !(M_bind_ok _ _ _ _ _ (run_get_obj h r rps key Hrc)).
        rewrite Hk. cbn [default from_option id Store.truthy]. split; [|done].
        pose proof (lookup_lt_Some _ _ _ Hrc) as Hlt.
        set (h1 := <[r := Store.CObj (set_prop key (Store.RRef (length h)) rps)]>
                     (h ++ [Store.CArr []])).
        assert (Hr1 : h1 !! r = Some (Store.CObj (set_prop key
                                         (Store.RRef (length h)) rps))).
        { unfold h1. apply list_lookup_insert_eq. rewrite length_app. lia. }
        assert (Hn : h1 !! length h = Some (Store.CArr [])).
        { unfold h1. rewrite list_lookup_insert_ne by lia. apply lookup_new. }
        rewrite (M_bind_ok _ _ h () h1).
        2:{ rewrite M_bind_unfold. unfold Store.alloc. cbv beta iota.
            apply run_assign_obj. by apply lookup_app_l_Some. }
        rewrite (M_bind_ok _ _ _ _ _ (run_get_obj h1 r _ key Hr1)).
        rewrite lookup_set_prop_eq. cbn [default from_option id].
        rewrite (run_if_array_list h1 (length h) []) by done.
        by apply (run_push _ _ []).
Qed.

Lemma rule_list_edits_witness :
  (Store.truthy (default Store.RUndef (lookup_prop "packageRules"
       [("timezone", Store.RStr "Europe/Berlin"); ("packageRules", Store.RRef 2)]))
   = false →
     ∀ ruleIndex,
       Store.addToPackageRuleArray (Store.RRef 3) ruleIndex "matchManagers"
         loaded_store = (Ok (), loaded_store) ∧
       Store.removeFromPackageRuleArray (Store.RRef 3) ruleIndex "matchManagers" 0
         loaded_store = (Ok (), loaded_store)) ∧
  (∀ a rules,
     lookup_prop "packageRules"
       [("timezone", Store.RStr "Europe/Berlin"); ("packageRules", Store.RRef 2)]
     = Some (Store.RRef a) →
     loaded_store !! a = Some (Store.CArr rules) →
     (∀ ruleIndex : nat, (length rules ≤ ruleIndex)%nat →
        Store.addToPackageRuleArray (Store.RRef 3) ruleIndex "matchManagers"
          loaded_store = (Ok (), loaded_store) ∧
        Store.removeFromPackageRuleArray (Store.RRef 3) ruleIndex "matchManagers" 0
          loaded_store = (Ok (), loaded_store)) ∧
     (∀ ruleIndex r rps,
        plain_key "matchManagers" = true →
        rules !! ruleIndex = Some (Store.RRef r) →
        loaded_store !! r = Some (Store.CObj rps) →
        (∀ b items,
           lookup_prop "matchManagers" rps = Some (Store.RRef b) →
           loaded_store !! b = Some (Store.CArr items) →
           Store.addToPackageRuleArray (Store.RRef 3) ruleIndex "matchManagers"
             loaded_store
           = (Ok (), <[b := Store.CArr (items ++ [Store.RStr ""])]> loaded_store) ∧
           Store.removeFromPackageRuleArray (Store.RRef 3) ruleIndex
             "matchManagers" 0 loaded_store
           = (Ok (), <[b := Store.CArr
                              (delete (splice_start (length items) 0) items)]>
                       loaded_store)) ∧
        (lookup_prop "matchManagers" rps = None →
           Store.addToPackageRuleArray (Store.RRef 3) ruleIndex "matchManagers"
             loaded_store
           = (Ok (),
              <[length loaded_store := Store.CArr [Store.RStr ""]]>
                (<[r := Store.CObj (set_prop "matchManagers"
                                      (Store.RRef (length loaded_store)) rps)]>
                   (loaded_store ++ [Store.CArr []]))) ∧
           Store.removeFromPackageRuleArray (Store.RRef 3) ruleIndex
             "matchManagers" 0 loaded_store
           = (Ok (), loaded_store)))).
Proof. apply rule_list_edits. reflexivity. Defined.

Lemma delete_prop_fresh {V} k (v : V) ps :
  lookup_prop k ps = None → delete_prop k (ps ++ [(k, v)]) = ps.
Proof.
  induction ps as [|[k' v'] ps IH]; simpl.
  - by rewrite bool_decide_eq_true_2.
  - case_bool_decide; [done|]. intros ?. by rewrite IH.
Qed.

(** X13: [addManagerConfiguration] on a document that is an object,
    with a name that is a [plain_key].  With an empty name, or a name under which the document has a truthy
    value already (a manager added before, or any other setting of that
    name), it does nothing.  With a name the document does not have it
    stores a new object under it, as the last key, whose only field
    [managerFilePatterns] is a new empty list; the [Remove] button of
    that manager, [delete editableConfig[manager]], then gives the
    document its fields back as they were. *)
Theorem addManagerConfiguration_adds_once (h : list Store.cell) (l : Store.loc)
    (ps : list (string * Store.rvalue)) (newManager : string) :
  h !! l = Some (Store.CObj ps) → plain_key newManager = true →
  (newManager = "" ∨
   Store.truthy (default Store.RUndef (lookup_prop newManager ps)) = true →
     Store.addManagerConfiguration (Store.RRef l) newManager h = (Ok (), h)) ∧
  (newManager ≠ "" → lookup_prop newManager ps = None →
     Store.addManagerConfiguration (Store.RRef l) newManager h
     = (Ok (),
        <[l := Store.CObj (ps ++ [(newManager, Store.RRef (length h + 1))])]>
          (h ++ [Store.CArr [];
                 Store.CObj [("managerFilePatterns", Store.RRef (length h))]])) ∧
     (Store.addManagerConfiguration (Store.RRef l) newManager;;
      Store.removeManager (Store.RRef l) newManager) h
     = (Ok (),
        h ++ [Store.CArr [];
              Store.CObj [("managerFilePatterns", Store.RRef (length h))]])).
Proof.
  intros Hl _. pose proof (lookup_lt_Some _ _ _ Hl) as Hlt.
  assert (Hadd : newManager ≠ "" → lookup_prop newManager ps = None →
    Store.addManagerConfiguration (Store.RRef l) newManager h
    = (Ok (),
       <[l := Store.CObj (ps ++ [(newManager, Store.RRef (length h + 1))])]>
         (h ++ [Store.CArr [];
                Store.CObj [("managerFilePatterns", Store.RRef (length h))]]))).
  { intros Hne Hk. unfold Store.addManagerConfiguration.
    rewrite bool_decide_eq_false_2 by done.
    rewrite (M_bind_ok _ _ _ _ _ (run_get_obj h l ps newManager Hl)).
    rewrite Hk. cbn [default from_option id Store.truthy].
    rewrite !M_bind_unfold. unfold Store.alloc. cbv beta iota.
    rewrite !M_bind_unfold. cbv beta iota.
    rewrite length_app. simpl length. rewrite <- (assoc_L (++)). simpl app.
    rewrite (run_assign_obj _ l ps) by by apply lookup_app_l_Some.
    by rewrite set_prop_fresh. }
  split.
  - intros Hcase. unfold Store.addManagerConfiguration.
    destruct Hcase as [->|Ht]; [done|].
    case_bool_decide; [done|].
    rewrite (M_bind_ok _ _ _ _ _ (run_get_obj h l ps newManager Hl)).
    by rewrite Ht.
  - intros Hne Hk. split; [by apply Hadd|].
    rewrite (M_bind_ok _ _ _ _ _ (Hadd Hne Hk)). unfold Store.removeManager.
    rewrite (run_delete_obj _ l (ps ++ [(newManager, Store.RRef (length h + 1))])).
    2:{ apply list_lookup_insert_eq. rewrite length_app. lia. }
    rewrite list_insert_insert_eq, delete_prop_fresh by done.
    f_equal. apply list_insert_id. by apply lookup_app_l_Some.
Qed.

Lemma addManagerConfiguration_adds_once_witness :
  ("npm" = "" ∨
   Store.truthy (default Store.RUndef (lookup_prop "npm"
     [("timezone", Store.RStr "Europe/Berlin"); ("packageRules", Store.RRef 2)]))
   = true →
     Store.addManagerConfiguration (Store.RRef 3) "npm" loaded_store
     = (Ok (), loaded_store)) ∧
  ("npm" ≠ "" →
   lookup_prop "npm"
     [("timezone", Store.RStr "Europe/Berlin"); ("packageRules", Store.RRef 2)]
   = None →
     Store.addManagerConfiguration (Store.RRef 3) "npm" loaded_store
     = (Ok (),
        <[3 := Store.CObj
                 ([("timezone", Store.RStr "Europe/Berlin");
                   ("packageRules", Store.RRef 2)]
                  ++ [("npm", Store.RRef (length loaded_store + 1))])]>
          (loaded_store
           ++ [Store.CArr [];
               Store.CObj [("managerFilePatterns",
                            Store.RRef (length loaded_store))]])) ∧
     (Store.addManagerConfiguration (Store.RRef 3) "npm";;
      Store.removeManager (Store.RRef 3) "npm") loaded_store
     = (Ok (),
        loaded_store
        ++ [Store.CArr [];
            Store.CObj [("managerFilePatterns",
                         Store.RRef (length loaded_store))]])).
Proof. apply addManagerConfiguration_adds_once; reflexivity. Defined.

(** ** Load, then Export, on the store *)

(** X14: Export after Load on the store is [export_load] on the tree.
    Whatever document [t] the argument of Load stands for, with enough
    fuel for the reads, when Load returns, [cleanConfig] on the working
    document it left fails exactly when [export_load t] fails and
    otherwise returns the document [export_load t] returns, held in cells
    allocated after Load; the working document and the argument of Load
    are the same documents afterwards. *)
Theorem load_then_export_on_store P (h : list Store.cell) src t e
  (stringify : value → string) :
  Store.rep P h src t →
  ∃ n : nat, ∀ fuel : nat, (n ≤ fuel)%nat →
    let loaded := Store.load stringify fuel e src h in
    ∀ e', loaded.1 = Ok e' →
      let exported := Store.cleanConfig fuel (Store.editableConfig e') loaded.2 in
      Store.res_rel
        (Store.rep (λ l, (length loaded.2 ≤ l)%nat) exported.2)
        exported.1 (export_load t) ∧
      Store.res_rel
        (λ _ working,
           Store.rep (λ l, (length h ≤ l)%nat) exported.2
             (Store.editableConfig e') working)
        loaded.1 (normalize t) ∧
      Store.rep P exported.2 src t.
Proof.
  intros Hrep.
  exists (S (Store.depth t `max`
             match normalize t with Ok t' => Store.depth t' | _ => 0 end)).
  intros fuel Hfuel loaded e' He' exported.
  destruct (load_store stringify P h src t e fuel Hrep) as (k & Hk & Hr).
  { lia. }
  { intros t' Ht'. rewrite Ht' in Hfuel. lia. }
  fold loaded in Hk, Hr. rewrite He' in Hr |- *. unfold export_load.
  destruct (normalize t) as [t'| | |] eqn:Ht'; simpl in Hr; try done.
  destruct Hr as (Hwork & _ & _). rewrite <- Hk in Hwork.
  destruct (cleanConfig_store _ loaded.2 (Store.editableConfig e') t' fuel Hwork)
    as (k' & Hk' & Hr').
  { lia. }
  fold exported in Hk', Hr'. rewrite Hk'. split_and!.
  - exact Hr'.
  - simpl. by apply rep_app.
  - rewrite Hk. by apply rep_app, rep_app.
Qed.

Lemma load_then_export_on_store_witness :
  ∃ n : nat, ∀ fuel : nat, (n ≤ fuel)%nat →
    let loaded := Store.load (λ _, "") fuel loaded_editor (Store.RRef 3)
                    loaded_store in
    ∀ e', loaded.1 = Ok e' →
      let exported := Store.cleanConfig fuel (Store.editableConfig e') loaded.2 in
      Store.res_rel
        (Store.rep (λ l, (length loaded.2 ≤ l)%nat) exported.2)
        exported.1 (export_load loaded_document) ∧
      Store.res_rel
        (λ _ working,
           Store.rep (λ l, (length loaded_store ≤ l)%nat) exported.2
             (Store.editableConfig e') working)
        loaded.1 (normalize loaded_document) ∧
      Store.rep (λ _, True) exported.2 (Store.RRef 3) loaded_document.
Proof.
  apply (load_then_export_on_store (λ _, True) loaded_store (Store.RRef 3)
           loaded_document loaded_editor (λ _, "")).
  eapply Store.rep_obj; [done | reflexivity |].
  repeat constructor.
  eapply Store.rep_arr; [done | reflexivity |].
  repeat constructor.
  eapply Store.rep_obj; [done | reflexivity |].
  repeat constructor.
  eapply Store.rep_arr; [done | reflexivity |].
  repeat constructor.
Defined.

(** ** The number of requests *)

Lemma candidates_length url :
  length (candidates url) = 0 ∨ length (candidates url) = 1 ∨
  length (candidates url) = 8.
Proof.
  unfold candidates, getGitHubRawUrls.
  repeat case_match; simpl; auto.
Qed.

(** X15: [loadConfig] makes at most eight requests, whatever the input
    and whatever the network answers; at most one when the input does
    not contain [github.com], names the raw host or is a blob address;
    and none for a blank input. *)
Theorem loadConfig_request_bound
    (fetch : string → fetch_outcome) (JSON5_parse : string → value + string)
    (url : string) :
  (length (loadConfig fetch JSON5_parse url).1 ≤ 8)%nat ∧
  (includes "github.com" url = false ∨
   includes "raw.githubusercontent.com" url = true ∨ blob_match url = true →
     (length (loadConfig fetch JSON5_parse url).1 ≤ 1)%nat) ∧
  (blank url = true → (loadConfig fetch JSON5_parse url).1 = []).
Proof.
  assert (Hle : (length (loadConfig fetch JSON5_parse url).1
                 ≤ length (candidates url))%nat).
  { unfold loadConfig. destruct (blank url) eqn:Hb; [simpl; lia|].
    destruct (try_urls_cases fetch JSON5_parse (candidates url) "")
      as [[_ ->]|(pre & u & post & e' & Hc & _ & _ & ->)]; [done|].
    rewrite Hc. simpl. rewrite !length_app. simpl. lia. }
  split_and!.
  - destruct (candidates_length url) as [H|[H|H]]; lia.
  - intros Hcase. enough ((length (candidates url) ≤ 1)%nat) by lia.
    unfold candidates.
    destruct (includes "github.com" url); [|done].
    destruct Hcase as [?|[->| Hblob]]; [done|done|].
    destruct (includes "raw.githubusercontent.com" url); [done|].
    by rewrite Hblob.
  - intros Hb. unfold loadConfig. by rewrite Hb.
Qed.

(** ** Blob addresses *)

Lemma replace_first_skip p r c s :
  starts_with p (String c s) = false →
  replace_first p r (String c s) = String c (replace_first p r s).
Proof. intros Hs. cbn [replace_first]. by rewrite Hs. Qed.

Lemma replace_first_here p r s :
  starts_with p s = true →
  replace_first p r s = r +:+ drop_chars (String.length p) s.
Proof. intros Hs. destruct s; cbn [replace_first]; by rewrite Hs. Qed.

Lemma replace_blob_slash_free a x :
  slash_free a →
  replace_first "/blob/" "/" (a +:+ x) = a +:+ replace_first "/blob/" "/" x.
Proof.
  unfold slash_free. induction a as [|c a IH]; [done|].
  intros Hc. simpl in Hc. rewrite not_elem_of_cons in Hc. destruct Hc as [Hc Ha].
  change (String c a +:+ x) with (String c (a +:+ x)).
  rewrite replace_first_skip.
  - rewrite IH by done. done.
  - simpl. by rewrite bool_decide_eq_false_2.
Qed.

Lemma starts_with_blob a x :
  slash_free a → a ≠ "blob" →
  starts_with "/blob/" (String "/" (a +:+ String "/" x)) = false.
Proof.
  unfold slash_free. intros Ha Hne.
  destruct a as [|c1 [|c2 [|c3 [|c4 [|c5 a]]]]]; simpl in *;
    repeat (case_bool_decide; simpl; try done); subst; try done.
  rewrite !not_elem_of_cons in Ha. by destruct Ha as (_ & _ & _ & _ & Ha & _).
Qed.

Lemma blob_match_here s owner repo rest :
  starts_with "github.com/" s = true →
  owner_repo_at (drop_chars 11 s) = Some (owner, repo, rest) →
  starts_with "/blob/" rest = true →
  blob_match s = true.
Proof. intros Hs Ha Hr. destruct s; cbn [blob_match]; by rewrite Hs, Ha, Hr. Qed.

Lemma blob_match_later c s : blob_match s = true → blob_match (String c s) = true.
Proof. intros Hs. cbn [blob_match]. rewrite Hs. apply orb_true_r. Qed.

(** X16: a blob address [https://github.com/OWNER/REPO/blob/REST] that
    does not name the raw host has one candidate, the raw address
    [https://raw.githubusercontent.com/OWNER/REPO/REST], unless the
    owner is called [blob]: the first [/blob/] of the address is then
    the owner's, and the candidate is the address without the owner. *)
Theorem candidates_blob (owner repo rest : string) :
  slash_free owner → slash_free repo → owner ≠ "" → repo ≠ "" →
  includes "raw.githubusercontent.com"
    ("https://github.com/" +:+ owner +:+ "/" +:+ repo +:+ "/blob/" +:+ rest)
  = false →
  (owner ≠ "blob" →
     candidates
       ("https://github.com/" +:+ owner +:+ "/" +:+ repo +:+ "/blob/" +:+ rest)
     = ["https://raw.githubusercontent.com/" +:+ owner +:+ "/" +:+ repo
          +:+ "/" +:+ rest]) ∧
  (owner = "blob" →
     candidates
       ("https://github.com/" +:+ owner +:+ "/" +:+ repo +:+ "/blob/" +:+ rest)
     = ["https://raw.githubusercontent.com/" +:+ repo +:+ "/blob/" +:+ rest]).
Proof.
  intros Ho Hr Hno Hnr Hraw.
  pose proof (owner_repo_at_names owner repo ("/blob/" +:+ rest) Ho Hr Hno Hnr)
    as Ha.
  specialize (Ha (or_intror (ex_intro _ ("blob/" +:+ rest) eq_refl))).
  set (tail := owner +:+ "/" +:+ repo +:+ "/blob/" +:+ rest) in *.
  assert (Hurl : "https://github.com/" +:+ tail
    = String "h" (String "t" (String "t" (String "p" (String "s"
        (String ":" (String "/" (String "/" ("github.com/" +:+ tail)))))))))
    by done.
  assert (Hgh : includes "github.com" ("https://github.com/" +:+ tail) = true).
  { apply (github_match_includes _ (owner, repo)). rewrite Hurl.
    rewrite !github_match_skip by done.
    by apply (github_match_here _ owner repo ("/blob/" +:+ rest)). }
  assert (Hblob : blob_match ("https://github.com/" +:+ tail) = true).
  { rewrite Hurl. do 8 apply blob_match_later.
    by apply (blob_match_here _ owner repo ("/blob/" +:+ rest)). }
  assert (Hhost : replace_first "github.com" "raw.githubusercontent.com"
                    ("https://github.com/" +:+ tail)
                  = "https://raw.githubusercontent.com" +:+ String "/" tail).
  { rewrite Hurl. rewrite !replace_first_skip by done.
    by rewrite replace_first_here. }
  unfold candidates. rewrite Hgh, Hraw, Hblob, Hhost.
  change ("https://raw.githubusercontent.com" +:+ String "/" tail)
    with (String "h" (String "t" (String "t" (String "p" (String "s"
      (String ":" (String "/" (String "/"
        ("raw.githubusercontent.com" +:+ String "/" tail))))))))).
  rewrite !replace_first_skip by done.
  change ("raw.githubusercontent.com" +:+ String "/" tail)
    with (String "r" (String "a" (String "w" (String "."
      ("githubusercontent.com" +:+ String "/" tail))))).
  rewrite !replace_first_skip by done.
  change ("githubusercontent.com" +:+ String "/" tail)
    with (String "g" (String "i" (String "t" (String "h" (String "u"
      (String "b" (String "u" (String "s" (String "e" (String "r"
      (String "c" (String "o" (String "n" (String "t" (String "e"
      (String "n" (String "t" (String "." (String "c" (String "o"
      (String "m" (String "/" tail)))))))))))))))))))))).
  rewrite !replace_first_skip by done.
  split.
  - intros Hnb. unfold tail.
    change (owner +:+ "/" +:+ repo +:+ "/blob/" +:+ rest)
      with (owner +:+ String "/" (repo +:+ "/blob/" +:+ rest)).
    rewrite replace_first_skip by by apply starts_with_blob.
    rewrite replace_blob_slash_free by done.
    destruct (decide (repo = "blob")) as [->|Hrb].
    + rewrite replace_first_here by done. done.
    + change (repo +:+ "/blob/" +:+ rest)
        with (repo +:+ String "/" ("blob/" +:+ rest)).
      rewrite replace_first_skip by by apply starts_with_blob.
      rewrite replace_blob_slash_free by done.
      rewrite replace_first_here by done. done.
  - intros ->. rewrite replace_first_here by done. done.
Qed.

Lemma candidates_blob_witness :
  ("acme" ≠ "blob" →
     candidates
       ("https://github.com/" +:+ "acme" +:+ "/" +:+ "widgets" +:+ "/blob/"
          +:+ "main/renovate.json")
     = ["https://raw.githubusercontent.com/" +:+ "acme" +:+ "/" +:+ "widgets"
          +:+ "/" +:+ "main/renovate.json"]) ∧
  ("acme" = "blob" →
     candidates
       ("https://github.com/" +:+ "acme" +:+ "/" +:+ "widgets" +:+ "/blob/"
          +:+ "main/renovate.json")
     = ["https://raw.githubusercontent.com/" +:+ "widgets" +:+ "/blob/"
          +:+ "main/renovate.json"]).
Proof.
  apply candidates_blob; try done.
  - unfold slash_free. simpl. rewrite !not_elem_of_cons.
    split_and!; try done. apply not_elem_of_nil.
  - unfold slash_free. simpl. rewrite !not_elem_of_cons.
    split_and!; try done. apply not_elem_of_nil.
Defined.

Example candidates_blob_owner :
  candidates "https://github.com/blob/widgets/blob/main/renovate.json"
  = ["https://raw.githubusercontent.com/widgets/blob/main/renovate.json"].
Proof. reflexivity. Qed.

(** ** A document that is falsy *)

(** X17: an address that is the only candidate and serves a document
    that parses to a falsy value ([null], [false], [0], the empty
    string) is fetched once and reported as a failure with the message
    [Unknown error], no document being loaded; so is a fetch or a parse
    that fails with an empty message. *)
Theorem loadConfig_unknown_error
    (fetch : string → fetch_outcome) (JSON5_parse : string → value + string)
    (url u : string) :
  blank url = false → candidates url = [u] →
  (∃ status text config,
     fetch u = Responds true status text ∧ JSON5_parse text = inl config ∧
     truthy config = false) ∨
  fetch u = Rejects "" ∨
  (∃ status text, fetch u = Responds true status text ∧ JSON5_parse text = inr "") →
  loadConfig fetch JSON5_parse url
  = ([u], events_of_failure "Failed to load config: Unknown error").
Proof.
  intros Hb Hc Hcase.
  assert (Hu : accepted fetch JSON5_parse u = false).
  { unfold accepted, tryFetch.
    destruct Hcase as [(status & text & config & -> & -> & Ht)|[->|(status & text & -> & ->)]];
      simpl; [by rewrite Ht|done..]. }
  rewrite loadConfig_all_fail by (by rewrite ?Hc; repeat constructor).
  rewrite Hc. simpl. unfold events_of_failure, last_error, tryFetch. simpl.
  by destruct Hcase as [(status & text & config & -> & -> & Ht)|[->|(status & text & -> & ->)]].
Qed.

Lemma loadConfig_unknown_error_witness :
  loadConfig null_on_main parse_examples
    "https://raw.githubusercontent.com/acme/widgets/main/renovate.json"
  = (["https://raw.githubusercontent.com/acme/widgets/main/renovate.json"],
     events_of_failure "Failed to load config: Unknown error").
Proof.
  apply loadConfig_unknown_error; [reflexivity | reflexivity |].
  left. by exists 200, "null", JNull.
Defined.

(** ** The deep copy *)

Lemma depth_clone t : (Store.depth (clone t) ≤ Store.depth t)%nat.
Proof.
  induction t as [| | |[]| |items IH|props IH] using value_ind; simpl; try lia.
  - apply le_n_S. induction IH as [|w items Hw _ IHl]; simpl; [done|]. lia.
  - apply le_n_S. induction IH as [|[k w] props Hw _ IHl]; simpl in *; [done|].
    destruct w; simpl in *; lia.
Qed.

(** X18: [JSON.parse(JSON.stringify(v))] on the store, the copy that
    the editor takes of its [config] property, that Load and Export
    start with and that [New Config] takes of the defaults.  It throws
    a [SyntaxError] exactly when [v] is [undefined]; otherwise it changes
    no cell, and returns the tree copy [clone] of the document [v]
    stands for, held in new cells only, so that no later write through
    the copy reaches [v]; reading the copy back gives that tree. *)
Theorem deep_copy_copies P (h : list Store.cell) v t fuel :
  Store.rep P h v t → Store.depth t < fuel →
  let run := Store.deep_copy fuel v h in
  (∀ l c, h !! l = Some c → run.2 !! l = Some c) ∧
  Store.rep P run.2 v t ∧
  (t = JUndef → run.1 = SyntaxError) ∧
  (t ≠ JUndef →
     ∃ v', run.1 = Ok v' ∧
       Store.rep (λ l, (length h ≤ l)%nat) run.2 v' (clone t) ∧
       Store.read_tree fuel run.2 v' = Ok (clone t)).
Proof.
  intros Hrep Hfuel run.
  destruct (is_undefined t) eqn:Hu.
  - destruct t; try done.
    unfold run. rewrite (deep_copy_undefined P h v fuel Hrep). simpl.
    by split_and!.
  - destruct (deep_copy_defined P h v t fuel Hrep Hfuel Hu) as [Hdc _].
    destruct (alloc_tree_rep (clone t) h) as (v' & k & Hv' & Hr).
    unfold run. rewrite Hdc, Hv'. simpl. split_and!.
    + intros l c Hl. by apply lookup_app_l_Some.
    + by apply rep_app.
    + intros ->. done.
    + intros _. exists v'. split; [done|].
      assert (Hr' : Store.rep (λ l, (length h ≤ l)%nat) (h ++ k) v' (clone t)).
      { eapply rep_mono; [|exact Hr]. by intros l [? _]. }
      split; [done|]. eapply read_tree_rep; [exact Hr'|].
      pose proof (depth_clone t). lia.
Qed.

Lemma deep_copy_copies_witness :
  let run := Store.deep_copy 5 (Store.RRef 3) loaded_store in
  (∀ l c, loaded_store !! l = Some c → run.2 !! l = Some c) ∧
  Store.rep (λ _, True) run.2 (Store.RRef 3) loaded_document ∧
  (loaded_document = JUndef → run.1 = SyntaxError) ∧
  (loaded_document ≠ JUndef →
     ∃ v', run.1 = Ok v' ∧
       Store.rep (λ l, (length loaded_store ≤ l)%nat) run.2 v'
         (clone loaded_document) ∧
       Store.read_tree 5 run.2 v' = Ok (clone loaded_document)).
Proof.
  apply (deep_copy_copies (λ _, True)).
  - eapply Store.rep_obj; [done | reflexivity |].
    repeat constructor.
    eapply Store.rep_arr; [done | reflexivity |].
    repeat constructor.
    eapply Store.rep_obj; [done | reflexivity |].
    repeat constructor.
    eapply Store.rep_arr; [done | reflexivity |].
    repeat constructor.
  - vm_compute. lia.
Defined.

(** ** Loading what was loaded *)

Lemma cloned_value m k v :
  NoDup m.*1 → clone_props m = m → lookup_prop k m = Some v →
  is_undefined v = false ∧ clone v = v.
Proof.
  intros Hnd Hm Hk. pose proof (lookup_clone_props k m Hnd) as Hl.
  rewrite Hm, Hk in Hl. destruct (is_undefined v); [done|].
  split; [done|]. congruence.
Qed.

Lemma normalized_field_reload m k :
  NoDup m.*1 → clone_props m = m → k ∈ rule_fields →
  normalized_field (clone_props (normalized_props m)) k = normalized_field m k.
Proof.
  intros Hnd Hm Hk. unfold normalized_field at 1.
  rewrite lookup_clone_props by by apply normalized_props_NoDup.
  rewrite lookup_normalized_props, bool_decide_eq_true_2 by done.
  unfold normalized_field. destruct (lookup_prop k m) as [v|] eqn:Hv.
  - destruct (cloned_value m k v Hnd Hm Hv) as [Hu Hc]. by rewrite Hu, Hc.
  - unfold rule_fields in Hk.
    repeat (apply elem_of_cons in Hk as [->|Hk]); [..|by apply elem_of_nil in Hk];
      done.
Qed.

Lemma normalized_props_reload m :
  NoDup m.*1 → clone_props m = m →
  normalized_props (clone_props (normalized_props m)) = normalized_props m.
Proof.
  intros Hnd Hm. unfold normalized_props at 1 3. f_equal.
  - apply map_ext_in. intros k Hk%list_elem_of_In. f_equal.
    by apply normalized_field_reload.
  - rewrite other_fields_clone_props, other_fields_normalized.
    by rewrite <- other_fields_clone_props, Hm.
Qed.

Lemma normalize_rule_reload m :
  NoDup m.*1 → clone_props m = m →
  normalize_rule (clone (JObj (normalized_props m)))
  = Ok (JObj (normalized_props m)).
Proof.
  intros Hnd Hm. rewrite clone_obj, normalize_rule_obj.
  - by rewrite normalized_props_reload.
  - by apply clone_props_NoDup, normalized_props_NoDup.
Qed.

Lemma lookup_clone_props_cloned k ps v :
  lookup_prop k (clone_props ps) = Some v → clone v = v.
Proof.
  induction ps as [|[k' w] ps IH]; [done|]. rewrite clone_props_cons.
  destruct (is_undefined w); [done|]. simpl. case_bool_decide; [|done].
  intros [= <-]. apply clone_idemp.
Qed.

Lemma map_fixed {A} (f : A → A) l : map f l = l → Forall (λ a, f a = a) l.
Proof.
  induction l as [|a l IH]; [constructor|]. simpl. intros [= Ha Hl].
  constructor; auto.
Qed.

Lemma clone_not_object t : (∀ ps, t ≠ JObj ps) → ∀ ps, clone t ≠ JObj ps.
Proof.
  intros Ht ps. destruct t as [| | |[]| | |props]; try done.
  by destruct (Ht props).
Qed.

Lemma json_roundtrip_defined t : t ≠ JUndef → json_roundtrip t = Ok (clone t).
Proof. by destruct t. Qed.

Lemma normalize_not_object t n :
  (∀ ps, t ≠ JObj ps) → normalize t = Ok n → n = clone t ∧ normalize n = Ok n.
Proof.
  intros Ht Hn.
  pose proof (clone_not_object t Ht) as Hc.
  assert (Hload : ∀ t', (∀ ps, t' ≠ JObj ps) → t' ≠ JUndef → ∀ n',
            normalize t' = Ok n' → n' = clone t').
  { intros t' Ht' Hu n'. unfold normalize.
    rewrite json_roundtrip_defined, bind_Ok by done.
    pose proof (clone_not_object t' Ht') as Hc'.
    destruct (get_prop (clone t') "packageRules") as [v| | |] eqn:Hg; try done.
    rewrite bind_Ok, (get_prop_packageRules _ v Hc' Hg). by intros [= <-]. }
  assert (Hu : t ≠ JUndef) by (by intros ->).
  pose proof (Hload t Ht Hu n Hn) as ->. split; [done|].
  revert Hn. unfold normalize.
  rewrite !json_roundtrip_defined, clone_idemp; [done| |done].
  pose proof (clone_not_undefined t). by intros E; rewrite E in *.
Qed.

Lemma normalize_rules_reload rules rules' :
  Forall (λ rule, ∃ m, rule = JObj m ∧ NoDup m.*1) rules →
  Forall (λ rule, clone rule = rule) rules →
  Forall2 (λ rule rule', normalize_rule rule = Ok rule') rules rules' →
  map_result normalize_rule (map clone rules') = Ok rules'.
Proof.
  intros Hobj Hcl Hn. apply (map_result_ok _ (λ _ _, True)).
  induction Hn as [|rule rule' rules rules' Hr _ IH]; [constructor|].
  apply Forall_cons in Hobj as [(m & -> & Hnd) Hobj].
  apply Forall_cons in Hcl as [Hc Hcl].
  simpl. constructor; [|by apply IH].
  rewrite normalize_rule_obj in Hr by done. injection Hr as <-.
  apply normalize_rule_reload; [done|].
  rewrite clone_obj in Hc. congruence.
Qed.

(** X19: Load is idempotent.  Whatever Load makes of a document, for
    any document whose rules, once copied, are objects with distinct
    keys, and for any document that is not an object, Load makes the
    same of its own result: the defaults it filled in are not filled in
    twice, and the [automerge] key it added with the value [undefined],
    which the copy drops, comes back in the same place. *)
Theorem normalize_idempotent (d n : value) :
  normalize d = Ok n →
  (∀ ps rules, d = JObj ps →
     get (clone_props ps) "packageRules" = JArr rules →
     Forall (λ rule, ∃ m, rule = JObj m ∧ NoDup m.*1) rules) →
  normalize n = Ok n.
Proof.
  intros Hn Hrules.
  destruct d as [| | | | | |ps];
    try (by eapply (normalize_not_object _ n); [|exact Hn]).
  specialize (Hrules ps). revert Hn. unfold normalize at 1, json_roundtrip.
  rewrite clone_obj, bind_Ok, get_prop_obj, bind_Ok.
  destruct (truthy (get (clone_props ps) "packageRules")) eqn:Htr.
  - destruct (get (clone_props ps) "packageRules") as [| | | | |rules|] eqn:Hg;
      try done.
    cbn [js_map].
    destruct (map_result normalize_rule rules) as [rules'| | |] eqn:Hm; try done.
    simpl. intros [= <-].
    assert (Hcl : Forall (λ rule, clone rule = rule) rules).
    { apply map_fixed. unfold get in Hg.
      destruct (lookup_prop "packageRules" (clone_props ps)) as [v|] eqn:Hl;
        [|done].
      simpl in Hg. subst v. apply lookup_clone_props_cloned in Hl.
      simpl in Hl. congruence. }
    unfold normalize, json_roundtrip. rewrite clone_obj, bind_Ok.
    rewrite clone_props_set_prop by (done || apply clone_props_defined).
    rewrite clone_props_idemp, get_prop_obj, bind_Ok.
    unfold get at 1 2. rewrite !lookup_set_prop_eq. cbn [default from_option id].
    cbn [clone truthy js_map].
    rewrite (normalize_rules_reload rules rules' (Hrules rules eq_refl eq_refl) Hcl)
      by by apply map_result_inv.
    simpl. by rewrite set_prop_twice.
  - intros [= <-]. unfold normalize, json_roundtrip.
    rewrite clone_obj, bind_Ok, clone_props_idemp, get_prop_obj, bind_Ok.
    by rewrite Htr.
Qed.

Lemma normalize_idempotent_witness :
  normalize
    (JObj [("timezone", JStr "Europe/Berlin");
           ("packageRules",
            JArr [JObj [("groupName", JStr "");
                        ("matchManagers", JArr [JStr "npm"]);
                        ("matchDatasources", JArr []);
                        ("matchFileNames", JArr []);
                        ("matchUpdateTypes", JArr []);
                        ("matchDepTypes", JArr []);
                        ("matchCurrentVersion", JStr "");
                        ("automerge", JUndef);
                        ("automergeType", JStr "branch");
                        ("enabled", JBool false)]])])
  = Ok (JObj [("timezone", JStr "Europe/Berlin");
           ("packageRules",
            JArr [JObj [("groupName", JStr "");
                        ("matchManagers", JArr [JStr "npm"]);
                        ("matchDatasources", JArr []);
                        ("matchFileNames", JArr []);
                        ("matchUpdateTypes", JArr []);
                        ("matchDepTypes", JArr []);
                        ("matchCurrentVersion", JStr "");
                        ("automerge", JUndef);
                        ("automergeType", JStr "branch");
                        ("enabled", JBool false)]])]).
Proof.
  apply (normalize_idempotent loaded_document); [reflexivity|].
  intros ps rules [= <-] [= <-]. repeat constructor.
  eexists. split; [reflexivity|]. by apply (bool_decide_unpack _).
Defined.
